(** * dask-cudf: partition-coordination algorithms

    A shallow embedding of the graph-construction logic of
    [dask_cudf/core.py] and [dask_cudf/io/csv.py], followed by the
    properties of that logic.

    Conventions of the embedding:
    - index values and sort keys are integers ([Z]);
    - a Python [set] of index values is a [gset Z];
    - a Python list that is updated by position is a [list] with stdpp's
      lookup [l !! i], [alter] and insert;
    - a [dict] whose insertion order is observable is an association list;
    - a raised exception is the left injection of a sum ([exn + A]);
    - a [while] loop is a function with a fuel argument, [None] meaning
      that the fuel ran out before the loop condition became false. *)

From stdpp Require Import gmap list sorting strings.
From Stdlib Require Import ZArith.

#[local] Open Scope Z_scope.

(** * Part I: the embedding *)

(** ** Python exceptions and fallible computations *)

Module Py.

Inductive exn : Type :=
| IndexError
| KeyError
| TypeError
| AttributeError
| ValueError (msg : string)
| NotImplementedError (msg : string).

Definition result (A : Type) : Type := (exn + A)%type.

Definition ret {A} (a : A) : result A := inr a.
Definition raise {A} (e : exn) : result A := inl e.

Definition bind {A B} (m : result A) (k : A → result B) : result B :=
  match m with
  | inl e => inl e
  | inr a => k a
  end.

(** A [dict] with its insertion order. *)
Definition dict (K V : Type) : Type := list (K * V).

Section Dict.
Context {K V : Type} `{EqDecision K}.

(** [d[k] = v]: a new key goes last, an existing key keeps its place. *)
Fixpoint dict_set (d : dict K V) (k : K) (v : V) : dict K V :=
  match d with
  | [] => [(k, v)]
  | (k', v') :: d' =>
      if decide (k' = k) then (k, v) :: d' else (k', v') :: dict_set d' k v
  end.

(** [d.update(other)] *)
Definition dict_update (d other : dict K V) : dict K V :=
  foldl (λ d kv, dict_set d kv.1 kv.2) d other.

(** [d.get(k)] *)
Fixpoint dict_get (d : dict K V) (k : K) : option V :=
  match d with
  | [] => None
  | (k', v) :: d' => if decide (k' = k) then Some v else dict_get d' k
  end.

Definition keys (d : dict K V) : list K := d.*1.

End Dict.

(** [l[i]] for [i >= 0], and [l[-1]]. *)
Definition index {A} (l : list A) (i : nat) : result A :=
  match l !! i with
  | Some x => ret x
  | None => raise IndexError
  end.

Definition index_last {A} (l : list A) : result A :=
  match last l with
  | Some x => ret x
  | None => raise IndexError
  end.

(** A list comprehension whose element expression can raise. *)
Fixpoint traverse {A B} (f : A → result B) (l : list A) : result (list B) :=
  match l with
  | [] => ret []
  | x :: l' =>
      match f x with
      | inl e => inl e
      | inr y =>
          match traverse f l' with
          | inl e => inl e
          | inr ys => ret (y :: ys)
          end
      end
  end.

(** [all(...)] over a generator: the tests after the first false one are
    not evaluated, so an exception they would raise is not raised. *)
Fixpoint all_of (tests : list (result bool)) : result bool :=
  match tests with
  | [] => ret true
  | t :: tests' =>
      match t with
      | inl e => inl e
      | inr true => all_of tests'
      | inr false => ret false
      end
  end.

(** [x < y] on index values; [None] cannot be ordered. *)
Definition lt (x y : option Z) : result bool :=
  match x, y with
  | Some a, Some b => ret (bool_decide (a < b))
  | _, _ => raise TypeError
  end.

(** The Python values that occur as keyword arguments. *)
Inductive value : Type :=
| VNone
| VInt (z : Z)
| VStr (s : string)
| VRange (start length : nat)      (* the tuple [(start, chunksize)] *)
| VNames (columns : list string).  (* a column index *)

(** [sum(l)] of a list of integers. *)
Definition sum (l : list Z) : Z := foldr Z.add 0 l.

(** [range(n)]: empty for [n <= 0]. *)
Definition range (n : Z) : list nat := seq 0 (Z.to_nat n).

(** [range(start, stop, step)] for a positive step, as the list of its
    values; [n] bounds the number of values. *)
Fixpoint range_from (n : nat) (start step : nat) : list nat :=
  match n with
  | O => []
  | S n' => start :: range_from n' (start + step)%nat step
  end.

End Py.

Notation "'let*' x ':=' m 'in' k" := (Py.bind m (λ x, k))
  (at level 10, x pattern, m at level 100, k at level 200, only parsing).

(** ** Task graphs and partitioned frames

    A graph ([dsk]) is a Python [dict] from keys to tasks.  Keys are the
    tuples [(name, i)] and [(name, depth, i)]; tasks are the tuples the
    source stores, one constructor per shape.  The dict keeps insertion
    order and an assignment to an existing key overwrites its value in
    place. *)

Module Graph.

Abbreviation kwargs := (gmap string Py.value).

Inductive key : Type :=
| Key2 (name : string) (i : nat)
| Key3 (name : string) (depth i : nat).

#[global] Instance key_eq_dec : EqDecision key.
Proof. solve_decision. Defined.

(** A positional argument of [chunk] inside a task: the key of a
    partition of a frame, or a value passed through. *)
Inductive chunk_arg : Type :=
| ArgKey (k : key)
| ArgValue (v : Py.value).

Inductive task : Type :=
| Alias (k : key)                                  (* [dsk[(name, i)] = key] *)
| Chunk (input : key)                              (* [(chunk, key)] *)
| ApplyChunk (xs : list chunk_arg) (kw : kwargs)   (* [(apply, chunk, [...], chunk_kwargs)] *)
| Combine (conc : list key)                        (* [(combine, (list, [...]))] *)
| ApplyCombine (conc : list key) (kw : kwargs)     (* [(apply, combine, [conc], combine_kwargs)] *)
| Aggregate (conc : list key)                      (* [(aggregate, (list, [...]))] *)
| ApplyAggregate (conc : list key) (kw : kwargs)   (* [(apply, aggregate, [conc], aggregate_kwargs)] *)
| ReadCsv (fn : string) (kw : kwargs)               (* [(apply, cudf.read_csv, [fn], kwargs2)] *)
| Take (indices : list Z) (depends : list key)     (* [take(indices, depends)] *)
| Source.                                          (* a node built elsewhere *)

Definition graph : Type := Py.dict key task.

(** The fields of [_Frame] that the algorithms read; [meta] carries the
    column names of the schema. *)
Record Frame : Type := {
  dask : graph;
  _name : string;
  _meta : list string;
  divisions : list (option Z);
}.

(** [dd.core._Frame.npartitions]: [len(self.divisions) - 1], which is
    [-1] for a frame whose [divisions] is the empty tuple. *)
Definition npartitions (df : Frame) : Z :=
  Z.of_nat (length (divisions df)) - 1.

(** [dd.core._Frame.known_divisions]:
    [len(self.divisions) > 0 and self.divisions[0] is not None]. *)
Definition known_divisions (df : Frame) : bool :=
  match divisions df with
  | Some _ :: _ => true
  | _ => false
  end.

(** [__dask_keys__]: [[(self._name, i) for i in range(self.npartitions)]]. *)
Definition dask_keys (df : Frame) : list key :=
  Key2 (_name df) <$> Py.range (npartitions df).

(** [dd.core.new_dd_object(dsk, name, meta, divisions)]. *)
Definition new_dd_object (dsk : graph) (name : string) (meta : list string)
    (divs : list (option Z)) : Frame :=
  {| dask := dsk; _name := name; _meta := meta; divisions := divs |}.

(** [dask.dataframe.from_delayed(dfs, meta=meta)].  No [divisions]
    argument is passed, so the frame gets [[None] * (len(dfs) + 1)].
    [tok] is the value of [tokenize( *dfs)]. *)
Definition from_delayed (tok : string) (dfs : list task) (meta : list string)
  : Frame :=
  let name := "from-delayed-" +:+ tok in
  new_dd_object (imap (λ i t, (Key2 name i, t)) dfs) name meta
    (replicate (length dfs + 1) None).

(** A frame together with what its partitions evaluate to: the index
    values of each partition, in row order. *)
Record Table : Type := {
  frame : Frame;
  partitions : list (list Z);
}.

End Graph.

(** ** [DataFrame._compute_divisions] *)

Module Divisions.
Import Py Graph.

(** [df.index[0]] and [df.index[-1]]; on an empty index they raise. *)
Definition first_index (df : list Z) : result Z := index df 0.
Definition last_index (df : list Z) : result Z := index_last df.

Definition _compute_divisions (self : Table) : result Table :=
  if known_divisions (frame self) then ret self
  else
    let parts := partitions self in
    let* last_part := index_last parts in
    let* firsts := traverse first_index parts in
    let* last := last_index last_part in
    let divs := firsts ++ [last] in
    ret {| frame := new_dd_object (dask (frame self)) (_name (frame self))
                      (_meta (frame self)) (Some <$> divs);
           partitions := parts |}.

(** The division sequence of the specification: the first index value
    of each non-empty partition, then the last index value of the last
    non-empty partition. *)
Definition filtered_divisions (parts : list (list Z)) : option (list Z) :=
  let kept := filter (λ p, p ≠ []) parts in
  match last kept with
  | Some p =>
      match last p with
      | Some hi => Some (omap head kept ++ [hi])
      | None => None
      end
  | None => None
  end.

(** Three partitions, the middle one empty, divisions unknown. *)
Definition with_empty_partition : Table :=
  {| frame := {| dask := (λ i, (Key2 "df" i, Source)) <$> seq 0 3;
                 _name := "df"; _meta := ["x"];
                 divisions := [None; None; None; None] |};
     partitions := [[1; 2]; []; [5; 6]] |}.

Definition without_empty_partition : Table :=
  {| frame := frame with_empty_partition;
     partitions := [[1; 2]; [3]; [5; 6]] |}.

End Divisions.

(** ** [concat], [stack_partitions] and [concat_indexed_dataframes]

    The objects passed to [concat] are frames of this library, on which
    [_daskify] is the identity.  [tok] is the value of [tokenize( *dfs)]. *)

Module Concat.
Import Py Graph.

(** [cudf.concat(_extract_meta(dfs))]: frames of one schema keep it. *)
Definition concat_meta (dfs : list Frame) : list string :=
  default [] (_meta <$> head dfs).

(** The inner loop of [stack_partitions]:
    [for key in df.__dask_keys__(): dsk[(name, i)] = key; i += 1]. *)
Definition stack_keys (name : string) (st : graph * nat) (ks : list key)
  : graph * nat :=
  foldl (λ st key, (dict_set st.1 (Key2 name st.2) (Alias key), S st.2)) st ks.

Definition stack_partitions (tok : string) (dfs : list Frame)
    (divs : list (option Z)) : Frame :=
  let meta := concat_meta dfs in
  let name := "concat-" +:+ tok in
  let st := foldl (λ st df,
                     stack_keys name (dict_update st.1 (dask df), st.2)
                       (dask_keys df))
              ([], 0%nat) dfs in
  new_dd_object st.1 name meta divs.

(** [align_partitions] is declared with the single parameter [args] and
    [concat_indexed_dataframes] calls it as [align_partitions( *dfs)];
    [concat] only gets here with [len(dfs) != 1], where the call cannot
    bind its arguments. *)
Definition concat_indexed_dataframes (dfs : list Frame) : result Frame :=
  raise TypeError.

(** [dfs[i].divisions[-1] < dfs[i + 1].divisions[0]] *)
Definition ordered_at (dfs : list Frame) (i : nat) : result bool :=
  let* a := index dfs i in
  let* hi := index_last (divisions a) in
  let* b := index dfs (S i) in
  let* lo := index (divisions b) 0 in
  lt hi lo.

Definition concat (tok : string) (objs : list Frame)
    (interleave_partitions : bool) : result (option Frame) :=
  let dfs := objs in
  if decide (length dfs = 1%nat) then
    let* df := index dfs 0 in ret (Some df)
  else if forallb known_divisions dfs then
    let* ordered := all_of (ordered_at dfs <$> seq 0 (length dfs - 1)) in
    if ordered then
      let divs := mjoin ((λ df, removelast (divisions df)) <$> removelast dfs) in
      let* df_last := index_last dfs in
      ret (Some (stack_partitions tok dfs (divs ++ divisions df_last)))
    else ret None                      (* falls off the end of the function *)
  else if interleave_partitions then
    let* df := concat_indexed_dataframes dfs in ret (Some df)
  else
    let divs := replicate (Z.to_nat (sum (npartitions <$> dfs) + 1)) None in
    ret (Some (stack_partitions tok dfs divs)).

(** Every division of the frame is a value. *)
Definition fully_known (df : Frame) : Prop :=
  divisions df ≠ [] ∧ Forall is_Some (divisions df).

(** Each frame ends strictly below the start of the next one. *)
Definition strictly_ordered (dfs : list Frame) : Prop :=
  ∀ i a b x y,
    dfs !! i = Some a → dfs !! S i = Some b →
    last (divisions a) = Some (Some x) →
    head (divisions b) = Some (Some y) → x < y.

(** Two frames that touch at the index value 5. *)
Definition frame_0_5 : Frame :=
  {| dask := [(Key2 "a" 0, Source)]; _name := "a"; _meta := ["x"];
     divisions := [Some 0; Some 5] |}.
Definition frame_5_9 : Frame :=
  {| dask := [(Key2 "b" 0, Source)]; _name := "b"; _meta := ["x"];
     divisions := [Some 5; Some 9] |}.

(** A frame of two partitions that starts above the index value 5. *)
Definition frame_6_12 : Frame :=
  {| dask := [(Key2 "c" 0, Source); (Key2 "c" 1, Source)];
     _name := "c"; _meta := ["x"];
     divisions := [Some 6; Some 9; Some 12] |}.

End Concat.

(** ** [reduction]: the tree-reduction graph builder *)

Module Reduction.
Import Py Graph.

(** The values [split_every] is compared against in the source. *)
Inductive py_split_every : Type :=
| SE_None
| SE_Bool (b : bool)
| SE_Int (n : Z)
| SE_Float        (* a float: orderable against [2], not an [int] *)
| SE_Unorderable. (* [split_every < 2] raises TypeError (str, list, ...) *)

(** A positional argument of [reduction]. *)
Inductive arg : Type :=
| ArgFrame (df : Frame)
| ArgOther (v : value).

Record call : Type := {
  args : list arg;                 (* after [args = [args]] for a lone frame *)
  chunk : string;                  (* [funcname(chunk)] *)
  aggregate : string;              (* [funcname(aggregate)] *)
  combine : option string;         (* [funcname(combine)], [None] when absent *)
  meta : option (list string);
  token : option string;
  chunk_kwargs : option kwargs;
  aggregate_kwargs : option kwargs;
  combine_kwargs : option kwargs;
  split_every : py_split_every;
  extra_kwargs : kwargs;           (* [**kwargs] *)
  token_key : string;              (* the value of [tokenize(...)] *)
  emulated_meta : result (list string);  (* what the two [_emulate] calls give *)
}.

(** [toolz.partition_all(n, seq)]: consecutive tuples of length [n], the
    last one shorter; nothing for [n = 0]. *)
Fixpoint partition_all_go {A} (fuel n : nat) (l : list A) : list (list A) :=
  match fuel, l with
  | _, [] => []
  | O, _ => []
  | S fuel', _ => take n l :: partition_all_go fuel' n (drop n l)
  end.

Definition partition_all {A} (n : nat) (l : list A) : list (list A) :=
  match n with
  | O => []
  | S _ => partition_all_go (length l) n l
  end.

(** [kw or default], [d.update(kwargs)] and the truth value of a dict. *)
Definition dict_or_empty (kw : option kwargs) : kwargs := default ∅ kw.
Definition update (d kw : kwargs) : kwargs := kw ∪ d.
Definition nonempty (d : kwargs) : bool := bool_decide (d ≠ ∅).

(** [token or funcname(f)]: an empty token is falsy. *)
Definition token_or (token : option string) (f : string) : string :=
  match token with
  | Some t => if decide (t = "") then f else t
  | None => f
  end.

Definition chunk_name (c : call) : string :=
  token_or (token c) (chunk c) +:+ "-chunk-" +:+ token_key c.
Definition combine_name (c : call) (combine : string) : string :=
  token_or (token c) combine +:+ "-combine-" +:+ token_key c.
Definition agg_name (c : call) : string :=
  token_or (token c) (aggregate c) +:+ "-agg-" +:+ token_key c.

Definition frames (xs : list arg) : list Frame :=
  omap (λ x, match x with ArgFrame df => Some df | ArgOther _ => None end) xs.

(** [split_every] after the three-way test of lines 872-877. *)
Definition check_split_every (se : py_split_every) (npartitions : Z)
  : result Z :=
  match se with
  | SE_None => ret 8
  | SE_Bool false => ret npartitions
  | SE_Bool true => raise (ValueError "split_every must be an integer >= 2")
  | SE_Int n =>
      if decide (n < 2) then raise (ValueError "split_every must be an integer >= 2")
      else ret n
  | SE_Float => raise (ValueError "split_every must be an integer >= 2")
  | SE_Unorderable => raise TypeError
  end.

(** The [# Chunk] block: the plain form for a lone frame without
    keywords, the [apply] form otherwise. *)
Definition apply_chunk_graph (c : call) (ckw : kwargs) (a : string)
  : result graph :=
  match args c with
  | ArgFrame df :: _ =>
      ret ((λ i, (Key3 a 0 i,
                  ApplyChunk
                    ((λ x, match x with
                           | ArgFrame x => ArgKey (Key2 (_name x) i)
                           | ArgOther v => ArgValue v
                           end) <$> args c) ckw))
             <$> range (npartitions df))
  | ArgOther _ :: _ => raise AttributeError
  | [] => raise IndexError
  end.

Definition chunk_graph (c : call) (ckw : kwargs) (a : string) : result graph :=
  match args c with
  | [ArgFrame df] =>
      if nonempty ckw then apply_chunk_graph c ckw a
      else ret (imap (λ i k, (Key3 a 0 i, Chunk k)) (dask_keys df))
  | _ => apply_chunk_graph c ckw a
  end.

Definition combine_task (cbkw : kwargs) (conc : list key) : task :=
  if nonempty cbkw then ApplyCombine conc cbkw else Combine conc.

Definition aggregate_task (akw : kwargs) (conc : list key) : task :=
  if nonempty akw then ApplyAggregate conc akw else Aggregate conc.

(** The body of the [for part_i, inds in enumerate(partition_all(...))]
    loop, on one bucket. *)
Definition combine_bucket (b a : string) (depth : nat) (cbkw : kwargs)
    (dsk : graph) (entry : nat * list nat) : graph :=
  let '(part_i, inds) := entry in
  dict_set dsk (Key3 b (S depth) part_i)
    (combine_task cbkw (Key3 a depth <$> inds)).

(** The [while k > split_every] loop.  The state is [(dsk, a, k, depth)].
    The [for] loop runs at least once when [k > split_every], so after it
    [part_i + 1] is the number of buckets. *)
Fixpoint combine_loop (fuel : nat) (b : string) (split_every : nat)
    (cbkw : kwargs) (dsk : graph) (a : string) (k depth : nat)
  : option (graph * string * nat * nat) :=
  if decide (split_every < k)%nat then
    match fuel with
    | O => None
    | S fuel' =>
        let buckets := partition_all split_every (seq 0 k) in
        let dsk := foldl (combine_bucket b a depth cbkw) dsk
                     (imap (λ part_i inds, (part_i, inds)) buckets) in
        combine_loop fuel' b split_every cbkw dsk b (length buckets) (S depth)
    end
  else Some (dsk, a, k, depth).

(** The graph as it stands after the [# Aggregate] block, before the
    graphs of the arguments are merged in, with the name of its output. *)
Definition reduction_graph (fuel : nat) (c : call)
    (ckw akw cbkw : kwargs) (combine : string) (npartitions split_every : nat)
  : option (result (graph * string)) :=
  match chunk_graph c ckw (chunk_name c) with
  | inl e => Some (inl e)
  | inr dsk =>
      match combine_loop fuel (combine_name c combine) split_every cbkw
              dsk (chunk_name c) npartitions 0 with
      | None => None
      | Some (dsk, a, k, depth) =>
          let b := agg_name c in
          let conc := Key3 a depth <$> seq 0 k in
          Some (inr (dict_set dsk (Key2 b 0) (aggregate_task akw conc), b))
      end
  end.

(** Lines 854-862: the default of [combine] and its keywords. *)
Definition resolve_combine (c : call) (akw : kwargs)
  : result (string * kwargs) :=
  match combine c with
  | None =>
      if nonempty (dict_or_empty (combine_kwargs c))
      then raise (ValueError "`combine_kwargs` provided with no `combine`")
      else ret (aggregate c, akw)
  | Some f =>
      ret (f, update (dict_or_empty (combine_kwargs c)) (extra_kwargs c))
  end.

(** Lines 867-870: the one partition count shared by the frames. *)
Definition common_npartitions (c : call) : result Z :=
  match remove_dups (npartitions <$> frames (args c)) with
  | _ :: _ :: _ =>
      raise (ValueError "All arguments must have same number of partitions")
  | [] => raise KeyError
  | [n] => ret n
  end.

(** Everything that is checked before the first node is built. *)
Definition checks (c : call) (akw : kwargs)
  : result (string * kwargs * Z * Z) :=
  let* (combine, cbkw) := resolve_combine c akw in
  let* n := common_npartitions c in
  let* se := check_split_every (split_every c) n in
  ret (combine, cbkw, n, se).

Definition chunk_kwargs' (c : call) : kwargs :=
  update (dict_or_empty (chunk_kwargs c)) (extra_kwargs c).
Definition aggregate_kwargs' (c : call) : kwargs :=
  update (dict_or_empty (aggregate_kwargs c)) (extra_kwargs c).

(** [for arg in args: if isinstance(arg, _Frame): dsk.update(arg.dask)] *)
Definition merge_inputs (dsk : graph) (c : call) : graph :=
  foldl (λ d df, dict_update d (dask df)) dsk (frames (args c)).

(** Lines 927-930: [meta] as given, or as the two [_emulate] calls
    find it. *)
Definition resolved_meta (c : call) : result (list string) :=
  match meta c with
  | None => emulated_meta c
  | Some m => ret m
  end.

(** [reduction(args, chunk, aggregate, combine, ...)].  [None] is the
    fuel of the combine loop running out.

    [npartitions] is [-1] or [0] for a frame of no or one division, and
    [split_every] is then 8, an integer [>= 2] or [npartitions] itself:
    the first test [k > split_every] fails, as it does on the naturals
    [Z.to_nat k] and [Z.to_nat split_every] that the loop is given, and
    [range(k)] is empty.  From the second test on [k] is a number of
    buckets. *)
Definition reduction (fuel : nat) (c : call) : option (result Frame) :=
  let ckw := chunk_kwargs' c in
  let akw := aggregate_kwargs' c in
  match checks c akw with
  | inl e => Some (inl e)
  | inr (combine, cbkw, npartitions, split_every) =>
      match reduction_graph fuel c ckw akw cbkw combine
              (Z.to_nat npartitions) (Z.to_nat split_every) with
      | None => None
      | Some (inl e) => Some (inl e)
      | Some (inr (dsk, b)) =>
          Some (let* m := resolved_meta c in
                ret (new_dd_object (merge_inputs dsk c) b m [None; None]))
      end
  end.

(** The call [c] with another value of [split_every]. *)
Definition with_split_every (c : call) (se : py_split_every) : call :=
  {| args := args c; chunk := chunk c; aggregate := aggregate c;
     combine := combine c; meta := meta c; token := token c;
     chunk_kwargs := chunk_kwargs c; aggregate_kwargs := aggregate_kwargs c;
     combine_kwargs := combine_kwargs c; split_every := se;
     extra_kwargs := extra_kwargs c; token_key := token_key c;
     emulated_meta := emulated_meta c |}.

(** *** The shape of the tree, in the words of the specification

    [buckets] groups the [k] results of a level into consecutive buckets
    of at most [split_every] results each. *)
Definition consecutive_buckets (split_every k : nat)
    (buckets : list (list nat)) : Prop :=
  concat buckets = seq 0 k ∧
  Forall (λ bk, 1 ≤ length bk ≤ split_every)%nat buckets.

(** The nodes of one combine level: node [part_i] applies [combine] to
    the results of the previous level that fall into bucket [part_i]. *)
Definition level_nodes (b : string) (cbkw : kwargs) (a : string)
    (depth : nat) (buckets : list (list nat)) : graph :=
  imap (λ part_i inds,
          (Key3 b (S depth) part_i,
           combine_task cbkw (Key3 a depth <$> inds))) buckets.

(** [tree se b cbkw a k depth g a' k' depth']: starting from [k] results
    named [a] at [depth], the combine levels [g] are added while more than
    [se] results remain, and [k' ≤ se] results named [a'] remain at
    [depth']. *)
Inductive tree (se : nat) (b : string) (cbkw : kwargs)
  : string → nat → nat → graph → string → nat → nat → Prop :=
| tree_done a k depth :
    (k ≤ se)%nat → tree se b cbkw a k depth [] a k depth
| tree_level a k depth buckets g a' k' depth' :
    (se < k)%nat →
    consecutive_buckets se k buckets →
    tree se b cbkw b (length buckets) (S depth) g a' k' depth' →
    tree se b cbkw a k depth
      (level_nodes b cbkw a depth buckets ++ g) a' k' depth'.

(** Every key of the graph is a three-part key of depth at most [depth]. *)
Definition depth_bounded (depth : nat) (dsk : graph) : Prop :=
  ∀ key, key ∈ keys dsk → ∃ n d i, key = Key3 n d i ∧ (d ≤ depth)%nat.

Definition key3 (key : key) : Prop := ∃ n d i, key = Key3 n d i.

(** The values of [split_every] that the documentation allows. *)
Definition accepted_split_every (se : py_split_every) : Prop :=
  se = SE_None ∨ se = SE_Bool false ∨ ∃ n, se = SE_Int n ∧ 2 ≤ n.

(** *** The example of the specification: twenty partitions, fan-in 8 *)

Definition twenty_partitions : Frame :=
  {| dask := (λ i, (Key2 "df" i, Source)) <$> seq 0 20;
     _name := "df";
     _meta := ["x"];
     divisions := replicate 21 None |}.

Definition sum_by_eight : call :=
  {| args := [ArgFrame twenty_partitions];
     chunk := "sum"; aggregate := "sum"; combine := None;
     meta := Some ["x"]; token := None;
     chunk_kwargs := None; aggregate_kwargs := None; combine_kwargs := None;
     split_every := SE_Int 8;
     extra_kwargs := ∅;
     token_key := "0f3a";
     emulated_meta := ret ["x"] |}.

(** A frame whose [divisions] is the empty tuple and one with a single
    division: their partition counts are [-1] and [0]. *)
Definition no_division : Frame :=
  {| dask := []; _name := "e"; _meta := ["x"]; divisions := [] |}.
Definition one_division : Frame :=
  {| dask := []; _name := "z"; _meta := ["x"]; divisions := [None] |}.

(** The same call with [split_every = 1]. *)
Definition sum_by_one : call := with_split_every sum_by_eight (SE_Int 1).

Definition sum_by_eight_graph : graph :=
  ((λ i, (Key3 "sum-chunk-0f3a" 0 i, Chunk (Key2 "df" i))) <$> seq 0 20)
  ++ [(Key3 "sum-combine-0f3a" 1 0,
       Combine (Key3 "sum-chunk-0f3a" 0 <$> seq 0 8));
      (Key3 "sum-combine-0f3a" 1 1,
       Combine (Key3 "sum-chunk-0f3a" 0 <$> seq 8 8));
      (Key3 "sum-combine-0f3a" 1 2,
       Combine (Key3 "sum-chunk-0f3a" 0 <$> seq 16 4))]
  ++ [(Key2 "sum-agg-0f3a" 0,
       Aggregate (Key3 "sum-combine-0f3a" 1 <$> seq 0 3))].

End Reduction.

(** ** [DataFrame.join]: pairing of aligned partitions

    [leftparts] and [rightparts] are lists of delayed partitions; a
    partition is identified by its position.  [leftuniques] and
    [rightuniques] are the key-sets that the two alignment calls return. *)

Module Join.
Import Py.

(** The [for j in range(pivot, len(rightparts))] loop for one [i]: the
    first [j] whose key-set meets [leftuniques[i]], or [None] when the
    loop runs to its end. *)
Fixpoint first_match (leftuniques rightuniques : list (gset Z)) (i : nat)
    (js : list nat) : result (option nat) :=
  match js with
  | [] => ret None
  | j :: js' =>
      let* l := index leftuniques i in
      let* r := index rightuniques j in
      if decide (l ∩ r ≠ ∅) then ret (Some j)
      else first_match leftuniques rightuniques i js'
  end.

(** The items a selector yields: [(leftparts[i], rightparts[j])] or
    [(leftparts[i], None)]. *)
Abbreviation pairs := (list (nat * option nat)).

Fixpoint left_selector_from (leftuniques rightuniques : list (gset Z))
    (nright : nat) (lefts : list nat) (pivot : nat) : result pairs :=
  match lefts with
  | [] => ret []
  | i :: lefts' =>
      let* m := first_match leftuniques rightuniques i
                  (seq pivot (nright - pivot)) in
      match m with
      | Some j =>
          let* rest := left_selector_from leftuniques rightuniques nright
                         lefts' (S j) in
          ret ((i, Some j) :: rest)
      | None =>                                     (* the [else] of [for] *)
          let* rest := left_selector_from leftuniques rightuniques nright
                         lefts' pivot in
          ret ((i, None) :: rest)
      end
  end.

Fixpoint inner_selector_from (leftuniques rightuniques : list (gset Z))
    (nright : nat) (lefts : list nat) (pivot : nat) : result pairs :=
  match lefts with
  | [] => ret []
  | i :: lefts' =>
      let* m := first_match leftuniques rightuniques i
                  (seq pivot (nright - pivot)) in
      match m with
      | Some j =>
          let* rest := inner_selector_from leftuniques rightuniques nright
                         lefts' (S j) in
          ret ((i, Some j) :: rest)
      | None =>
          inner_selector_from leftuniques rightuniques nright lefts' pivot
      end
  end.

Definition left_selector (leftuniques rightuniques : list (gset Z))
    (nleft nright : nat) : result pairs :=
  left_selector_from leftuniques rightuniques nright (seq 0 nleft) 0.

Definition inner_selector (leftuniques rightuniques : list (gset Z))
    (nleft nright : nat) : result pairs :=
  inner_selector_from leftuniques rightuniques nright (seq 0 nleft) 0.

(** A column holds a value or a null per row. *)
Definition column : Type := list (option Z).

Record DataFrame : Type := {
  index : list Z;
  columns : dict string column;
}.

Definition len (df : DataFrame) : nat := length (index df).

(** [df[name] = series]: a frame whose index is empty takes the index of
    the series. *)
Definition setitem (df : DataFrame) (name : string) (series_index : list Z)
    (values : column) : DataFrame :=
  {| index := if decide (index df = []) then series_index else index df;
     columns := dict_set (columns df) name values |}.

(** [Series.from_masked_array(data, mask, null_count=data.size)] with a
    mask of zeros: every row is null. *)
Definition null_series (n : nat) : column := replicate n None.

(** [fix_column(lhs)]; [rhs_dtypes] lists the columns of [other._meta]
    with their types. *)
Definition fix_column (lsuffix rsuffix : string)
    (rhs_dtypes : list (string * string)) (lhs : DataFrame) : DataFrame :=
  let df := {| index := []; columns := [] |} in
  let df := foldl (λ df kc, setitem df (kc.1 +:+ lsuffix) (index lhs) kc.2)
              df (columns lhs) in
  foldl (λ df kd,
           setitem df (kd.1 +:+ rsuffix) (index df) (null_series (len lhs)))
    df rhs_dtypes.

(** The delayed calls collected in [joinedparts]. *)
Inductive joined_part : Type :=
| PartJoin (lhs rhs : nat) (how : string)  (* [part_join(lhs, rhs, how=how)] *)
| FixColumn (lhs : nat).                   (* [fix_column(lhs)] *)

(** [part_join(lhs, rhs, how=how) if rhs is not None else fix_column(lhs)] *)
Definition joined (how : string) (p : nat * option nat) : joined_part :=
  match p.2 with
  | Some rhs => PartJoin p.1 rhs how
  | None => FixColumn p.1
  end.

(** The choice of the selector and the list [joinedparts]; [nleft] and
    [nright] are [len(leftparts)] and [len(rightparts)]. *)
Definition joinedparts (how : string)
    (leftuniques rightuniques : list (gset Z)) (nleft nright : nat)
  : result (list joined_part) :=
  let* selector :=
    if decide (how = "left") then ret left_selector
    else if decide (how = "inner") then ret inner_selector
    else raise KeyError in
  let* selected := selector leftuniques rightuniques nleft nright in
  ret (joined how <$> selected).

(** *** The pairing rule, in the words of the specification *)

Definition intersect_at (leftuniques rightuniques : list (gset Z))
    (i j : nat) : Prop :=
  ∃ l r, leftuniques !! i = Some l ∧ rightuniques !! j = Some r ∧ l ∩ r ≠ ∅.

(** Left partition [i] is paired with the first right partition at or
    after [pivot] whose key-set meets its own, or with none. *)
Definition paired (leftuniques rightuniques : list (gset Z)) (nright : nat)
    (pivot i : nat) (m : option nat) : Prop :=
  match m with
  | Some j =>
      (pivot ≤ j < nright)%nat ∧
      intersect_at leftuniques rightuniques i j ∧
      ∀ j', (pivot ≤ j' < j)%nat → ¬ intersect_at leftuniques rightuniques i j'
  | None =>
      ∀ j', (pivot ≤ j' < nright)%nat →
        ¬ intersect_at leftuniques rightuniques i j'
  end.

(** [pairing pivot i plan]: [plan] pairs the left partitions [i], [i+1],
    ... in order, the pivot moving past every right partition used. *)
Fixpoint pairing (leftuniques rightuniques : list (gset Z)) (nright : nat)
    (pivot i : nat) (plan : pairs) : Prop :=
  match plan with
  | [] => True
  | (i', m) :: plan' =>
      i' = i ∧ paired leftuniques rightuniques nright pivot i m ∧
      pairing leftuniques rightuniques nright
        (match m with Some j => S j | None => pivot end) (S i) plan'
  end.

Definition matched (p : nat * option nat) : Prop := is_Some p.2.

#[global] Instance matched_dec p : Decision (matched p).
Proof. unfold matched. apply _. Defined.

(** The column names of the frame [fix_column] builds. *)
Definition suffixed_names (lsuffix rsuffix : string)
    (rhs_dtypes : list (string * string)) (lhs : DataFrame) : list string :=
  ((λ kc, kc.1 +:+ lsuffix) <$> columns lhs)
  ++ ((λ kd, kd.1 +:+ rsuffix) <$> rhs_dtypes).

(** A left partition with one column [a] and two rows. *)
Definition lhs_a : DataFrame :=
  {| index := [1; 2]; columns := [("a", [Some 10; Some 20])] |}.

End Join.

(** ** [DataFrame._align_divisions]: the adjacent-intersection repair loop

<<
        changed = True
        while changed:
            changed = False
            for i in range(len(uniques))[:-1]:
                intersect = uniques[i] & uniques[i + 1]
                if intersect:
                    smaller = min(uniques[i], uniques[i + 1], key=len)
                    bigger = max(uniques[i], uniques[i + 1], key=len)
                    smaller |= intersect
                    bigger -= intersect
                    changed = True
>>
    [uniques] is a tuple of mutable sets; [smaller] and [bigger] are
    references to two of its cells, so they are modelled as positions in
    the list.  With [key=len], [min] returns its first argument unless the
    second is strictly shorter and [max] returns its first argument unless
    the second is strictly longer: on a tie both name [uniques[i]]. *)

Module Align.
Import Py Graph.

Definition repair_step (st : list (gset Z) * bool) (i : nat)
  : list (gset Z) * bool :=
  let '(uniques, changed) := st in
  match uniques !! i, uniques !! S i with
  | Some a, Some b =>
      let intersect := a ∩ b in
      if decide (intersect = ∅) then (uniques, changed)
      else
        let smaller := if decide (size a ≤ size b)%nat then i else S i in
        let bigger := if decide (size b ≤ size a)%nat then i else S i in
        let uniques := alter (λ s, s ∪ intersect) smaller uniques in
        let uniques := alter (λ s, s ∖ intersect) bigger uniques in
        (uniques, true)
  | _, _ => (uniques, changed)
  end.

(** One execution of the [for] loop, started with [changed = False]. *)
Definition scan (uniques : list (gset Z)) : list (gset Z) * bool :=
  foldl repair_step (uniques, false) (seq 0 (length uniques - 1)).

(** The [while changed] loop. *)
Fixpoint repair_loop (fuel : nat) (uniques : list (gset Z))
  : option (list (gset Z)) :=
  match fuel with
  | O => None
  | S fuel' =>
      let '(uniques', changed) := scan uniques in
      if changed then repair_loop fuel' uniques' else Some uniques'
  end.

(** [_get_unique_indices]: the set of index values of every partition. *)
Definition _get_unique_indices (parts : list (list Z)) : list (gset Z) :=
  list_to_set <$> parts.

(** [min(s)] and [max(s)] of a set; an empty set raises. *)
Definition set_min (s : gset Z) : result Z :=
  match elements s with
  | [] => raise (ValueError "min() arg is an empty sequence")
  | x :: xs => ret (foldl Z.min x xs)
  end.

Definition set_max (s : gset Z) : result Z :=
  match elements s with
  | [] => raise (ValueError "max() arg is an empty sequence")
  | x :: xs => ret (foldl Z.max x xs)
  end.

(** [tuple(sorted(idxset))] *)
Definition sorted (s : gset Z) : list Z := merge_sort Z.le (elements s).

(** Lines 425-426, the local variable [divisions]:
<<
        divisions = list(map(min, uniques))
        divisions.append(max(uniques[-1]))
>> *)
Definition local_divisions (uniques : list (gset Z)) : result (list Z) :=
  let* mins := traverse set_min uniques in
  let* last := index_last uniques in
  let* hi := set_max last in
  ret (mins ++ [hi]).

(** The [bins] of one bucket: the partitions whose original key-set
    meets the bucket. *)
Definition bins (parts : list key) (originals : list (gset Z))
    (idxset : gset Z) : result (list key) :=
  let* found := traverse (λ io : nat * gset Z,
                   if decide (idxset ∩ io.2 ≠ ∅)
                   then (let* p := index parts io.1 in ret (Some p))
                   else ret None)
                  (imap (λ i orig, (i, orig)) originals) in
  ret (omap id found).

(** [_align_to_indices(uniques, originals, parts)]; [parts] is always
    [self.to_delayed()], the keys of the partitions of [self]. *)
Definition _align_to_indices (tok : string) (self : Table)
    (uniques : list (gset Z)) (originals : option (list (gset Z)))
  : result (Frame * list (gset Z)) :=
  let parts := dask_keys (frame self) in
  let '(uniques, originals) :=
    match originals with
    | Some originals => (uniques, originals)
    | None =>
        let originals := _get_unique_indices (partitions self) in
        let allindices := ⋃ originals in
        let uniques := (λ us, us ∩ allindices) <$> uniques in
        (filter (λ us, us ≠ ∅) uniques, originals)
    end in
  let* originals_last := index_last originals in
  let* uniques_last := index_last uniques in
  let extras := originals_last ∖ uniques_last in
  let* extras :=
    if decide (extras = ∅) then ret ∅
    else (let* hi := set_max uniques_last in
          ret (filter (λ x, hi < x) extras)) in
  let uniques := if decide (extras ≠ ∅) then uniques ++ [extras] else uniques in
  let* remap :=
    foldl (λ remap idxset,
             let* remap := remap in
             let* bs := bins parts originals idxset in
             ret (dict_set remap (sorted idxset) bs))
      (ret []) uniques in
  let newparts := (λ kv : list Z * list key, Take kv.1 kv.2) <$> remap in
  let* divisions := local_divisions uniques in
  let newdd := from_delayed tok newparts (_meta (frame self)) in
  ret (newdd, uniques).

(** [_align_divisions]; [None] is the fuel of the repair loop running
    out. *)
Definition _align_divisions (fuel : nat) (tok : string) (self : Table)
  : option (result (Frame * list (gset Z))) :=
  let uniques := _get_unique_indices (partitions self) in
  let originals := uniques in
  match repair_loop fuel uniques with
  | None => None
  | Some uniques =>
      let uniques := filter (λ us, us ≠ ∅) uniques in
      Some (_align_to_indices tok self uniques (Some originals))
  end.

(** Two partitions that share the index value 2. *)
Definition overlapping : Table :=
  {| frame := {| dask := (λ i, (Key2 "df" i, Source)) <$> seq 0 2;
                 _name := "df"; _meta := ["x"];
                 divisions := [None; None; None] |};
     partitions := [[1; 2]; [2; 3]] |}.

(** Key-sets only shrink and no key leaves the union. *)
Definition keeps_keys (us us' : list (gset Z)) : Prop :=
  length us' = length us ∧
  (∀ k s s', us !! k = Some s → us' !! k = Some s' → s' ⊆ s) ∧
  ⋃ us' = ⋃ us.

(** Sum of the cardinalities of the key-sets. *)
Definition total (uniques : list (gset Z)) : nat :=
  sum_list (size <$> uniques).

(** No two neighbouring key-sets share a value. *)
Definition adjacent_disjoint (uniques : list (gset Z)) : Prop :=
  ∀ i a b, uniques !! i = Some a → uniques !! S i = Some b → a ∩ b = ∅.

End Align.

(** ** [DataFrame.join] on two frames

    [self._align_divisions()] and [other._align_to_indices(leftuniques)]
    give the partitions and the key-sets that the selectors walk.  The
    result is the list of the delayed calls that [from_delayed] receives,
    one per output partition. *)

Module DataFrameJoin.
Import Py Graph Join Align.

(** [join] for [how != "right"]. *)
Definition join_left (fuel : nat) (tok : string) (self other : Table)
    (how lsuffix rsuffix : string) : option (result (list joined_part)) :=
  let same_names :=
    filter (λ k, k ∈ _meta (frame other)) (_meta (frame self)) in
  if decide (same_names ≠ [] ∧ lsuffix = "" ∧ rsuffix = "") then
    Some (raise (ValueError
      "there are overlapping columns but lsuffix and rsuffix are not defined"))
  else
    match _align_divisions fuel tok self with
    | None => None
    | Some aligned =>
        Some (let* (left_dd, leftuniques) := aligned in
              let* (right_dd, rightuniques) :=
                _align_to_indices tok other leftuniques None in
              let leftparts := dask_keys left_dd in
              let rightparts := dask_keys right_dd in
              joinedparts how leftuniques rightuniques
                (length leftparts) (length rightparts))
    end.

Definition join (fuel : nat) (tok : string) (self other : Table)
    (how lsuffix rsuffix : string) : option (result (list joined_part)) :=
  if decide (how = "right")
  then join_left fuel tok other self "left" rsuffix lsuffix
  else join_left fuel tok self other how lsuffix rsuffix.

(** A left frame with the column [a] and the index values 1, 2 and
    3, 4 in two partitions, and a right frame with the column [b] and the
    index values 3, 4 in one partition: the first left partition has no
    match. *)
Definition left_12_34 : Table :=
  {| frame := {| dask := (λ i, (Key2 "l" i, Source)) <$> seq 0 2;
                 _name := "l"; _meta := ["a"];
                 divisions := [None; None; None] |};
     partitions := [[1; 2]; [3; 4]] |}.

Definition right_34 : Table :=
  {| frame := {| dask := [(Key2 "r" 0, Source)];
                 _name := "r"; _meta := ["b"];
                 divisions := [None; None] |};
     partitions := [[3; 4]] |}.

End DataFrameJoin.

(** ** [DataFrame.sort_values_binned]

    The partitions that [self.sort_values(by=by)] returns are the input:
    the sorting network lives in another module of the library.  A row is
    the value of its [by] column paired with the rest of the row, and a
    partition is the list of its rows.  [joiner[i]] is kept at position
    [i] of a list. *)

Module BinnedSort.
Import Py.

Definition row : Type := (Z * Z)%type.
Abbreviation partition := (list row).

(** [get_unique(p)]: [set(p[by].unique())] *)
Definition get_unique (p : partition) : gset Z := list_to_set (fst <$> p).

(** The [for j in range(i + 1, len(uniques))] loop, with its [break]. *)
Fixpoint scan_following (i : nat) (js : list nat) (uniques : list (gset Z))
    (to_join : dict nat (gset Z)) : list (gset Z) * dict nat (gset Z) :=
  match js with
  | [] => (uniques, to_join)
  | j :: js' =>
      match uniques !! i, uniques !! j with
      | Some a, Some b =>
          let intersect := a ∩ b in
          if decide (intersect ≠ ∅) then
            scan_following i js' (<[j := b ∖ intersect]> uniques)
              (dict_set to_join j intersect)
          else (uniques, to_join)
      | _, _ => (uniques, to_join)
      end
  end.

(** The [for i in range(len(uniques))] loop that fills [joiner]. *)
Definition joiner_step (n : nat)
    (st : list (gset Z) * list (dict nat (gset Z))) (i : nat)
  : list (gset Z) * list (dict nat (gset Z)) :=
  let '(uniques, to_join) :=
    scan_following i (seq (S i) (n - S i)) st.1 [] in
  (uniques, st.2 ++ [to_join]).

Definition build_joiner (uniques : list (gset Z))
  : list (gset Z) * list (dict nat (gset Z)) :=
  foldl (joiner_step (length uniques)) (uniques, [])
    (seq 0 (length uniques)).

(** [drop(df, keep_keys)]: the rows whose key is one of [keep_keys]. *)
Definition drop (df : partition) (keep_keys : gset Z) : partition :=
  filter (λ r, r.1 ∈ keep_keys) df.

(** [join(df, other, keys)]: [df] followed by the rows of [other] with
    key [k], for every [k] of [sorted(keys)]. *)
Definition join (df other : partition) (keys : gset Z) : partition :=
  df ++ mjoin ((λ k, filter (λ r, r.1 = k) other)
                 <$> merge_sort Z.le (elements keys)).

(** The body of the [for i in range(len(parts))] loop. *)
Definition consolidate (uniques : list (gset Z))
    (joiner : list (dict nat (gset Z))) (parts : list partition) (i : nat)
  : list partition :=
  match uniques !! i with
  | Some u =>
      if decide (u ≠ ∅) then
        let parts := alter (λ p, drop p u) i parts in
        foldl (λ parts je,
                 match parts !! je.1 with
                 | Some other => alter (λ p, join p other je.2) i parts
                 | None => parts
                 end)
          parts (default [] (joiner !! i))
      else parts
  | None => parts
  end.

(** [[p for i, p in enumerate(parts) if uniques[i]]] *)
Definition results (uniques : list (gset Z)) (parts : list partition)
  : list partition :=
  omap (λ ip : nat * partition,
          match uniques !! ip.1 with
          | Some u => if decide (u ≠ ∅) then Some ip.2 else None
          | None => None
          end)
    (imap (λ i p, (i, p)) parts).

Definition sort_values_binned (sorted_parts : list partition)
  : list partition :=
  let uniques := get_unique <$> sorted_parts in
  let '(uniques, joiner) := build_joiner uniques in
  let parts := foldl (consolidate uniques joiner) sorted_parts
                 (seq 0 (length sorted_parts)) in
  results uniques parts.

(** Sort totality of the specification: no key of a partition is above
    a key of a later partition, and the partitions hold rows, except
    possibly for empty ones at the end. *)
Definition sort_total (parts : list partition) : Prop :=
  (∀ i j p q r s,
     (i < j)%nat → parts !! i = Some p → parts !! j = Some q →
     r ∈ p → s ∈ q → r.1 ≤ s.1) ∧
  (∀ i j q,
     (i < j)%nat → parts !! i = Some [] → parts !! j = Some q → q = []).

(** The partitions that hold a key are next to each other. *)
Definition contiguous (uniques : list (gset Z)) : Prop :=
  ∀ i k j ci ck cj v,
    (i < k < j)%nat →
    uniques !! i = Some ci → uniques !! k = Some ck →
    uniques !! j = Some cj →
    v ∈ ci → v ∈ cj → v ∈ ck.

(** What holds of [uniques] and [joiner] when the first loop has handled
    the partitions below [i]; [originals] are the key-sets it started
    from.  Key-sets only shrink; if the partitions that hold a key are
    next to each other, a handled key-set shares nothing with a later
    one; a key that left partition [k] is owned by a handled
    partition [a] before [k], and [joiner[a]] tells it to pull the key
    from [k]; [joiner[a]] only pulls keys that [a] owns, from later
    partitions. *)
Definition joiner_inv (originals : list (gset Z)) (i : nat)
    (uniques : list (gset Z)) (joiner : list (dict nat (gset Z))) : Prop :=
  length uniques = length originals ∧
  length joiner = i ∧
  (∀ k c c0, uniques !! k = Some c → originals !! k = Some c0 → c ⊆ c0) ∧
  (contiguous originals →
   ∀ a b ca cb,
     (a < i)%nat → (a < b)%nat →
     uniques !! a = Some ca → uniques !! b = Some cb → ca ∩ cb = ∅) ∧
  (∀ k c c0 v,
     originals !! k = Some c0 → uniques !! k = Some c → v ∈ c0 → v ∉ c →
     ∃ a ca to_join I,
       (a < i)%nat ∧ (a < k)%nat ∧ uniques !! a = Some ca ∧ v ∈ ca ∧
       joiner !! a = Some to_join ∧ (k, I) ∈ to_join ∧ v ∈ I) ∧
  (∀ a to_join j I ca,
     joiner !! a = Some to_join → (j, I) ∈ to_join →
     uniques !! a = Some ca →
     (a < j < length originals)%nat ∧ I ⊆ ca).

(** [join] applied for every entry of [joiner[i]], reading the other
    partitions from [parts]. *)
Definition join_all (parts : list partition) (p : partition)
    (to_join : dict nat (gset Z)) : partition :=
  foldl (λ p je,
           match parts !! je.1 with
           | Some other => join p other je.2
           | None => p
           end) p to_join.

(** Partition [i] after the second loop, from the sorted partitions. *)
Definition consolidated (parts : list partition) (uniques : list (gset Z))
    (joiner : list (dict nat (gset Z))) (i : nat) (p : partition)
  : partition :=
  match uniques !! i with
  | Some u =>
      if decide (u ≠ ∅)
      then join_all parts (drop p u) (default [] (joiner !! i))
      else p
  | None => p
  end.

(** The test of the last comprehension. *)
Definition kept (u : gset Z) (p : partition) : option partition :=
  if decide (u ≠ ∅) then Some p else None.

(** No key occurs in two different partitions. *)
Definition exclusive (parts : list partition) : Prop :=
  ∀ a b p q r s,
    parts !! a = Some p → parts !! b = Some q → a ≠ b →
    r ∈ p → s ∈ q → r.1 ≠ s.1.


(** Three sorted partitions in which the key 2 crosses both borders. *)
Definition straddling : list partition :=
  [[(1, 10); (2, 11)]; [(2, 12); (2, 13)]; [(2, 14); (3, 15)]].

End BinnedSort.

(** ** [read_csv] ([dask_cudf/io/csv.py])

    [cudf.read_csv] belongs to the backend: [read_csv_columns fn kwargs]
    stands for the columns of the frame it returns for the file [fn].
    [filenames] is the sorted result of [glob]; [chunksize] is in bytes
    (after [parse_bytes]); [tok] is the value of [tokenize(...)]. *)

Module Csv.
Import Py Graph.

Record file : Type := {
  path : string;
  size : nat;                 (* [os.path.getsize(fn)] *)
}.

Section ReadCsv.
Variable read_csv_columns : file → kwargs → list string.

(** [range(0, size, chunksize)] for [chunksize > 0]. *)
Definition chunk_starts (size chunksize : nat) : list nat :=
  range_from ((size + chunksize - 1) / chunksize) 0 chunksize.

(** [kwargs2] for the chunk that starts at [start]. *)
Definition chunk_kwargs (meta : list string) (chunksize : nat)
    (kw : kwargs) (start : nat) : kwargs :=
  let kwargs2 := kw in                                       (* [kwargs.copy()] *)
  let kwargs2 := <["byte_range" := VRange start chunksize]> kwargs2 in
  if decide (start ≠ 0%nat) then
    let kwargs2 := <["names" := VNames meta]> kwargs2 in
    <["header" := VNone]> kwargs2
  else kwargs2.

(** The inner [for start in range(0, size, chunksize)] loop. *)
Definition file_chunks (name : string) (meta : list string)
    (chunksize : nat) (kw : kwargs) (st : graph * nat) (fn : file)
  : graph * nat :=
  foldl (λ st start,
           (dict_set st.1 (Key2 name st.2)
              (ReadCsv (path fn) (chunk_kwargs meta chunksize kw start)),
            S st.2))
    st (chunk_starts (size fn) chunksize).

Definition read_csv (tok : string) (filenames : list file) (chunksize : nat)
    (kw : kwargs) : result Frame :=
  let name := "read-csv-" +:+ tok in
  let* first := index filenames 0 in
  let meta := read_csv_columns first kw in
  if decide (chunksize = 0%nat)
  then raise (ValueError "range() arg 3 must not be zero")
  else
    let st := foldl (file_chunks name meta chunksize kw) ([], 0%nat)
                filenames in
    let dsk := st.1 in
    let divs := replicate (length dsk + 1) None in
    ret (new_dd_object dsk name meta divs).

(** One step of the two nested loops, on the chunk [c = (fn, start)]. *)
Definition chunk_step (name : string) (meta : list string) (chunksize : nat)
    (kw : kwargs) (st : graph * nat) (c : file * nat) : graph * nat :=
  (dict_set st.1 (Key2 name st.2)
     (ReadCsv (path c.1) (chunk_kwargs meta chunksize kw c.2)),
   S st.2).

(** Every chunk of every file, in the order of the two loops. *)
Definition all_chunks (filenames : list file) (chunksize : nat)
  : list (file * nat) :=
  mjoin ((λ fn, (λ start, (fn, start)) <$> chunk_starts (size fn) chunksize)
           <$> filenames).

End ReadCsv.

(** Two files of ten bytes with different header lines, and a reader
    that takes the column names from [names] when it is given and from
    the header line of the file otherwise. *)
Definition file_ab : file := {| path := "0.csv"; size := 10 |}.
Definition file_cd : file := {| path := "1.csv"; size := 10 |}.

Definition header_line (fn : file) : list string :=
  if decide (path fn = "0.csv") then ["a"; "b"] else ["c"; "d"].

Definition columns_of (fn : file) (kw : kwargs) : list string :=
  match kw !! "names" with
  | Some (VNames cols) => cols
  | _ => header_line fn
  end.

End Csv.

(** ** [from_cudf] and [splits_divisions_sorted_cudf] *)

Module FromCudf.
Import Py.

(** [len(x)] *)
Definition len {A} (l : list A) : Z := Z.of_nat (length l).

(** [index.find_segments()]: the positions at which a run of equal
    index values begins, in ascending order. *)
Definition find_segments (idx : list Z) : list Z :=
  Z.of_nat <$>
    filter (λ i, i = 0%nat ∨ idx !! pred i ≠ idx !! i) (seq 0 (length idx)).

(** [index.take(positions)] at one position: a negative position counts
    from the end, a position outside the index raises. *)
Definition index_take (idx : list Z) (i : Z) : result Z :=
  if decide (0 ≤ i) then index idx (Z.to_nat i)
  else if decide (- len idx ≤ i) then index idx (Z.to_nat (len idx + i))
  else raise IndexError.

(** The body of [for s in segments], on the state
    [(splits, last, current_size)]. *)
Definition split_step (chunksize : Z) (st : list Z * Z * Z) (s : Z)
  : list Z * Z * Z :=
  let '(splits, last, current_size) := st in
  let size := s - last in
  let last := s in
  let current_size := current_size + size in
  if decide (current_size >= chunksize)
  then (splits ++ [s], last, 0)
  else (splits, last, current_size).

Definition splits_divisions_sorted_cudf (idx : list Z) (chunksize : Z)
  : result (list Z * list Z) :=
  let segments := find_segments idx ++ [len idx - 1] in
  let splits := (foldl (split_step chunksize) ([0], 0, 0) segments).1.1 in
  let* split_end := index_last splits in
  let* segment_end := index_last segments in
  let splits := if decide (split_end ≠ segment_end)
                then splits ++ [segment_end] else splits in
  let* divisions := traverse (index_take idx) splits in
  let* split_end := index_last splits in
  let splits := removelast splits ++ [split_end + 1] in
  ret (splits, divisions).

(** A slice bound of a sequence of [n] items, as Python normalises it. *)
Definition bound (n i : Z) : nat :=
  Z.to_nat (if decide (0 ≤ i) then Z.min i n else Z.max (n + i) 0).

(** [data[start:stop]] *)
Definition slice {A} (data : list A) (start stop : Z) : list A :=
  let a := bound (len data) start in
  let b := bound (len data) stop in
  take (b - a) (drop a data).

(** [list(range(0, stop, step))] for [stop >= 0]: a negative step
    gives no value. *)
Definition range0 (stop step : Z) : result (list Z) :=
  if decide (step = 0)
  then raise (ValueError "range() arg 3 must not be zero")
  else if decide (0 < step)
  then ret ((λ k, Z.of_nat k * step)
              <$> seq 0 (Z.to_nat ((stop + step - 1) `div` step)))
  else ret [].

(** [from_cudf] once [chunksize] is settled (it is given, or it is
    [ceil(nrows / npartitions)]).  A row is identified with its index
    value; the result is the list of the partitions
    [data[start:stop]] in key order, and the divisions. *)
Definition from_cudf (data : list Z) (chunksize : Z) (sort : bool)
  : result (list (list Z) * list (option Z)) :=
  let nrows := len data in
  let* (data, splits, divisions) :=
    if sort then
      let data := merge_sort Z.le data in
      let* (splits, divisions) :=
        splits_divisions_sorted_cudf data chunksize in
      ret (data, splits, Some <$> divisions)
    else
      let* starts := range0 nrows chunksize in
      let splits := starts ++ [len data] in
      ret (data, splits, replicate (length splits) None) in
  let dsk := zip_with (slice data) (removelast splits) (tail splits) in
  ret (dsk, divisions).

End FromCudf.

(** ** [reset_index] *)

Module ResetIndex.
Import Py FromCudf.

(** A value of an [int64] array: numpy arithmetic wraps around. *)
Definition int64 (z : Z) : Z := (z + 2 ^ 63) `mod` 2 ^ 64 - 2 ^ 63.

(** [np.cumsum] of an [int64] array, with the running sum [acc]. *)
Fixpoint cumsum_from (acc : Z) (a : list Z) : list Z :=
  match a with
  | [] => []
  | x :: a' => let acc := int64 (acc + x) in acc :: cumsum_from acc a'
  end.

Definition cumsum (a : list Z) : list Z := cumsum_from 0 a.

(** [prefixes = np.zeros_like(sizes); prefixes[1:] = np.cumsum(sizes[:-1])] *)
Definition prefixes (sizes : list Z) : list Z :=
  match sizes with
  | [] => []
  | _ :: _ => 0 :: cumsum (removelast sizes)
  end.

(** [fix_index]: the index [RangeIndex(start=startpos, stop=stoppos)]
    that the partition [df] is given. *)
Definition fix_index (df : list Z) (startpos : Z) : list Z :=
  let stoppos := int64 (startpos + len df) in
  seqZ startpos (stoppos - startpos).

(** [reset_index] on the partitions, each given by its index values:
    the index values of the partitions of the result.  Without [force]
    every partition is reset on its own and gets [RangeIndex(len(df))]. *)
Definition reset_index (dfs : list (list Z)) (force : bool)
  : list (list Z) :=
  if force then
    let sizes := int64 <$> (len <$> dfs) in
    let prefixes := prefixes sizes in
    zip_with fix_index dfs prefixes
  else (λ df, seqZ 0 (len df)) <$> dfs.

End ResetIndex.

(** * Part II: properties *)

(** ** Python containers *)

Section Containers.
Import Py.

Lemma dict_set_fresh {K V} `{EqDecision K} (d : dict K V) k v :
  k ∉ keys d → dict_set d k v = d ++ [(k, v)].
Proof.
  unfold keys. induction d as [|[k' v'] d IH]; simpl; [done|].
  intros Hk. apply not_elem_of_cons in Hk as [Hne Hk].
  case_decide; [congruence|]. by rewrite IH.
Qed.

Lemma keys_dict_set {K V} `{EqDecision K} (d : dict K V) k v key :
  key ∈ keys (dict_set d k v) → key ∈ keys d ∨ key = k.
Proof.
  unfold keys. induction d as [|[k' v'] d IH]; simpl.
  - intros ->%list_elem_of_singleton. by right.
  - case_decide; simpl; rewrite !elem_of_cons; naive_solver.
Qed.

Lemma dict_get_set_eq {K V} `{EqDecision K} (d : dict K V) k v :
  dict_get (dict_set d k v) k = Some v.
Proof.
  induction d as [|[k' v'] d IH]; simpl.
  - by case_decide.
  - case_decide; simpl; case_decide; done.
Qed.

(** Positions in [omap f l] follow the order of their sources in [l]. *)
Lemma omap_lookup_source {A B} (f : A → option B) (l : list A) b z :
  omap f l !! b = Some z → ∃ j x, l !! j = Some x ∧ f x = Some z.
Proof.
  intros Hb%list_elem_of_lookup_2.
  apply list_elem_of_omap in Hb as (x & Hx & Hf).
  apply list_elem_of_lookup_1 in Hx as [j Hj]. eauto.
Qed.

Lemma omap_lookup_lt {A B} (f : A → option B) (l : list A) a b y z :
  (a < b)%nat → omap f l !! a = Some y → omap f l !! b = Some z →
  ∃ i j x x',
    (i < j)%nat ∧ l !! i = Some x ∧ l !! j = Some x' ∧
    f x = Some y ∧ f x' = Some z.
Proof.
  revert a b. induction l as [|x0 l IH]; intros a b Hab; simpl; [done|].
  destruct (f x0) as [y0|] eqn:Hf0.
  - destruct b as [|b]; [lia|]. destruct a as [|a]; simpl.
    + intros [= <-] Hb.
      apply omap_lookup_source in Hb as (j & x' & Hj & Hf).
      exists 0%nat, (S j), x0, x'. split; [lia|]. done.
    + intros Ha Hb.
      destruct (IH a b ltac:(lia) Ha Hb) as (i & j & x & x' & ? & ? & ? & ? & ?).
      exists (S i), (S j), x, x'. split; [lia|]. done.
  - intros Ha Hb.
    destruct (IH a b Hab Ha Hb) as (i & j & x & x' & ? & ? & ? & ? & ?).
    exists (S i), (S j), x, x'. split; [lia|]. done.
Qed.

End Containers.

(** ** The repair loop of [_align_divisions] *)

Section AlignRepair.
Import Align.

Lemma total_alter (f : gset Z → gset Z) uniques i x :
  uniques !! i = Some x →
  (total (alter f i uniques) + size x = total uniques + size (f x))%nat.
Proof.
  unfold total. revert i.
  induction uniques as [|y uniques IH]; intros [|i] Hi; simplify_eq/=.
  - lia.
  - specialize (IH i Hi). lia.
Qed.

Lemma size_intersect_pos (a b : gset Z) : a ∩ b ≠ ∅ → (0 < size (a ∩ b))%nat.
Proof.
  intros Hne. destruct (decide (size (a ∩ b) = 0%nat)) as [Hz|]; [|lia].
  apply size_empty_iff in Hz. destruct Hne. by apply leibniz_equiv.
Qed.

Lemma size_remove_intersect_l (a b : gset Z) :
  (size (a ∖ (a ∩ b)) + size (a ∩ b) = size a)%nat.
Proof.
  rewrite <-size_union by set_solver. f_equal.
  apply leibniz_equiv. intros x. rewrite elem_of_union, elem_of_difference.
  rewrite elem_of_intersection.
  destruct (decide (x ∈ b)); naive_solver.
Qed.

Lemma size_remove_intersect_r (a b : gset Z) :
  (size (b ∖ (a ∩ b)) + size (a ∩ b) = size b)%nat.
Proof.
  rewrite <-size_union by set_solver. f_equal.
  apply leibniz_equiv. intros x. rewrite elem_of_union, elem_of_difference.
  rewrite elem_of_intersection.
  destruct (decide (x ∈ a)); naive_solver.
Qed.

(** A step of the scan either leaves the state alone (the pair at [i]
    does not intersect) or sets the flag and strictly shrinks [total]. *)
Lemma repair_step_cases uniques changed i :
  (S i < length uniques)%nat →
  (repair_step (uniques, changed) i = (uniques, changed) ∧
     ∀ a b, uniques !! i = Some a → uniques !! S i = Some b → a ∩ b = ∅)
  ∨ (∃ uniques', repair_step (uniques, changed) i = (uniques', true) ∧
       length uniques' = length uniques ∧
       (total uniques' < total uniques)%nat).
Proof.
  intros Hlen. unfold repair_step.
  destruct (lookup_lt_is_Some_2 uniques i) as [a Ha]; [lia|].
  destruct (lookup_lt_is_Some_2 uniques (S i)) as [b Hb]; [lia|].
  rewrite Ha, Hb. case_decide as Hint.
  { left. split; [done|]. intros a' b' ??. by simplify_eq. }
  right. eexists. split; [done|]. split.
  { by rewrite !length_alter. }
  pose proof (size_intersect_pos a b Hint) as Hpos.
  pose proof (size_remove_intersect_l a b) as Hl.
  pose proof (size_remove_intersect_r a b) as Hr.
  assert (a ∪ a ∩ b = a) as Hua by set_solver.
  assert (b ∪ a ∩ b = b) as Hub by set_solver.
  destruct (decide (size a ≤ size b)%nat) as [Hab|Hab];
    destruct (decide (size b ≤ size a)%nat) as [Hba|Hba]; [| | |lia].
  - (* equal lengths: both references name [uniques[i]] *)
    pose proof (total_alter (λ s, s ∪ a ∩ b) uniques i a Ha) as H1.
    pose proof (total_alter (λ s, s ∖ (a ∩ b))
                  (alter (λ s, s ∪ a ∩ b) i uniques) i (a ∪ a ∩ b)) as H2.
    rewrite list_lookup_alter_eq, Ha in H2. specialize (H2 eq_refl).
    cbv beta in *. rewrite Hua in *. lia.
  - (* [uniques[i]] is strictly shorter *)
    pose proof (total_alter (λ s, s ∪ a ∩ b) uniques i a Ha) as H1.
    pose proof (total_alter (λ s, s ∖ (a ∩ b))
                  (alter (λ s, s ∪ a ∩ b) i uniques) (S i) b) as H2.
    rewrite list_lookup_alter_ne, Hb in H2 by lia. specialize (H2 eq_refl).
    cbv beta in *. rewrite Hua in *. lia.
  - (* [uniques[i + 1]] is strictly shorter *)
    pose proof (total_alter (λ s, s ∪ a ∩ b) uniques (S i) b Hb) as H1.
    pose proof (total_alter (λ s, s ∖ (a ∩ b))
                  (alter (λ s, s ∪ a ∩ b) (S i) uniques) i a) as H2.
    rewrite list_lookup_alter_ne, Ha in H2 by lia. specialize (H2 eq_refl).
    cbv beta in *. rewrite Hub in *. lia.
Qed.

(** Invariant of the [for] loop after the positions below [n]. *)
Lemma scan_prefix uniques n :
  (n ≤ length uniques - 1)%nat →
  let st := foldl repair_step (uniques, false) (seq 0 n) in
  length st.1 = length uniques ∧
  ((st = (uniques, false) ∧
      ∀ i a b, (i < n)%nat →
        uniques !! i = Some a → uniques !! S i = Some b → a ∩ b = ∅)
   ∨ (st.2 = true ∧ (total st.1 < total uniques)%nat)).
Proof.
  induction n as [|n IH]; intros Hn.
  { simpl. split; [done|]. left. split; [done|]. intros; lia. }
  cbv zeta in *. rewrite seq_S, foldl_app. cbn [foldl Nat.add].
  destruct IH as [Hlen IH]; [lia|].
  destruct (foldl repair_step (uniques, false) (seq 0 n)) as [us ch].
  cbn [fst snd] in *.
  destruct (repair_step_cases us ch n) as [[Heq Hdisj]|(us' & Heq & Hlen' & Hlt)];
    [lia| |]; rewrite Heq; cbn [fst snd].
  - split; [done|]. destruct IH as [[[= -> ->] IH]|[-> IH]].
    + left. split; [done|]. intros i a b Hi Ha Hb.
      destruct (decide (i = n)) as [->|]; [by eapply Hdisj|].
      eapply IH; [|done..]. lia.
    + right. done.
  - split; [congruence|]. right. split; [done|].
    destruct IH as [[[= -> ->] _]|[_ IH]]; lia.
Qed.

(** A scan that reports no change left the key-sets as they were, and no
    neighbours intersect; a scan that reports a change shrank [total]. *)
Lemma scan_cases uniques :
  (scan uniques = (uniques, false) ∧ adjacent_disjoint uniques)
  ∨ (∃ uniques', scan uniques = (uniques', true) ∧
       (total uniques' < total uniques)%nat).
Proof.
  pose proof (scan_prefix uniques (length uniques - 1) (le_n _)) as [_ H].
  fold (scan uniques) in H.
  destruct H as [[Heq Hdisj]|[Hch Hlt]].
  - left. split; [done|]. intros i a b Ha Hb. eapply Hdisj; [|done..].
    apply lookup_lt_Some in Hb. lia.
  - right. destruct (scan uniques) as [us ch]. simpl in *. subst. eauto.
Qed.

Lemma repair_loop_terminates fuel uniques :
  (total uniques < fuel)%nat →
  ∃ uniques', repair_loop fuel uniques = Some uniques' ∧
    adjacent_disjoint uniques' ∧ (total uniques' ≤ total uniques)%nat.
Proof.
  revert uniques. induction fuel as [|fuel IH]; intros uniques Hfuel; [lia|].
  simpl. destruct (scan_cases uniques) as [[-> Hdisj]|(us' & -> & Hlt)].
  - eauto.
  - destruct (IH us') as (r & Hr & Hdisj & Hle); [lia|].
    exists r. split; [done|]. split; [done|]. lia.
Qed.

Lemma repair_loop_fuel_irrelevant fuel1 fuel2 uniques r1 r2 :
  repair_loop fuel1 uniques = Some r1 →
  repair_loop fuel2 uniques = Some r2 → r1 = r2.
Proof.
  revert fuel2 uniques. induction fuel1 as [|fuel1 IH];
    intros [|fuel2] uniques; simpl; try done.
  destruct (scan uniques) as [us [|]]; [apply IH|congruence].
Qed.

(** C1. For every list of key-set summaries the [while changed] loop of
    [_align_divisions] terminates: it returns a result as soon as the
    fuel exceeds the sum of the sizes of the key-sets, which bounds the
    number of scans.  In the list it returns no two adjacent key-sets
    intersect. *)
Theorem align_repair_terminates_disjoint (uniques : list (gset Z)) :
  ∃ uniques',
    (∀ fuel, (total uniques < fuel)%nat →
       repair_loop fuel uniques = Some uniques') ∧
    adjacent_disjoint uniques' ∧
    length uniques' = length uniques.
Proof.
  destruct (repair_loop_terminates (S (total uniques)) uniques)
    as (r & Hr & Hdisj & _); [lia|].
  exists r. split; [|split; [done|]].
  - intros fuel Hfuel.
    destruct (repair_loop_terminates fuel uniques Hfuel) as (r' & Hr' & _).
    rewrite Hr'. f_equal. eapply repair_loop_fuel_irrelevant; eauto.
  - clear Hdisj. revert Hr. generalize (S (total uniques)). intros fuel.
    revert uniques. induction fuel as [|fuel IH]; intros uniques; [done|].
    simpl.
    pose proof (scan_prefix uniques (length uniques - 1) (le_n _)) as [Hl _].
    fold (scan uniques) in Hl.
    destruct (scan uniques) as [us [|]]; simpl in *.
    + intros H. rewrite (IH _ H). done.
    + by intros [= <-].
Qed.

End AlignRepair.

(** ** The tree reduction *)

Section ReductionTree.
Import Py Graph Reduction.

(** *** [partition_all] *)

Lemma partition_all_go_concat {A} fuel n (l : list A) :
  (1 ≤ n)%nat → (length l ≤ fuel)%nat →
  concat (partition_all_go fuel n l) = l.
Proof.
  intros Hn. revert l. induction fuel as [|fuel IH]; intros [|x l] Hl;
    simpl in *; try done; [lia|].
  rewrite IH; [apply (take_drop n (x :: l))|].
  rewrite length_drop. simpl. lia.
Qed.

Lemma partition_all_go_sizes {A} fuel n (l : list A) :
  (1 ≤ n)%nat →
  Forall (λ bk, 1 ≤ length bk ≤ n)%nat (partition_all_go fuel n l).
Proof.
  intros Hn. revert l. induction fuel as [|fuel IH]; intros [|x l];
    simpl; try by constructor.
  constructor; [|apply IH].
  rewrite length_take. simpl. lia.
Qed.

Lemma partition_all_go_length {A} fuel n (l : list A) :
  (1 ≤ n)%nat → (length (partition_all_go fuel n l) ≤ length l)%nat.
Proof.
  intros Hn. revert l. induction fuel as [|fuel IH]; intros [|x l];
    simpl; try lia.
  specialize (IH (drop n (x :: l))). rewrite length_drop in IH.
  simpl in IH. lia.
Qed.

(** With a fan-in of at least two, a level that is larger than the fan-in
    is followed by a strictly smaller one. *)
Lemma partition_all_shrinks {A} n (l : list A) :
  (2 ≤ n)%nat → (n < length l)%nat →
  (1 ≤ length (partition_all n l) < length l)%nat.
Proof.
  intros Hn Hl. unfold partition_all. destruct n as [|n]; [lia|].
  destruct l as [|x l]; simpl in *; [lia|].
  pose proof (partition_all_go_length (length l) (S n)
                (drop (S n) (x :: l))) as H.
  rewrite length_drop in H. simpl in *. lia.
Qed.

Lemma tree_remaining se b cbkw a k depth g a' k' depth' :
  tree se b cbkw a k depth g a' k' depth' → (k' ≤ se)%nat.
Proof. induction 1; done. Qed.

Lemma depth_bounded_fresh3 depth dsk n d i :
  depth_bounded depth dsk → (depth < d)%nat → Key3 n d i ∉ keys dsk.
Proof. intros Hb Hd Hin. destruct (Hb _ Hin) as (?&?&?&[=]&?). lia. Qed.

Lemma depth_bounded_fresh2 depth dsk n i :
  depth_bounded depth dsk → Key2 n i ∉ keys dsk.
Proof. intros Hb Hin. by destruct (Hb _ Hin) as (?&?&?&[=]&?). Qed.

Lemma level_nodes_keys b cbkw a depth buckets key :
  key ∈ keys (level_nodes b cbkw a depth buckets) →
  ∃ i, key = Key3 b (S depth) i ∧ (i < length buckets)%nat.
Proof.
  unfold keys, level_nodes. intros Hin.
  apply list_elem_of_fmap in Hin as ([k' v] & -> & Hin).
  apply list_elem_of_lookup in Hin as [i Hi].
  rewrite list_lookup_imap in Hi.
  destruct (buckets !! i) as [inds|] eqn:Hb; simplify_eq/=.
  exists i. split; [done|]. by eapply lookup_lt_Some.
Qed.

Lemma depth_bounded_level depth dsk b cbkw a buckets :
  depth_bounded depth dsk →
  depth_bounded (S depth) (dsk ++ level_nodes b cbkw a depth buckets).
Proof.
  intros Hb key. unfold keys. rewrite fmap_app, elem_of_app.
  intros [Hin|Hin].
  - destruct (Hb _ Hin) as (n & d & i & -> & ?). exists n, d, i. split; [done|lia].
  - apply level_nodes_keys in Hin as (i & -> & _). eauto.
Qed.

(** The [for] loop over the buckets adds the nodes of one level. *)
Lemma combine_buckets_fresh b a depth cbkw buckets start dsk :
  (∀ p, (start ≤ p)%nat → Key3 b (S depth) p ∉ keys dsk) →
  foldl (combine_bucket b a depth cbkw) dsk
    (imap (λ part_i inds, ((start + part_i)%nat, inds)) buckets)
  = dsk ++ imap (λ part_i inds,
                   (Key3 b (S depth) (start + part_i),
                    combine_task cbkw (Key3 a depth <$> inds))) buckets.
Proof.
  revert start dsk. induction buckets as [|inds buckets IH];
    intros start dsk Hfresh; simpl.
  { by rewrite app_nil_r. }
  rewrite Nat.add_0_r, dict_set_fresh by (apply Hfresh; lia).
  rewrite (imap_ext (_ ∘ S)
             (λ part_i inds0, ((S start + part_i)%nat, inds0)) buckets)
    by (intros; simpl; f_equal; lia).
  rewrite (imap_ext (_ ∘ S)
             (λ part_i inds0,
                (Key3 b (S depth) (S start + part_i),
                 combine_task cbkw (Key3 a depth <$> inds0))) buckets)
    by (intros; simpl; do 2 f_equal; lia).
  rewrite IH; [by rewrite <-app_assoc|].
  intros p Hp. unfold keys. rewrite fmap_app, elem_of_app. simpl.
  intros [Hin|Hin%list_elem_of_singleton]; [|simplify_eq; lia].
  eapply Hfresh; [|done]. lia.
Qed.

Lemma combine_level_fresh b a depth cbkw buckets dsk :
  depth_bounded depth dsk →
  foldl (combine_bucket b a depth cbkw) dsk
    (imap (λ part_i inds, (part_i, inds)) buckets)
  = dsk ++ level_nodes b cbkw a depth buckets.
Proof.
  intros Hb.
  pose proof (combine_buckets_fresh b a depth cbkw buckets 0 dsk) as H.
  simpl in H. apply H. intros p _.
  eapply depth_bounded_fresh3; [done|lia].
Qed.

Lemma partition_all_consecutive se k :
  (1 ≤ se)%nat → consecutive_buckets se k (partition_all se (seq 0 k)).
Proof.
  intros Hse. unfold partition_all. destruct se as [|se]; [lia|]. split.
  - by apply partition_all_go_concat.
  - by apply partition_all_go_sizes.
Qed.

(** The [while] loop terminates within [k] iterations and builds a tree. *)
Lemma combine_loop_tree fuel b se cbkw dsk a k depth :
  (2 ≤ se)%nat → (k ≤ fuel)%nat → depth_bounded depth dsk →
  ∃ levels a' k' depth',
    combine_loop fuel b se cbkw dsk a k depth
      = Some (dsk ++ levels, a', k', depth') ∧
    tree se b cbkw a k depth levels a' k' depth' ∧
    depth_bounded depth' (dsk ++ levels).
Proof.
  intros Hse. revert dsk a k depth.
  induction fuel as [|fuel IH]; intros dsk a k depth Hk Hb.
  - exists [], a, k, depth. simpl. case_decide; [lia|].
    rewrite app_nil_r. split; [done|]. split; [|done].
    constructor. lia.
  - simpl. case_decide as Hlt.
    + pose proof (partition_all_shrinks se (seq 0 k) Hse) as Hshrink.
      rewrite length_seq in Hshrink. specialize (Hshrink Hlt).
      rewrite combine_level_fresh by done.
      set (buckets := partition_all se (seq 0 k)) in *.
      destruct (IH (dsk ++ level_nodes b cbkw a depth buckets) b
                  (length buckets) (S depth))
        as (levels & a' & k' & depth' & Hloop & Htree & Hb'); [lia| |].
      { by apply depth_bounded_level. }
      exists (level_nodes b cbkw a depth buckets ++ levels), a', k', depth'.
      rewrite app_assoc. split; [done|]. split; [|done].
      constructor; [done| |done].
      apply partition_all_consecutive. lia.
    + exists [], a, k, depth. rewrite app_nil_r. split; [done|].
      split; [|done]. constructor. lia.
Qed.

(** The keys of the chunk level. *)
Lemma chunk_graph_keys c ckw a chunks :
  chunk_graph c ckw a = inr chunks →
  ∃ df rest, args c = ArgFrame df :: rest ∧
    keys chunks = Key3 a 0 <$> range (npartitions df).
Proof.
  assert (Happly : ∀ chunks, apply_chunk_graph c ckw a = inr chunks →
    ∃ df rest, args c = ArgFrame df :: rest ∧
      keys chunks = Key3 a 0 <$> range (npartitions df)).
  { unfold apply_chunk_graph. intros g.
    destruct (args c) as [|[df|v] rest]; intros [= <-].
    exists df, rest. split; [done|]. unfold keys.
    rewrite <-list_fmap_compose. done. }
  unfold chunk_graph.
  destruct (args c) as [|[df|v] [|x rest]] eqn:Hargs; try apply Happly.
  destruct (nonempty ckw); [apply Happly|].
  intros [= <-]. exists df, []. split; [done|].
  unfold keys, dask_keys, range. rewrite fmap_imap, imap_fmap.
  rewrite (imap_ext _ (λ j _, Key3 a 0 j)) by done.
  by rewrite imap_seq_0, length_seq.
Qed.

Lemma chunk_graph_depth_bounded c ckw a chunks :
  chunk_graph c ckw a = inr chunks → depth_bounded 0 chunks.
Proof.
  intros (df & rest & _ & Hkeys)%chunk_graph_keys key.
  rewrite Hkeys. intros (i & -> & _)%list_elem_of_fmap. eauto.
Qed.

Lemma sum_by_eight_reduction :
  reduction 20 sum_by_eight
  = Some (inr (new_dd_object
                 (sum_by_eight_graph ++ dask twenty_partitions)
                 "sum-agg-0f3a" ["x"] [None; None])).
Proof. vm_compute. reflexivity. Qed.

(** The loop test on the naturals is the loop test of the source: after
    the checks, [k > split_every] holds of the integers exactly when it
    holds of [Z.to_nat k] and [Z.to_nat split_every]. *)
Lemma checks_loop_test c akw combine cbkw n se :
  checks c akw = ret (combine, cbkw, n, se) →
  se < n ↔ (Z.to_nat se < Z.to_nat n)%nat.
Proof.
  unfold checks.
  destruct (resolve_combine c akw) as [e|[combine' cbkw']]; [done|].
  destruct (common_npartitions c) as [e|n']; [done|]. simpl.
  destruct (split_every c) as [|[|]|z| |]; simpl; try done.
  - intros [= _ _ <- <-]. lia.
  - intros [= _ _ <- <-]. lia.
  - case_decide; [done|]. intros [= _ _ <- <-]. lia.
Qed.

Lemma common_npartitions_frame c n df :
  common_npartitions c = ret n → ArgFrame df ∈ args c → npartitions df = n.
Proof.
  unfold common_npartitions. intros Hn Hdf.
  assert (npartitions df ∈ remove_dups (npartitions <$> frames (args c)))
    as Hin.
  { apply elem_of_remove_dups, list_elem_of_fmap. exists df. split; [done|].
    unfold frames. apply list_elem_of_omap. by exists (ArgFrame df). }
  destruct (remove_dups _) as [|x [|y l]]; [done| |done].
  injection Hn as <-. by apply list_elem_of_singleton in Hin.
Qed.

Lemma checks_pass c combine cbkw n se :
  resolve_combine c (aggregate_kwargs' c) = ret (combine, cbkw) →
  common_npartitions c = ret n →
  check_split_every (split_every c) n = ret se →
  checks c (aggregate_kwargs' c) = ret (combine, cbkw, n, se).
Proof.
  intros Hcombine Hn Hse. unfold checks.
  rewrite Hcombine. simpl. rewrite Hn. simpl. by rewrite Hse.
Qed.

(** A call that passes its checks with a fan-in of at least two: the
    graph is the chunk level, the combine levels of a [tree], and one
    aggregate node over the results that remain. *)
Lemma reduction_fan_in (c : call) (fuel : nat) (combine : string)
    (cbkw : kwargs) (n se : Z) (chunks : graph) (m : list string) :
  resolve_combine c (aggregate_kwargs' c) = ret (combine, cbkw) →
  common_npartitions c = ret n →
  check_split_every (split_every c) n = ret se →
  chunk_graph c (chunk_kwargs' c) (chunk_name c) = ret chunks →
  resolved_meta c = ret m →
  (2 ≤ Z.to_nat se)%nat → (Z.to_nat n ≤ fuel)%nat →
  ∃ levels a k depth,
    reduction fuel c
    = Some (ret (new_dd_object
                   (merge_inputs
                      (chunks ++ levels ++
                         [(Key2 (agg_name c) 0,
                           aggregate_task (aggregate_kwargs' c)
                             (Key3 a depth <$> seq 0 k))]) c)
                   (agg_name c) m [None; None])) ∧
    keys chunks = Key3 (chunk_name c) 0 <$> seq 0 (Z.to_nat n) ∧
    tree (Z.to_nat se) (combine_name c combine) cbkw (chunk_name c)
      (Z.to_nat n) 0 levels a k depth ∧
    (k ≤ Z.to_nat se)%nat.
Proof.
  intros Hcombine Hn Hse Hchunks Hmeta Hse2 Hfuel.
  destruct (combine_loop_tree fuel (combine_name c combine) (Z.to_nat se)
              cbkw chunks (chunk_name c) (Z.to_nat n) 0 Hse2 Hfuel)
    as (levels & a & k & depth & Hloop & Htree & Hb).
  { by eapply chunk_graph_depth_bounded. }
  exists levels, a, k, depth. split; [|split; [|split; [done|]]].
  - unfold reduction. rewrite (checks_pass c combine cbkw n se) by done.
    unfold reduction_graph. rewrite Hchunks. cbn [ret].
    rewrite Hloop, Hmeta. cbn [bind ret].
    rewrite dict_set_fresh by (by eapply depth_bounded_fresh2).
    by rewrite <-app_assoc.
  - destruct (chunk_graph_keys _ _ _ _ Hchunks) as (df & rest & Hargs & ->).
    rewrite (common_npartitions_frame c n df Hn); [done|].
    rewrite Hargs. by left.
  - by eapply tree_remaining.
Qed.

(** A call that passes its checks with a fan-in that is not below the
    partition count: no combine level, whatever the fuel. *)
Lemma reduction_flat (c : call) (fuel : nat) (combine : string)
    (cbkw : kwargs) (n se : Z) (chunks : graph) (m : list string) :
  resolve_combine c (aggregate_kwargs' c) = ret (combine, cbkw) →
  common_npartitions c = ret n →
  check_split_every (split_every c) n = ret se →
  chunk_graph c (chunk_kwargs' c) (chunk_name c) = ret chunks →
  resolved_meta c = ret m →
  (Z.to_nat n ≤ Z.to_nat se)%nat →
  reduction fuel c
  = Some (ret (new_dd_object
                 (merge_inputs
                    (chunks ++
                       [(Key2 (agg_name c) 0,
                         aggregate_task (aggregate_kwargs' c)
                           (Key3 (chunk_name c) 0 <$> seq 0 (Z.to_nat n)))])
                    c)
                 (agg_name c) m [None; None])).
Proof.
  intros Hcombine Hn Hse Hchunks Hmeta Hle.
  unfold reduction. rewrite (checks_pass c combine cbkw n se) by done.
  unfold reduction_graph. rewrite Hchunks. cbn [ret].
  assert (combine_loop fuel (combine_name c combine) (Z.to_nat se) cbkw
            chunks (chunk_name c) (Z.to_nat n) 0
          = Some (chunks, chunk_name c, Z.to_nat n, 0%nat)) as ->.
  { destruct fuel; simpl; by rewrite decide_False by lia. }
  rewrite Hmeta. cbn [bind ret].
  rewrite dict_set_fresh; [done|].
  eapply depth_bounded_fresh2. by eapply chunk_graph_depth_bounded.
Qed.

(** C2. For a call of [reduction] with an integer [split_every >= 2]
    that passes the earlier checks ([combine] and its keywords are
    consistent, the frames share the partition count [N], the chunk level
    can be built, [meta] is known), a fuel of [N] is enough and the
    returned frame holds, before the graphs of the arguments, the [N]
    chunk nodes, followed by the combine levels, followed by one
    aggregate node.  The combine levels form a [tree]: while more than
    [split_every] results remain they are grouped into consecutive
    buckets of at most [split_every] results and one combine node is
    added per bucket; the aggregate node reads the [k <= split_every]
    results that remain.  For 20 partitions and [split_every = 8] the
    graph is [sum_by_eight_graph]: 20 chunk nodes, three combine nodes
    over the buckets 0-7, 8-15 and 16-19, and one aggregate node over the
    three. *)
Theorem reduction_tree_shape (c : call) (s N : Z) (fuel : nat)
    (combine : string) (cbkw : kwargs) (chunks : graph) (m : list string) :
  split_every c = SE_Int s → 2 ≤ s →
  resolve_combine c (aggregate_kwargs' c) = ret (combine, cbkw) →
  common_npartitions c = ret N →
  chunk_graph c (chunk_kwargs' c) (chunk_name c) = ret chunks →
  resolved_meta c = ret m →
  (Z.to_nat N ≤ fuel)%nat →
  (∃ levels a k depth,
     reduction fuel c
     = Some (ret (new_dd_object
                    (merge_inputs
                       (chunks ++ levels ++
                          [(Key2 (agg_name c) 0,
                            aggregate_task (aggregate_kwargs' c)
                              (Key3 a depth <$> seq 0 k))]) c)
                    (agg_name c) m [None; None])) ∧
     keys chunks = Key3 (chunk_name c) 0 <$> seq 0 (Z.to_nat N) ∧
     tree (Z.to_nat s) (combine_name c combine) cbkw (chunk_name c)
       (Z.to_nat N) 0 levels a k depth ∧
     (k ≤ Z.to_nat s)%nat)
  ∧ reduction 20 sum_by_eight
    = Some (inr (new_dd_object
                   (sum_by_eight_graph ++ dask twenty_partitions)
                   "sum-agg-0f3a" ["x"] [None; None])).
Proof.
  intros Hs Hs2 Hcombine HN Hchunks Hmeta Hfuel.
  split; [|apply sum_by_eight_reduction].
  apply (reduction_fan_in c fuel combine cbkw N s chunks m); try done.
  - rewrite Hs. simpl. by rewrite decide_False by lia.
  - lia.
Qed.

Lemma reduction_tree_shape_witness :
  ∃ levels a k depth,
    reduction 20 sum_by_eight
    = Some (ret (new_dd_object
                   (merge_inputs
                      (take 20 sum_by_eight_graph ++ levels ++
                         [(Key2 (agg_name sum_by_eight) 0,
                           aggregate_task (aggregate_kwargs' sum_by_eight)
                             (Key3 a depth <$> seq 0 k))]) sum_by_eight)
                   (agg_name sum_by_eight) ["x"] [None; None])) ∧
    keys (take 20 sum_by_eight_graph)
    = Key3 (chunk_name sum_by_eight) 0 <$> seq 0 20 ∧
    tree 8 (combine_name sum_by_eight "sum") ∅ (chunk_name sum_by_eight)
      20 0 levels a k depth ∧
    (k ≤ 8)%nat.
Proof.
  refine (proj1 (reduction_tree_shape sum_by_eight 8 20 20 "sum" ∅
                   (take 20 sum_by_eight_graph) ["x"]
                   eq_refl _ eq_refl eq_refl eq_refl eq_refl _)); lia.
Defined.

(** *** Validation of [split_every] *)

Lemma check_split_every_rejects se n :
  ¬ accepted_split_every se →
  check_split_every se n
    = raise (ValueError "split_every must be an integer >= 2")
  ∨ check_split_every se n = raise TypeError.
Proof.
  unfold accepted_split_every. intros Hbad.
  destruct se as [|[|]|z| |]; simpl; eauto.
  - destruct Hbad. eauto.
  - destruct Hbad. eauto.
  - case_decide; [eauto|]. destruct Hbad. right. right. exists z. split; [done|lia].
Qed.

Lemma split_every_fails c fuel combine cbkw n e :
  resolve_combine c (aggregate_kwargs' c) = ret (combine, cbkw) →
  common_npartitions c = ret n →
  check_split_every (split_every c) n = raise e →
  reduction fuel c = Some (raise e).
Proof.
  intros Hcombine Hn Hse. unfold reduction, checks.
  rewrite Hcombine. simpl. rewrite Hn. simpl. by rewrite Hse.
Qed.

(** C7. A call of [reduction] whose [split_every] is neither [None], nor
    [False], nor an integer [>= 2] returns the error of its checks,
    whatever the fuel: no iteration of the loop and no node is needed to
    reach it.  When the two earlier checks pass, the error is the
    [ValueError] of the [split_every] test for [True], a float or an
    integer below 2, and a [TypeError] for a value that cannot be
    compared with 2.  With [split_every = None] the frame that
    [reduction] returns holds a tree of fan-in 8.  With
    [split_every = False] it holds the chunk nodes and one aggregate node
    over all of them and no combine node, whatever the fuel. *)
Theorem split_every_validation (c : call) (fuel : nat) :
  (¬ accepted_split_every (split_every c) →
   ∃ e, checks c (aggregate_kwargs' c) = raise e ∧
        reduction fuel c = Some (raise e)) ∧
  (∀ combine cbkw n,
     resolve_combine c (aggregate_kwargs' c) = ret (combine, cbkw) →
     common_npartitions c = ret n →
     (split_every c = SE_Bool true ∨ split_every c = SE_Float ∨
      (∃ z, split_every c = SE_Int z ∧ z < 2) →
      reduction fuel c
      = Some (raise (ValueError "split_every must be an integer >= 2"))) ∧
     (split_every c = SE_Unorderable →
      reduction fuel c = Some (raise TypeError)) ∧
     (∀ chunks m,
        chunk_graph c (chunk_kwargs' c) (chunk_name c) = ret chunks →
        resolved_meta c = ret m →
        (split_every c = SE_None → (Z.to_nat n ≤ fuel)%nat →
         ∃ levels a k depth,
           reduction fuel c
           = Some (ret (new_dd_object
                          (merge_inputs
                             (chunks ++ levels ++
                                [(Key2 (agg_name c) 0,
                                  aggregate_task (aggregate_kwargs' c)
                                    (Key3 a depth <$> seq 0 k))]) c)
                          (agg_name c) m [None; None])) ∧
           tree 8 (combine_name c combine) cbkw (chunk_name c)
             (Z.to_nat n) 0 levels a k depth ∧
           (k ≤ 8)%nat) ∧
        (split_every c = SE_Bool false →
         reduction fuel c
         = Some (ret (new_dd_object
                        (merge_inputs
                           (chunks ++
                              [(Key2 (agg_name c) 0,
                                aggregate_task (aggregate_kwargs' c)
                                  (Key3 (chunk_name c) 0
                                     <$> seq 0 (Z.to_nat n)))]) c)
                        (agg_name c) m [None; None]))))).
Proof.
  split.
  - intros Hbad. unfold reduction, checks.
    destruct (resolve_combine c _) as [e|[combine cbkw]]; simpl; [eauto|].
    destruct (common_npartitions c) as [e|n]; simpl; [eauto|].
    destruct (check_split_every_rejects _ n Hbad) as [-> | ->]; simpl; eauto.
  - intros combine cbkw n Hcombine Hn. split; [|split].
    + intros Hse. apply (split_every_fails c fuel combine cbkw n); try done.
      destruct Hse as [-> | [-> | (z & -> & Hz)]]; simpl; try done.
      by rewrite decide_True by done.
    + intros Hse. apply (split_every_fails c fuel combine cbkw n); try done.
      by rewrite Hse.
    + intros chunks m Hchunks Hmeta. split.
      * intros Hse Hfuel.
        destruct (reduction_fan_in c fuel combine cbkw n 8 chunks m)
          as (levels & a & k & depth & Hred & _ & Htree & Hk);
          try done; [by rewrite Hse|simpl; lia|].
        exists levels, a, k, depth. done.
      * intros Hse.
        apply (reduction_flat c fuel combine cbkw n n chunks m); try done.
        by rewrite Hse.
Qed.

Lemma split_every_validation_witness :
  reduction 0 sum_by_one
  = Some (raise (ValueError "split_every must be an integer >= 2")).
Proof.
  refine (proj1 (proj2 (split_every_validation sum_by_one 0) "sum" ∅ 20
                   eq_refl eq_refl) _).
  right. right. exists 1. split; [reflexivity|lia].
Defined.

(** *** The frame that [reduction] returns *)

Lemma combine_level_key3 b a depth cbkw entries dsk :
  Forall key3 (keys dsk) →
  Forall key3 (keys (foldl (combine_bucket b a depth cbkw) dsk entries)).
Proof.
  revert dsk. induction entries as [|[p inds] entries IH]; intros dsk H;
    simpl; [done|].
  apply IH. apply Forall_forall. intros key [Hin| ->]%keys_dict_set.
  - by eapply Forall_forall in H.
  - by eexists _, _, _.
Qed.

Lemma combine_loop_key3 fuel b se cbkw dsk a k depth dsk' a' k' depth' :
  combine_loop fuel b se cbkw dsk a k depth = Some (dsk', a', k', depth') →
  Forall key3 (keys dsk) → Forall key3 (keys dsk').
Proof.
  revert dsk a k depth. induction fuel as [|fuel IH]; intros dsk a k depth;
    simpl; case_decide; try done; try (by intros [= <- _ _ _]).
  intros Hloop Hk. eapply IH; [done|]. by apply combine_level_key3.
Qed.

(** C9. A call of [reduction] that succeeds returns a frame whose
    divisions are [(None, None)]: it has one partition, whose key is
    [(b, 0)] for the name [b] of the aggregate stage.  In the graph built
    before the graphs of the arguments are merged in, that key holds the
    aggregate task and it is the only two-part key. *)
Theorem reduction_single_partition (fuel : nat) (c : call) (df : Frame) :
  reduction fuel c = Some (inr df) →
  divisions df = [None; None] ∧
  npartitions df = 1 ∧
  dask_keys df = [Key2 (agg_name c) 0] ∧
  ∃ dsk conc,
    dask df = merge_inputs dsk c ∧
    dict_get dsk (Key2 (agg_name c) 0)
      = Some (aggregate_task (aggregate_kwargs' c) conc) ∧
    ∀ key, key ∈ keys dsk → key = Key2 (agg_name c) 0 ∨ key3 key.
Proof.
  unfold reduction.
  destruct (checks c _) as [e|[[[combine cbkw] n] se]]; [done|].
  unfold reduction_graph.
  destruct (chunk_graph c _ _) as [e|chunks] eqn:Hchunks; [done|].
  destruct (combine_loop _ _ _ _ _ _ _ _) as [[[[dsk a] k] depth]|] eqn:Hloop;
    [|done].
  destruct (resolved_meta c) as [e|m]; simpl; [done|].
  intros [= <-]. do 3 (split; [done|]).
  eexists _, _. split; [done|]. split; [apply dict_get_set_eq|].
  intros key [Hin| ->]%keys_dict_set; [right|by left].
  eapply combine_loop_key3 in Hloop.
  - by eapply Forall_forall in Hloop.
  - apply Forall_forall. intros key' Hin'.
    destruct (chunk_graph_depth_bounded _ _ _ _ Hchunks _ Hin')
      as (n' & d & i & -> & _).
    by eexists _, _, _.
Qed.

Lemma reduction_single_partition_witness :
  divisions (new_dd_object (sum_by_eight_graph ++ dask twenty_partitions)
               "sum-agg-0f3a" ["x"] [None; None]) = [None; None].
Proof.
  exact (proj1 (reduction_single_partition 20 sum_by_eight _
                  sum_by_eight_reduction)).
Defined.

End ReductionTree.

(** ** [concat] on frames with known divisions *)

Section ConcatKnown.
Import Py Graph Concat.

Lemma all_of_true tests :
  all_of tests = ret true → Forall (λ t, t = ret true) tests.
Proof.
  induction tests as [|[e|[|]] tests IH]; simpl; intros H; try done.
  constructor; [done|]. by apply IH.
Qed.

Lemma all_of_total tests :
  Forall (λ t, ∃ b : bool, t = ret b) tests → ∃ b, all_of tests = ret b.
Proof.
  induction 1 as [|t tests [[|] ->] _ IH]; simpl; eauto.
Qed.

Lemma fully_known_bounds df :
  fully_known df →
  ∃ x y, last (divisions df) = Some (Some x) ∧
         head (divisions df) = Some (Some y).
Proof.
  intros [Hne Hall].
  destruct (divisions df) as [|d ds] eqn:Hd; [done|].
  assert (is_Some (last (d :: ds))) as [l Hl].
  { rewrite last_lookup. apply lookup_lt_is_Some_2. simpl. lia. }
  assert (is_Some l) as [x ->].
  { eapply Forall_forall in Hall; [done|].
    rewrite last_lookup in Hl. by eapply list_elem_of_lookup_2. }
  apply Forall_cons in Hall as [[y ->] _]. eauto.
Qed.

Lemma ordered_at_known dfs i a b x y :
  dfs !! i = Some a → dfs !! S i = Some b →
  last (divisions a) = Some (Some x) →
  head (divisions b) = Some (Some y) →
  ordered_at dfs i = ret (bool_decide (x < y)).
Proof.
  intros Ha Hb Hx Hy. unfold ordered_at, index, index_last.
  rewrite Ha. simpl. rewrite Hx. simpl. rewrite Hb. simpl.
  destruct (divisions b) as [|d ds]; simplify_eq/=. done.
Qed.

(** C10. For two or more frames whose divisions are all known, if the
    frames are not strictly ordered (some frame's last division is not
    below the first division of the next frame), [concat] returns [None]:
    neither a frame nor an exception, whatever [interleave_partitions]. *)
Theorem concat_unordered_is_none (tok : string) (dfs : list Frame)
    (interleave_partitions : bool) :
  (2 ≤ length dfs)%nat →
  Forall fully_known dfs →
  ¬ strictly_ordered dfs →
  concat tok dfs interleave_partitions = ret None.
Proof.
  intros Hlen Hknown Hunordered. unfold concat.
  case_decide; [lia|].
  assert (forallb known_divisions dfs = true) as ->.
  { apply forallb_forall. intros df Hdf%list_elem_of_In.
    eapply Forall_forall in Hknown; [|done].
    destruct (fully_known_bounds df Hknown) as (x & y & _ & Hy).
    unfold known_divisions. by destruct (divisions df) as [|[d|] ds];
      simplify_eq/=. }
  destruct (all_of_total (ordered_at dfs <$> seq 0 (length dfs - 1)))
    as [[|] Hall].
  - apply Forall_fmap, Forall_forall. intros i Hi%elem_of_seq. simpl.
    destruct (lookup_lt_is_Some_2 dfs i) as [a Ha]; [lia|].
    destruct (lookup_lt_is_Some_2 dfs (S i)) as [b Hb]; [lia|].
    destruct (fully_known_bounds a) as (x & _ & Hx & _).
    { eapply Forall_forall; [done|]. by eapply list_elem_of_lookup_2. }
    destruct (fully_known_bounds b) as (_ & y & _ & Hy).
    { eapply Forall_forall; [done|]. by eapply list_elem_of_lookup_2. }
    erewrite ordered_at_known by done. eauto.
  - destruct Hunordered. intros i a b x y Ha Hb Hx Hy.
    apply all_of_true in Hall.
    rewrite Forall_fmap, Forall_forall in Hall.
    specialize (Hall i). simpl in Hall.
    erewrite ordered_at_known in Hall by done.
    assert (i ∈ seq 0 (length dfs - 1)) as Hi.
    { apply elem_of_seq. apply lookup_lt_Some in Hb. lia. }
    specialize (Hall Hi). injection Hall as Hall.
    by apply bool_decide_eq_true in Hall.
  - by rewrite Hall.
Qed.

Lemma concat_unordered_is_none_witness :
  concat "t" [frame_0_5; frame_5_9] true = ret None.
Proof.
  apply concat_unordered_is_none.
  - simpl. lia.
  - repeat constructor; simpl; eauto.
  - intros H.
    specialize (H 0%nat frame_0_5 frame_5_9 5 5
                  eq_refl eq_refl eq_refl eq_refl).
    lia.
Defined.

End ConcatKnown.

(** ** Pairing of partitions in [join] *)

Section JoinPairing.
Import Py Join.

Lemma first_match_paired lu ru i l n pivot :
  lu !! i = Some l → (pivot + n ≤ length ru)%nat →
  ∃ m, first_match lu ru i (seq pivot n) = ret m ∧
       paired lu ru (pivot + n) pivot i m.
Proof.
  intros Hl. revert pivot. induction n as [|n IH]; intros pivot Hlen; simpl.
  { exists None. split; [done|]. simpl. intros; lia. }
  unfold Py.index. rewrite Hl. simpl.
  destruct (lookup_lt_is_Some_2 ru pivot) as [r Hr]; [lia|].
  rewrite Hr. simpl. case_decide as Hint.
  - exists (Some pivot). split; [done|]. simpl.
    split; [lia|]. split; [by exists l, r|]. intros; lia.
  - destruct (IH (S pivot)) as (m & Hm & Hp); [lia|].
    exists m. split; [done|].
    assert (¬ intersect_at lu ru i pivot) as Hno.
    { intros (l' & r' & ? & ? & ?). by simplify_eq. }
    replace (S pivot + n)%nat with (pivot + S n)%nat in Hp by lia.
    destruct m as [j|]; simpl in *.
    + destruct Hp as (Hj & Hi & Hfirst). split; [lia|]. split; [done|].
      intros j' Hj'. destruct (decide (j' = pivot)) as [->|]; [done|].
      apply Hfirst. lia.
    + intros j' Hj'. destruct (decide (j' = pivot)) as [->|]; [done|].
      apply Hp. lia.
Qed.

Lemma first_match_at lu ru i l nright pivot :
  lu !! i = Some l → (nright ≤ length ru)%nat →
  ∃ m, first_match lu ru i (seq pivot (nright - pivot)) = ret m ∧
       paired lu ru nright pivot i m.
Proof.
  intros Hl Hlen. destruct (decide (pivot ≤ nright)%nat) as [Hp|Hp].
  - destruct (first_match_paired lu ru i l (nright - pivot) pivot Hl)
      as (m & Hm & Hpaired); [lia|].
    exists m. split; [done|].
    by replace (pivot + (nright - pivot))%nat with nright in Hpaired by lia.
  - replace (nright - pivot)%nat with 0%nat by lia.
    exists None. split; [done|]. simpl. intros; lia.
Qed.

(** Both selectors walk the left partitions from [i] on with the same
    pivots; the inner one keeps the matched pairs only. *)
Lemma selectors_from lu ru nright n i pivot :
  (i + n ≤ length lu)%nat → (nright ≤ length ru)%nat →
  ∃ plan,
    left_selector_from lu ru nright (seq i n) pivot = ret plan ∧
    plan.*1 = seq i n ∧
    pairing lu ru nright pivot i plan ∧
    inner_selector_from lu ru nright (seq i n) pivot
      = ret (filter matched plan).
Proof.
  intros Hl Hr. revert i pivot Hl.
  induction n as [|n IH]; intros i pivot Hl; simpl.
  { by exists []. }
  destruct (lookup_lt_is_Some_2 lu i) as [l Hli]; [lia|].
  destruct (first_match_at lu ru i l nright pivot Hli Hr) as (m & -> & Hp).
  simpl. destruct m as [j|].
  - destruct (IH (S i) (S j)) as (plan & -> & Hfst & Hpair & ->); [lia|].
    exists ((i, Some j) :: plan).
    rewrite filter_cons_True by (by eexists). rewrite fmap_cons, Hfst. done.
  - destruct (IH (S i) pivot) as (plan & -> & Hfst & Hpair & ->); [lia|].
    exists ((i, None) :: plan).
    rewrite filter_cons_False by (by intros [? [=]]).
    rewrite fmap_cons, Hfst. done.
Qed.

(** The columns that a run of [df[name] = series] statements leaves. *)
Lemma columns_setitems {X} (name : X → string) (idx : DataFrame → X → list Z)
    (vals : X → column) (xs : list X) (df : DataFrame) :
  columns (foldl (λ df x, setitem df (name x) (idx df x) (vals x)) df xs)
  = dict_update (columns df) ((λ x, (name x, vals x)) <$> xs).
Proof.
  revert df. induction xs as [|x xs IH]; intros df; simpl; [done|].
  by rewrite IH.
Qed.

Lemma elem_of_keys_dict_set {K V} `{EqDecision K} (d : dict K V) k v key :
  key ∈ keys (dict_set d k v) ↔ key ∈ keys d ∨ key = k.
Proof.
  unfold keys. induction d as [|[k' v'] d IH]; simpl.
  - rewrite list_elem_of_singleton. split; [by right|].
    by intros [?%elem_of_nil|].
  - case_decide as Hk; simpl; rewrite !elem_of_cons.
    + subst k'. naive_solver.
    + rewrite IH. naive_solver.
Qed.

Lemma elem_of_keys_dict_update {K V} `{EqDecision K} (d other : dict K V) key :
  key ∈ keys (dict_update d other) ↔ key ∈ keys d ∨ key ∈ keys other.
Proof.
  unfold dict_update. revert d.
  induction other as [|[k v] other IH]; intros d; simpl.
  - split; [by left|]. by intros [|?%elem_of_nil].
  - rewrite IH, elem_of_keys_dict_set. unfold keys at 3 4. simpl.
    rewrite elem_of_cons. naive_solver.
Qed.

(** The names of the columns that [fix_column] builds. *)
Lemma fix_column_names lsuffix rsuffix rhs_dtypes lhs k :
  k ∈ keys (columns (fix_column lsuffix rsuffix rhs_dtypes lhs)) ↔
  k ∈ suffixed_names lsuffix rsuffix rhs_dtypes lhs.
Proof.
  unfold fix_column, suffixed_names.
  rewrite (columns_setitems (λ kd, kd.1 +:+ rsuffix) (λ df _, index df)
             (λ _, null_series (len lhs))).
  rewrite (columns_setitems (λ kc, kc.1 +:+ lsuffix) (λ _ _, index lhs)
             (λ kc, kc.2)).
  rewrite !elem_of_keys_dict_update, elem_of_app. simpl.
  unfold keys. rewrite <-!list_fmap_compose.
  split; [intros [[[]%elem_of_nil|?]|?]|intros [?|?]]; auto.
Qed.

(** C3. The walk pairs the left partitions as claimed, but the schema of
    an unmatched left partition is not the union of the left and the
    right columns.  For the left frame with column [a] and partitions
    [1, 2] and [3, 4] and the right frame with column [b] and the
    partition [3, 4], joined with [lsuffix = "_l"] and [rsuffix = "_r"]:
    the alignment gives the right key-sets [{3, 4}], the first left
    partition has no match and is handed to [fix_column], the second is
    joined with the right partition by [part_join]; with [how = "inner"]
    the first left partition yields nothing.  [fix_column] names the
    columns of the unmatched partition [a_l] and [b_r], not [a] and [b]:
    it appends the suffixes to every name, for every input. *)
Theorem left_join_unmatched_schema :
  (∃ right,
     Align._align_to_indices "t" DataFrameJoin.right_34
       [{[1; 2]}; {[3; 4]}] None
     = ret (right, [{[3; 4]}])) ∧
  DataFrameJoin.join 3 "t" DataFrameJoin.left_12_34 DataFrameJoin.right_34
    "left" "_l" "_r"
  = Some (ret [FixColumn 0; PartJoin 1 0 "left"]) ∧
  DataFrameJoin.join 3 "t" DataFrameJoin.left_12_34 DataFrameJoin.right_34
    "inner" "_l" "_r"
  = Some (ret [PartJoin 1 0 "inner"]) ∧
  keys (columns (fix_column "_l" "_r" [("b", "int64")] lhs_a))
  = ["a_l"; "b_r"] ∧
  keys (columns (fix_column "_l" "_r" [("b", "int64")] lhs_a))
  ≠ keys (columns lhs_a) ++ ["b"] ∧
  (∀ lsuffix rsuffix rhs_dtypes lhs k,
     k ∈ keys (columns (fix_column lsuffix rsuffix rhs_dtypes lhs)) ↔
     k ∈ suffixed_names lsuffix rsuffix rhs_dtypes lhs).
Proof.
  split; [|split; [|split; [|split; [|split]]]].
  - eexists. vm_compute. reflexivity.
  - vm_compute. reflexivity.
  - vm_compute. reflexivity.
  - reflexivity.
  - discriminate.
  - apply fix_column_names.
Qed.

End JoinPairing.

(** ** Divisions computed from the partitions *)

Section ComputeDivisions.
Import Py Graph Divisions.

Lemma traverse_first_index_empty parts :
  [] ∈ parts → traverse first_index parts = raise IndexError.
Proof.
  induction parts as [|p parts IH]; [by intros ?%elem_of_nil|].
  intros [<-|Hin]%elem_of_cons; simpl; [done|].
  destruct p as [|x p]; [done|]. simpl. by rewrite IH.
Qed.

Lemma traverse_first_index_nonempty parts :
  Forall (λ p, p ≠ []) parts →
  ∃ firsts, traverse first_index parts = ret firsts ∧
            Forall2 (λ p x, head p = Some x) parts firsts.
Proof.
  induction 1 as [|p parts Hp _ (firsts & Hfirsts & IH)].
  { by exists []. }
  destruct p as [|x p]; [done|]. exists (x :: firsts). simpl.
  rewrite Hfirsts. split; [done|]. by constructor.
Qed.

(** On a table with an empty partition the function raises, while the
    claimed result is a table whose divisions skip that partition. *)
Lemma compute_divisions_counterexample :
  [] ∈ partitions with_empty_partition ∧
  filtered_divisions (partitions with_empty_partition) = Some [1; 5; 6] ∧
  _compute_divisions with_empty_partition = raise IndexError.
Proof. split; [|split]; [|reflexivity..]. set_solver. Qed.

(** C4 (amended). On a table with unknown divisions [_compute_divisions]
    filters nothing.  If some partition is empty (or there is no
    partition) it raises [IndexError].  If every partition is non-empty,
    the divisions it returns are the first index value of every partition
    followed by the last index value of the last partition. *)
Theorem compute_divisions_unknown (self : Table) :
  known_divisions (frame self) = false →
  ([] ∈ partitions self ∨ partitions self = [] →
   _compute_divisions self = raise IndexError) ∧
  (partitions self ≠ [] → Forall (λ p, p ≠ []) (partitions self) →
   ∃ out firsts last_part hi,
     _compute_divisions self = ret out ∧
     partitions out = partitions self ∧
     divisions (frame out) = Some <$> (firsts ++ [hi]) ∧
     Forall2 (λ p x, head p = Some x) (partitions self) firsts ∧
     last (partitions self) = Some last_part ∧ last last_part = Some hi).
Proof.
  intros Hunknown. unfold _compute_divisions. rewrite Hunknown. split.
  - intros [Hempty| ->]; [|done].
    unfold index_last. destruct (last (partitions self)) as [p|]; [|done].
    simpl. by rewrite traverse_first_index_empty.
  - intros Hparts Hne.
    assert (is_Some (last (partitions self))) as [p Hp].
    { rewrite last_is_Some. done. }
    assert (p ≠ []) as Hpne.
    { eapply Forall_forall in Hne; [done|].
      rewrite last_lookup in Hp. by eapply list_elem_of_lookup_2. }
    assert (is_Some (last p)) as [hi Hhi] by (by rewrite last_is_Some).
    destruct (traverse_first_index_nonempty _ Hne) as (firsts & Hf & Hheads).
    unfold index_last, last_index, index_last. rewrite Hp. simpl.
    rewrite Hf. simpl. rewrite Hhi. simpl.
    eexists _, firsts, p, hi. split; [done|]. done.
Qed.

Lemma compute_divisions_unknown_witness :
  _compute_divisions with_empty_partition = raise IndexError ∧
  ∃ out firsts last_part hi,
    _compute_divisions without_empty_partition = ret out ∧
    partitions out = partitions without_empty_partition ∧
    divisions (frame out) = Some <$> (firsts ++ [hi]) ∧
    Forall2 (λ p x, head p = Some x)
      (partitions without_empty_partition) firsts ∧
    last (partitions without_empty_partition) = Some last_part ∧
    last last_part = Some hi.
Proof.
  split.
  - apply (compute_divisions_unknown with_empty_partition eq_refl).
    left. simpl. set_solver.
  - apply (compute_divisions_unknown without_empty_partition eq_refl).
    + done.
    + simpl. repeat constructor; done.
Defined.

End ComputeDivisions.

(** ** The frame returned by [_align_to_indices] *)

Section AlignToIndices.
Import Py Graph Align.

(** Split on the computations a result depends on, in program order. *)
Ltac step_binds :=
  repeat match goal with
         | |- context [bind ?m _] =>
             let E := fresh "E" in
             destruct m eqn:E; simpl; try done
         end.

(** Whatever the arguments, the frame that comes back has no known
    division: [from_delayed] is called without the divisions that were
    just computed. *)
Lemma align_to_indices_unknown tok self uniques originals newdd uniques' :
  _align_to_indices tok self uniques originals = ret (newdd, uniques') →
  Forall (λ d, d = None) (divisions newdd) ∧
  ∃ divs, local_divisions uniques' = ret divs.
Proof.
  unfold _align_to_indices.
  destruct (match originals with Some _ => _ | None => _ end) as [us os].
  step_binds. intros [= <- <-]. split.
  - simpl. apply Forall_forall. by intros ? ->%elem_of_replicate_inv.
  - eauto.
Qed.

(** C5. Aligning the two partitions [1, 2] and [2, 3] leaves the buckets
    {1} and {2, 3}.  Lines 425-426 compute the divisions 1, 2, 3 from
    them (the minimum of each bucket, then the maximum of the last one),
    but the frame that is returned carries [None, None, None]. *)
Theorem align_to_indices_drops_divisions :
  ∃ newdd,
    _align_divisions 10 "t" overlapping
      = Some (ret (newdd, [{[1]}; {[2; 3]}])) ∧
    local_divisions [{[1]}; {[2; 3]}] = ret [1; 2; 3] ∧
    npartitions newdd = 2 ∧
    divisions newdd = [None; None; None].
Proof. eexists. repeat split; vm_compute; reflexivity. Qed.

End AlignToIndices.

(** ** Chunks of [read_csv] *)

Section ReadCsvChunks.
Import Py Graph Csv.
Variable read_csv_columns : file → kwargs → list string.

Lemma range_from_ge n start step :
  Forall (λ x, start ≤ x)%nat (range_from n start step).
Proof.
  revert start. induction n as [|n IH]; intros start; simpl; constructor.
  - done.
  - eapply Forall_impl; [apply IH|]. simpl. intros; lia.
Qed.

(** The first chunk of a file starts at byte 0 and no other does. *)
Lemma chunk_starts_head size chunksize :
  chunksize ≠ 0%nat →
  chunk_starts size chunksize = [] ∨
  ∃ later, chunk_starts size chunksize = 0%nat :: later ∧
           Forall (λ start, start ≠ 0%nat) later.
Proof.
  intros Hc. unfold chunk_starts.
  destruct ((size + chunksize - 1) / chunksize)%nat as [|n]; [by left|].
  right. eexists. split; [done|].
  eapply Forall_impl; [apply range_from_ge|]. simpl. intros; lia.
Qed.

Lemma file_chunks_steps name meta chunksize kw filenames st :
  foldl (file_chunks name meta chunksize kw) st filenames
  = foldl (chunk_step name meta chunksize kw) st
      (all_chunks filenames chunksize).
Proof.
  revert st. induction filenames as [|fn filenames IH]; intros st; [done|].
  unfold all_chunks. simpl. rewrite foldl_app. rewrite <-IH. f_equal.
  unfold file_chunks. by rewrite foldl_fmap.
Qed.

Lemma chunk_steps_fresh name meta chunksize kw chunks dsk i :
  (∀ j, (i ≤ j)%nat → Key2 name j ∉ keys dsk) →
  foldl (chunk_step name meta chunksize kw) (dsk, i) chunks
  = (dsk ++ imap (λ j c, (Key2 name (i + j),
                          ReadCsv (path c.1)
                            (chunk_kwargs meta chunksize kw c.2))) chunks,
     (i + length chunks)%nat).
Proof.
  revert dsk i. induction chunks as [|c chunks IH]; intros dsk i Hfresh.
  { simpl. by rewrite app_nil_r, Nat.add_0_r. }
  cbn [foldl]. unfold chunk_step at 2. cbn [fst snd].
  rewrite dict_set_fresh by (apply Hfresh; lia).
  rewrite IH.
  - rewrite <-app_assoc. cbn [imap length app]. rewrite Nat.add_0_r.
    f_equal; [|lia]. do 2 f_equal.
    apply imap_ext. intros j x _. simpl. do 2 f_equal. lia.
  - intros j Hj. unfold keys. rewrite fmap_app, elem_of_app. simpl.
    intros [Hin|Hin%list_elem_of_singleton]; [|simplify_eq; lia].
    eapply Hfresh; [|done]. lia.
Qed.

(** With the reader [columns_of], the chunk of [1.csv] that starts at
    byte 4 is read with the names of [0.csv], not with the names found
    at the start of [1.csv]. *)
Lemma read_csv_names_counterexample :
  ∃ df kw2,
    read_csv columns_of "t" [file_ab; file_cd] 4 ∅ = ret df ∧
    dict_get (dask df) (Key2 "read-csv-t" 4) = Some (ReadCsv "1.csv" kw2) ∧
    kw2 !! "byte_range" = Some (VRange 4 4) ∧
    kw2 !! "header" = Some VNone ∧
    kw2 !! "names" = Some (VNames ["a"; "b"]) ∧
    columns_of file_cd (<["byte_range" := VRange 0 4]> ∅) = ["c"; "d"].
Proof.
  eexists _, _. split; [vm_compute; reflexivity|].
  repeat split; vm_compute; reflexivity.
Qed.

(** C8 (amended). For a non-empty list of files and a positive chunk
    size, [read_csv] builds one task per byte range of every file, in
    order.  The first range of a file starts at byte 0 and is the only
    one that does; its keywords are the caller's plus [byte_range], so
    header handling is as the caller set it.  Every later range is read
    with [header = None] and with [names] set to the columns of [meta],
    the frame read from the first file of the list. *)
Theorem read_csv_chunks (tok : string) (filenames : list file)
    (chunksize : nat) (kw : kwargs) (first : file) :
  filenames !! 0%nat = Some first →
  chunksize ≠ 0%nat →
  let meta := read_csv_columns first kw in
  let name := "read-csv-" +:+ tok in
  (∃ df,
     read_csv read_csv_columns tok filenames chunksize kw = ret df ∧
     _meta df = meta ∧
     dask df = imap (λ i c, (Key2 name i,
                             ReadCsv (path c.1)
                               (chunk_kwargs meta chunksize kw c.2)))
                 (all_chunks filenames chunksize)) ∧
  (∀ fn, chunk_starts (size fn) chunksize = [] ∨
         ∃ later, chunk_starts (size fn) chunksize = 0%nat :: later ∧
                  Forall (λ start, start ≠ 0%nat) later) ∧
  chunk_kwargs meta chunksize kw 0
    = <["byte_range" := VRange 0 chunksize]> kw ∧
  (∀ start, start ≠ 0%nat →
     chunk_kwargs meta chunksize kw start !! "header" = Some VNone ∧
     chunk_kwargs meta chunksize kw start !! "names" = Some (VNames meta) ∧
     chunk_kwargs meta chunksize kw start !! "byte_range"
       = Some (VRange start chunksize)).
Proof.
  intros Hfirst Hc meta name. split; [|split; [|split]].
  - unfold read_csv, index. rewrite Hfirst. simpl.
    rewrite decide_False by done.
    eexists. split; [done|]. split; [done|]. simpl.
    rewrite file_chunks_steps, chunk_steps_fresh.
    + simpl. done.
    + intros j _. by intros ?%elem_of_nil.
  - intros fn. by apply chunk_starts_head.
  - done.
  - intros start Hstart. unfold chunk_kwargs.
    rewrite decide_True by done.
    rewrite lookup_insert_eq, lookup_insert_ne, lookup_insert_eq by done.
    rewrite !lookup_insert_ne, lookup_insert_eq by done. done.
Qed.

End ReadCsvChunks.

Lemma read_csv_chunks_witness :
  ∃ df,
    Csv.read_csv Csv.columns_of "t" [Csv.file_ab; Csv.file_cd] 4 ∅ = Py.ret df ∧
    Graph._meta df = ["a"; "b"] ∧
    Graph.dask df
      = imap (λ i c, (Graph.Key2 "read-csv-t" i,
                      Graph.ReadCsv (Csv.path c.1)
                        (Csv.chunk_kwargs ["a"; "b"] 4 ∅ c.2)))
          (Csv.all_chunks [Csv.file_ab; Csv.file_cd] 4).
Proof.
  refine (proj1 (read_csv_chunks Csv.columns_of "t"
                   [Csv.file_ab; Csv.file_cd] 4 ∅ Csv.file_ab eq_refl _)).
  lia.
Defined.

(** ** The binned sort *)

Section BinnedSortExclusive.
Import Py BinnedSort.

Lemma elem_of_get_unique (p : partition) (v : Z) :
  v ∈ get_unique p ↔ ∃ r, r ∈ p ∧ r.1 = v.
Proof.
  unfold get_unique. rewrite elem_of_list_to_set, list_elem_of_fmap.
  naive_solver.
Qed.

Lemma sort_total_contiguous parts :
  sort_total parts → contiguous (get_unique <$> parts).
Proof.
  intros [Hord Htail] i k j ci ck cj v [Hik Hkj].
  rewrite !list_lookup_fmap. intros Hi Hk Hj Hvi Hvj.
  destruct (parts !! i) as [pi|] eqn:Hpi; simplify_eq/=.
  destruct (parts !! k) as [pk|] eqn:Hpk; simplify_eq/=.
  destruct (parts !! j) as [pj|] eqn:Hpj; simplify_eq/=.
  apply elem_of_get_unique in Hvi as (ri & Hri & <-).
  apply elem_of_get_unique in Hvj as (rj & Hrj & Heq).
  destruct pk as [|r pk].
  { rewrite (Htail k j pj Hkj Hpk Hpj) in Hrj. by apply elem_of_nil in Hrj. }
  apply elem_of_get_unique. exists r. split; [by left|].
  assert (ri.1 ≤ r.1) by (eapply (Hord i k); [done..|by left]).
  assert (r.1 ≤ rj.1) by (eapply (Hord k j); [done..|by left|done]).
  lia.
Qed.

(** *** The first loop *)

Lemma elem_of_dict_set {K V} `{EqDecision K} (d : dict K V) k v :
  (k, v) ∈ dict_set d k v.
Proof.
  induction d as [|[k' v'] d IH]; simpl; [by left|].
  case_decide; [by left|by right].
Qed.

Lemma elem_of_dict_set_ne {K V} `{EqDecision K} (d : dict K V) k v k' v' :
  k ≠ k' → (k, v) ∈ d → (k, v) ∈ dict_set d k' v'.
Proof.
  intros Hne. induction d as [|[k0 v0] d IH]; simpl;
    [by intros ?%elem_of_nil|].
  intros [[= -> ->]|Hin]%elem_of_cons.
  - case_decide; [congruence|by left].
  - case_decide; right; [done|by apply IH].
Qed.

Lemma elem_of_dict_set_inv {K V} `{EqDecision K} (d : dict K V) k v k' v' :
  (k, v) ∈ dict_set d k' v' → (k, v) ∈ d ∨ (k = k' ∧ v = v').
Proof.
  induction d as [|[k0 v0] d IH]; simpl.
  - intros [= -> ->]%list_elem_of_singleton. by right.
  - case_decide.
    + intros [[= -> ->]|Hin]%elem_of_cons; [by right|left; by right].
    + intros [[= -> ->]|Hin]%elem_of_cons; [left; by left|].
      destruct (IH Hin) as [?|?]; [left; by right|by right].
Qed.

(** The inner loop removes the keys of [a = uniques[i]] from the
    partitions [s], ..., [stop - 1], records them, and stops at the first
    partition that shares no key with [a]. *)
Lemma scan_following_spec i a m s u tj u' tj' :
  u !! i = Some a → (i < s)%nat → (s + m ≤ length u)%nat →
  scan_following i (seq s m) u tj = (u', tj') →
  ∃ stop, (s ≤ stop ≤ s + m)%nat ∧
    length u' = length u ∧
    (∀ k, (s ≤ k < stop)%nat →
       ∃ c, u !! k = Some c ∧ a ∩ c ≠ ∅ ∧ u' !! k = Some (c ∖ (a ∩ c))) ∧
    (∀ k, ¬ (s ≤ k < stop)%nat → u' !! k = u !! k) ∧
    ((stop < s + m)%nat → ∃ c, u !! stop = Some c ∧ a ∩ c = ∅) ∧
    (∀ j I, (j, I) ∈ tj' →
       (j, I) ∈ tj ∨
       ((s ≤ j < stop)%nat ∧ ∃ c, u !! j = Some c ∧ I = a ∩ c)) ∧
    (∀ j I, (j, I) ∈ tj → (j < s)%nat → (j, I) ∈ tj') ∧
    (∀ j c, (s ≤ j < stop)%nat → u !! j = Some c → (j, a ∩ c) ∈ tj').
Proof.
  intros Ha His. revert s u tj His Ha.
  induction m as [|m IH]; intros s u tj His Ha Hlen; simpl.
  { intros [= <- <-]. exists s. split; [lia|]. split; [done|].
    split; [intros; lia|]. split; [done|]. split; [intros; lia|].
    split; [eauto|]. split; [done|]. intros; lia. }
  rewrite Ha. destruct (lookup_lt_is_Some_2 u s) as [b Hb]; [lia|].
  rewrite Hb. case_decide as Hint.
  - intros Hscan. apply IH in Hscan; [|lia| |].
    2:{ rewrite list_lookup_insert_ne by lia. done. }
    2:{ rewrite length_insert. lia. }
    destruct Hscan as (stop & Hstop & Hl & Hin & Hout & Hbreak & Htj & Hold & Hnew).
    rewrite length_insert in Hl.
    exists stop. split; [lia|]. split; [done|]. split; [|split; [|split; [|split; [|split]]]].
    + intros k Hk. destruct (decide (k = s)) as [->|Hks].
      * exists b. split; [done|]. split; [done|].
        rewrite Hout by lia. rewrite list_lookup_insert_eq; [done|].
        by eapply lookup_lt_Some.
      * destruct (Hin k) as (c & Hc & ? & ?); [lia|].
        rewrite list_lookup_insert_ne in Hc by done. eauto.
    + intros k Hk. rewrite Hout by lia.
      rewrite list_lookup_insert_ne; [done|lia].
    + intros Hlt. destruct Hbreak as (c & Hc & ?); [lia|].
      rewrite list_lookup_insert_ne in Hc by lia. eauto.
    + intros j I Hj. destruct (Htj j I Hj) as [Hold'|[Hr (c & Hc & ->)]].
      * apply elem_of_dict_set_inv in Hold' as [?|[-> ->]]; [by left|].
        right. split; [lia|]. eauto.
      * right. split; [lia|]. rewrite list_lookup_insert_ne in Hc by lia. eauto.
    + intros j I Hj Hjs. apply Hold; [|lia].
      apply elem_of_dict_set_ne; [lia|done].
    + intros j c Hj Hc. destruct (decide (j = s)) as [->|Hjs].
      * simplify_eq. apply Hold; [|lia]. apply elem_of_dict_set.
      * apply Hnew; [lia|]. by rewrite list_lookup_insert_ne.
  - intros [= <- <-]. exists s. split; [lia|]. split; [done|].
    split; [intros; lia|]. split; [done|]. split.
    { intros _. exists b. split; [done|].
      destruct (decide (a ∩ b = ∅)); [done|]. by destruct Hint. }
    split; [eauto|]. split; [done|]. intros; lia.
Qed.

Lemma joiner_step_inv originals i u J :
  (i < length originals)%nat →
  joiner_inv originals i u J →
  joiner_inv originals (S i)
    (joiner_step (length originals) (u, J) i).1
    (joiner_step (length originals) (u, J) i).2.
Proof.
  intros Hi (Hlen & HJ & Hsub & Hdisj & Hmoved & Hpull).
  unfold joiner_step. cbn [fst snd].
  destruct (scan_following _ _ _ _) as [u' tj] eqn:Hscan. cbn [fst snd].
  destruct (lookup_lt_is_Some_2 u i) as [a Ha]; [lia|].
  apply (scan_following_spec i a) in Hscan; [|done|lia|lia].
  destruct Hscan
    as (stop & Hstop & Hl & Hin & Hout & Hbreak & Htj & _ & Hnew).
  assert (∀ k, (k ≤ i)%nat → u' !! k = u !! k) as Hlow.
  { intros k Hk. apply Hout. lia. }
  assert (∀ k c', u' !! k = Some c' →
            ∃ c, u !! k = Some c ∧ c' ⊆ c ∧
                 (c' = c ∨ ((S i ≤ k < stop)%nat ∧ c' = c ∖ (a ∩ c))))
    as Hrel.
  { intros k c' Hk.
    destruct (decide (S i ≤ k < stop)%nat) as [Hr|Hr].
    - destruct (Hin k Hr) as (c & Hc & _ & Hc').
      rewrite Hk in Hc'. injection Hc' as ->.
      exists c. split; [done|]. split; [clear; set_solver|]. by right.
    - rewrite (Hout k Hr) in Hk. exists c'. split; [done|].
      split; [done|]. by left. }
  split; [lia|]. split; [rewrite length_app; simpl; lia|].
  split; [|split; [|split]].
  - intros k c' c0 Hk Hk0. destruct (Hrel k c' Hk) as (c & Hc & Hcc & _).
    specialize (Hsub k c c0 Hc Hk0). clear -Hcc Hsub. set_solver.
  - intros Hcontig x y cx cy Hx Hxy Hux Huy.
    specialize (Hdisj Hcontig).
    destruct (Hrel y cy Huy) as (c & Hc & Hcc & Hy).
    destruct (decide (x = i)) as [Heq|Hxi]; [subst x|].
    + rewrite Hlow, Ha in Hux by lia. injection Hux as <-.
      destruct Hy as [->|[Hr ->]]; [|clear; set_solver].
      destruct (decide (y < stop)%nat) as [Hys|Hys].
      { destruct (Hin y) as (c' & Hc' & _ & Hy'); [lia|].
        rewrite Huy in Hy'. injection Hy' as ->. clear. set_solver. }
      apply lookup_lt_Some in Huy as Hylen.
      destruct Hbreak as (cs & Hcs & Hempty); [lia|].
      destruct (decide (y = stop)) as [Heq|Hne].
      { subst y. rewrite Hc in Hcs. by injection Hcs as ->. }
      apply leibniz_equiv. intros v. split; [|by intros ?%elem_of_empty].
      intros [Hva Hvc]%elem_of_intersection. exfalso.
      destruct (lookup_lt_is_Some_2 originals i) as [ci Hci]; [lia|].
      destruct (lookup_lt_is_Some_2 originals stop) as [cs0 Hcs0]; [lia|].
      destruct (lookup_lt_is_Some_2 originals y) as [cy0 Hcy0]; [lia|].
      assert (v ∈ cs0) as Hvs.
      { eapply (Hcontig i stop y); [lia|done..| |].
        - by eapply (Hsub i).
        - by eapply (Hsub y). }
      destruct (Hmoved stop cs cs0 v Hcs0 Hcs Hvs)
        as (x' & cx' & _ & _ & Hx'i & _ & Hux' & Hvx' & _);
        [clear -Hempty Hva; set_solver|].
      specialize (Hdisj x' i cx' a Hx'i Hx'i Hux' Ha).
      clear -Hdisj Hvx' Hva. set_solver.
    + rewrite Hlow in Hux by lia.
      specialize (Hdisj x y cx c ltac:(lia) Hxy Hux Hc).
      clear -Hdisj Hcc. set_solver.
  - intros k c' c0 v Hk0 Hk Hv0 Hv.
    destruct (Hrel k c' Hk) as (c & Hc & Hcc & Hy).
    destruct (decide (v ∈ c)) as [Hvc|Hvc].
    + destruct Hy as [->|[Hr ->]]; [done|].
      exists i, a, tj, (a ∩ c). split; [lia|]. split; [lia|].
      assert (v ∈ a) as Hva.
      { clear -Hv Hvc. destruct (decide (v ∈ a)); [done|]. set_solver. }
      split; [by rewrite Hlow|]. split; [done|].
      split; [by rewrite lookup_app_r, HJ, Nat.sub_diag by lia|].
      split; [by apply Hnew|]. clear -Hva Hvc. set_solver.
    + destruct (Hmoved k c c0 v Hk0 Hc Hv0 Hvc)
        as (x & cx & tjx & I & Hxi & Hxk & Hux & Hvx & HJx & HI & HvI).
      exists x, cx, tjx, I. split; [lia|]. split; [done|].
      split; [by rewrite Hlow by lia|]. split; [done|].
      split; [by rewrite lookup_app_l by lia|]. done.
  - intros x tjx j I cx HJx HI Hux.
    destruct (decide (x < i)%nat) as [Hxi|Hxi].
    + rewrite lookup_app_l in HJx by lia. rewrite Hlow in Hux by lia.
      by eapply Hpull.
    + apply lookup_lt_Some in HJx as Hxlen.
      rewrite length_app in Hxlen. simpl in Hxlen.
      assert (x = i) as Heq by lia. subst x.
      rewrite lookup_app_r, HJ, Nat.sub_diag in HJx by lia.
      rewrite Hlow, Ha in Hux by lia. simpl in HJx.
      injection HJx as <-. injection Hux as <-.
      destruct (Htj j I HI) as [Hnil|[Hr (c & Hc & ->)]].
      { by apply elem_of_nil in Hnil. }
      split; [lia|clear; set_solver].
Qed.

Lemma joiner_inv_init originals : joiner_inv originals 0 originals [].
Proof.
  split; [done|]. split; [done|]. split; [|split; [|split]].
  - intros k c c0 ??. by simplify_eq.
  - intros; lia.
  - intros k c c0 v ????. by simplify_eq.
  - intros a to_join j I ca H. by rewrite lookup_nil in H.
Qed.

Lemma build_joiner_inv originals :
  joiner_inv originals (length originals)
    (build_joiner originals).1 (build_joiner originals).2.
Proof.
  unfold build_joiner.
  assert (∀ m i u J,
    (i + m = length originals)%nat → joiner_inv originals i u J →
    joiner_inv originals (length originals)
      (foldl (joiner_step (length originals)) (u, J) (seq i m)).1
      (foldl (joiner_step (length originals)) (u, J) (seq i m)).2) as H.
  { induction m as [|m IH]; intros i u J Him Hinv; simpl.
    - by replace (length originals) with i by lia.
    - pose proof (joiner_step_inv originals i u J ltac:(lia) Hinv) as Hstep.
      destruct (joiner_step (length originals) (u, J) i) as [u' J'].
      apply IH; [lia|done]. }
  apply H; [done|apply joiner_inv_init].
Qed.

(** *** The second loop *)

Lemma elem_of_join (df other : partition) (keys : gset Z) (r : row) :
  r ∈ join df other keys ↔ r ∈ df ∨ (r ∈ other ∧ r.1 ∈ keys).
Proof.
  unfold join. rewrite elem_of_app, list_elem_of_join.
  split.
  - intros [?|(l & Hr & Hl)]; [by left|right].
    apply list_elem_of_fmap in Hl as (k & -> & Hk).
    apply list_elem_of_filter in Hr as [<- Hr]. split; [done|].
    rewrite merge_sort_Permutation in Hk. by apply elem_of_elements in Hk.
  - intros [?|[Hr Hk]]; [by left|right].
    exists (filter (λ r', r'.1 = r.1) other). split.
    + by apply list_elem_of_filter.
    + apply list_elem_of_fmap. exists r.1. split; [done|].
      rewrite merge_sort_Permutation. by apply elem_of_elements.
Qed.

Lemma elem_of_join_all parts (p : partition) tj (r : row) :
  r ∈ join_all parts p tj ↔
  r ∈ p ∨ ∃ k I other,
    (k, I) ∈ tj ∧ parts !! k = Some other ∧ r ∈ other ∧ r.1 ∈ I.
Proof.
  unfold join_all. revert p.
  induction tj as [|[k I] tj IH]; intros p; simpl.
  { split; [by left|]. intros [?|(? & ? & ? & []%elem_of_nil & _)]. done. }
  rewrite IH. destruct (parts !! k) as [other|] eqn:Hk.
  - rewrite elem_of_join. split.
    + intros [[?|[??]]|(k' & I' & o' & ? & ? & ? & ?)].
      * by left.
      * right. exists k, I, other. split; [by left|done].
      * right. exists k', I', o'. split; [by right|done].
    + intros [?|(k' & I' & o' & [[= -> ->]|?]%elem_of_cons & Ho & ? & ?)].
      * left. by left.
      * simplify_eq. left. by right.
      * right. by exists k', I', o'.
  - split.
    + intros [?|(k' & I' & o' & ? & ? & ? & ?)]; [by left|].
      right. exists k', I', o'. split; [by right|done].
    + intros [?|(k' & I' & o' & [[= -> ->]|?]%elem_of_cons & Ho & ? & ?)].
      * by left.
      * congruence.
      * right. by exists k', I', o'.
Qed.

Lemma join_all_agree parts1 parts2 (p : partition) tj :
  (∀ k I, (k, I) ∈ tj → parts1 !! k = parts2 !! k) →
  join_all parts1 p tj = join_all parts2 p tj.
Proof.
  unfold join_all. revert p. induction tj as [|[k I] tj IH]; intros p H;
    simpl; [done|].
  rewrite (H k I) by by left. apply IH. intros k' I' ?. apply (H k' I').
  by right.
Qed.

(** The joins of one partition, done in place, amount to [join_all]. *)
Lemma consolidate_joins (parts : list partition) i tj :
  (∀ k I, (k, I) ∈ tj → k ≠ i) →
  foldl (λ parts je,
           match parts !! je.1 with
           | Some other => alter (λ p, join p other je.2) i parts
           | None => parts
           end) parts tj
  = alter (λ p, join_all parts p tj) i parts.
Proof.
  revert parts. induction tj as [|[k I] tj IH]; intros parts Hne; simpl.
  { symmetry. apply list_alter_id. done. }
  assert (k ≠ i) as Hki by (apply (Hne k I); by left).
  assert (∀ k' I', (k', I') ∈ tj → k' ≠ i) as Hne'.
  { intros k' I' ?. apply (Hne k' I'). by right. }
  unfold join_all. simpl. fold (join_all parts).
  destruct (parts !! k) as [other|] eqn:Hk.
  - rewrite IH by done. rewrite list_alter_alter_eq.
    apply list_alter_ext; [|done]. intros p _. simpl.
    apply join_all_agree. intros k' I' Hin.
    apply list_lookup_alter_ne. intros ->. by eapply Hne'.
  - by rewrite IH.
Qed.

Lemma consolidate_alter uniques joiner (parts : list partition) i :
  (∀ to_join k I, joiner !! i = Some to_join → (k, I) ∈ to_join → k ≠ i) →
  consolidate uniques joiner parts i
  = alter (consolidated parts uniques joiner i) i parts.
Proof.
  intros Hne. unfold consolidate, consolidated.
  destruct (uniques !! i) as [u|]; [|by rewrite list_alter_id].
  case_decide; [|by rewrite list_alter_id].
  assert (∀ k I, (k, I) ∈ default [] (joiner !! i) → k ≠ i) as Hne'.
  { destruct (joiner !! i) as [tj|]; simpl; [by eauto|].
    by intros ?? ?%elem_of_nil. }
  rewrite consolidate_joins by done. rewrite list_alter_alter_eq.
  apply list_alter_ext; [|done]. intros p _. simpl.
  apply join_all_agree. intros k I Hin.
  apply list_lookup_alter_ne. intros ->. by eapply Hne'.
Qed.

(** After the second loop has handled the partitions below [m], these
    are consolidated from the sorted partitions and the others are as
    they were. *)
Lemma consolidate_all uniques joiner (parts : list partition) m :
  (∀ a to_join k I,
     joiner !! a = Some to_join → (k, I) ∈ to_join → (a < k)%nat) →
  ∀ k, foldl (consolidate uniques joiner) parts (seq 0 m) !! k
       = if decide (k < m)%nat
         then consolidated parts uniques joiner k <$> parts !! k
         else parts !! k.
Proof.
  intros Hlater. induction m as [|m IH]; intros k.
  { rewrite decide_False by lia. done. }
  rewrite seq_S, foldl_app. cbn [foldl Nat.add].
  set (R := foldl (consolidate uniques joiner) parts (seq 0 m)) in *.
  rewrite consolidate_alter.
  2:{ intros tj k' I Htj Hin. specialize (Hlater m tj k' I Htj Hin). lia. }
  destruct (decide (k = m)) as [->|Hkm].
  - rewrite list_lookup_alter_eq, IH.
    rewrite decide_False, decide_True by lia.
    destruct (parts !! m) as [p|]; [|done]. simpl. f_equal.
    unfold consolidated. destruct (uniques !! m); [|done].
    case_decide; [|done]. apply join_all_agree. intros k I Hin.
    rewrite IH. rewrite decide_False; [done|].
    destruct (joiner !! m) as [tj|] eqn:Htj; simpl in Hin.
    + specialize (Hlater m tj k I Htj Hin). lia.
    + by apply elem_of_nil in Hin.
  - rewrite list_lookup_alter_ne by done. rewrite IH.
    destruct (decide (k < m)%nat);
      [rewrite decide_True by lia|rewrite decide_False by lia]; done.
Qed.

Lemma build_joiner_later (originals : list (gset Z)) a to_join k I :
  (build_joiner originals).2 !! a = Some to_join → (k, I) ∈ to_join →
  (a < k)%nat.
Proof.
  pose proof (build_joiner_inv originals) as (Hlen & HJ & _ & _ & _ & Hpull).
  intros Htj Hin.
  destruct (lookup_lt_is_Some_2 (build_joiner originals).1 a) as [ca Hca].
  { apply lookup_lt_Some in Htj. lia. }
  by destruct (Hpull a to_join k I ca Htj Hin Hca) as [[? _] _].
Qed.

(** The partitions after the second loop. *)
Lemma consolidated_parts (parts : list partition) k :
  foldl (consolidate (build_joiner (get_unique <$> parts)).1
           (build_joiner (get_unique <$> parts)).2)
    parts (seq 0 (length parts)) !! k
  = consolidated parts (build_joiner (get_unique <$> parts)).1
      (build_joiner (get_unique <$> parts)).2 k <$> parts !! k.
Proof.
  rewrite consolidate_all by apply build_joiner_later.
  case_decide as Hk; [done|].
  by rewrite lookup_ge_None_2 by lia.
Qed.

(** What [sort_values_binned] returns: partition [i] is kept when its
    final key-set [u] is not empty, as its rows with a key of [u]
    followed by the rows that [joiner[i]] pulls. *)
Lemma sort_values_binned_lookup (parts : list partition) a (o : partition) :
  sort_values_binned parts !! a = Some o →
  ∃ i p u,
    parts !! i = Some p ∧
    (build_joiner (get_unique <$> parts)).1 !! i = Some u ∧ u ≠ ∅ ∧
    o = join_all parts (drop p u)
          (default [] ((build_joiner (get_unique <$> parts)).2 !! i)).
Proof.
  unfold sort_values_binned.
  pose proof (consolidated_parts parts) as Hparts.
  destruct (build_joiner (get_unique <$> parts)) as [U J]. cbn [fst snd] in *.
  unfold results. intros (i & [i' p'] & Hin & Hkept)%omap_lookup_source.
  rewrite list_lookup_imap, Hparts in Hin.
  destruct (parts !! i) as [p|] eqn:Hp; [|done]. simpl in Hin.
  injection Hin as <- <-. simpl in Hkept. unfold consolidated in Hkept.
  destruct (U !! i) as [u|] eqn:Hu; [|done].
  case_decide; [|done]. injection Hkept as <-.
  by exists i, p, u.
Qed.

Lemma sort_values_binned_kept (parts : list partition) i p u :
  parts !! i = Some p →
  (build_joiner (get_unique <$> parts)).1 !! i = Some u → u ≠ ∅ →
  join_all parts (drop p u)
    (default [] ((build_joiner (get_unique <$> parts)).2 !! i))
  ∈ sort_values_binned parts.
Proof.
  intros Hp Hu Hne. unfold sort_values_binned.
  pose proof (consolidated_parts parts) as Hparts.
  destruct (build_joiner (get_unique <$> parts)) as [U J]. cbn [fst snd] in *.
  unfold results. apply list_elem_of_omap.
  exists (i, consolidated parts U J i p). split.
  - apply elem_of_lookup_imap. eexists i, _. split; [done|].
    by rewrite Hparts, Hp.
  - simpl. rewrite Hu. rewrite decide_True by done.
    unfold consolidated. rewrite Hu. by rewrite decide_True by done.
Qed.

(** Two partitions of the result come from two different partitions of
    the input, in the same order. *)
Lemma sort_values_binned_lookup_lt (parts : list partition) a b
    (o1 o2 : partition) :
  (a < b)%nat →
  sort_values_binned parts !! a = Some o1 →
  sort_values_binned parts !! b = Some o2 →
  ∃ i j p q u1 u2,
    (i < j)%nat ∧
    parts !! i = Some p ∧ parts !! j = Some q ∧
    (build_joiner (get_unique <$> parts)).1 !! i = Some u1 ∧
    (build_joiner (get_unique <$> parts)).1 !! j = Some u2 ∧
    o1 = join_all parts (drop p u1)
           (default [] ((build_joiner (get_unique <$> parts)).2 !! i)) ∧
    o2 = join_all parts (drop q u2)
           (default [] ((build_joiner (get_unique <$> parts)).2 !! j)).
Proof.
  unfold sort_values_binned.
  pose proof (consolidated_parts parts) as Hparts.
  destruct (build_joiner (get_unique <$> parts)) as [U J]. cbn [fst snd] in *.
  unfold results. intros Hab Ha Hb.
  destruct (omap_lookup_lt _ _ a b o1 o2 Hab Ha Hb)
    as (i & j & [i' p'] & [j' q'] & Hij & Hi & Hj & Hk1 & Hk2).
  rewrite list_lookup_imap, Hparts in Hi.
  rewrite list_lookup_imap, Hparts in Hj.
  destruct (parts !! i) as [p|] eqn:Hp; [|done].
  destruct (parts !! j) as [q|] eqn:Hq; [|done].
  simpl in Hi, Hj. injection Hi as <- <-. injection Hj as <- <-.
  simpl in Hk1, Hk2. unfold consolidated in Hk1, Hk2.
  destruct (U !! i) as [u1|] eqn:Hu1; [|done].
  destruct (U !! j) as [u2|] eqn:Hu2; [|done].
  case_decide; [|done]. case_decide; [|done].
  injection Hk1 as <-. injection Hk2 as <-.
  by exists i, j, p, q, u1, u2.
Qed.

(** The rows of a kept partition have a key of its final key-set. *)
Lemma consolidated_keys (parts : list partition) i p u (r : row) :
  (build_joiner (get_unique <$> parts)).1 !! i = Some u →
  r ∈ join_all parts (drop p u)
        (default [] ((build_joiner (get_unique <$> parts)).2 !! i)) →
  r.1 ∈ u.
Proof.
  intros Hu.
  pose proof (build_joiner_inv (get_unique <$> parts))
    as (_ & _ & _ & _ & _ & Hpull).
  intros [Hr|(k & I & other & Hin & _ & _ & HI)]%elem_of_join_all.
  - by apply list_elem_of_filter in Hr as [? _].
  - destruct ((build_joiner (get_unique <$> parts)).2 !! i) as [tj|] eqn:Htj;
      simpl in Hin; [|by apply elem_of_nil in Hin].
    destruct (Hpull i tj k I u Htj Hin Hu) as [_ Hsub]. by apply Hsub.
Qed.

(** Binned sort, exclusivity.  When the sorted partitions satisfy
    [sort_total], no key occurs in two different partitions of the
    result of [sort_values_binned]. *)
Theorem binned_sort_exclusive (parts : list partition) :
  sort_total parts → exclusive (sort_values_binned parts).
Proof.
  intros Htotal%sort_total_contiguous.
  pose proof (build_joiner_inv (get_unique <$> parts))
    as (Hlen & _ & _ & Hdisj & _).
  specialize (Hdisj Htotal).
  assert (∀ a b o1 o2 (r s : row),
    (a < b)%nat →
    sort_values_binned parts !! a = Some o1 →
    sort_values_binned parts !! b = Some o2 →
    r ∈ o1 → s ∈ o2 → r.1 ≠ s.1) as Hlt.
  { intros a b o1 o2 r s Hab Ha Hb Hr Hs Heq.
    destruct (sort_values_binned_lookup_lt parts a b o1 o2 Hab Ha Hb)
      as (i & j & p & q & u1 & u2 & Hij & Hp & Hq & Hu1 & Hu2 & -> & ->).
    apply (consolidated_keys parts i p u1 r Hu1) in Hr.
    apply (consolidated_keys parts j q u2 s Hu2) in Hs.
    assert (u1 ∩ u2 = ∅) as Hempty.
    { apply (Hdisj i j); [|done..]. apply lookup_lt_Some in Hu1. lia. }
    rewrite Heq in Hr. clear -Hr Hs Hempty. set_solver. }
  intros a b p q r s Ha Hb Hab Hr Hs.
  destruct (decide (a < b)%nat).
  - by eapply (Hlt a b).
  - intros Heq. eapply (Hlt b a); [lia|done..].
Qed.

Lemma binned_sort_exclusive_witness :
  exclusive (sort_values_binned straddling).
Proof.
  apply binned_sort_exclusive. split.
  - intros i j p q r s Hij Hi Hj Hr Hs.
    destruct i as [|[|[|i]]]; destruct j as [|[|[|j]]];
      simpl in Hi, Hj; try lia; try discriminate;
      injection Hi as <-; injection Hj as <-;
      repeat (apply elem_of_cons in Hr as [->|Hr]);
      try (by apply elem_of_nil in Hr);
      repeat (apply elem_of_cons in Hs as [->|Hs]);
      try (by apply elem_of_nil in Hs); simpl; lia.
  - intros i j q Hij Hi Hj.
    destruct i as [|[|[|i]]]; simpl in Hi; discriminate.
Defined.

(** Binned sort, rows.  A row is in a partition of the result exactly
    when it is in a partition of the input: no row is lost and none is
    invented, whatever the input. *)
Theorem binned_sort_rows (parts : list partition) (r : row) :
  (∃ o, o ∈ sort_values_binned parts ∧ r ∈ o) ↔
  (∃ p, p ∈ parts ∧ r ∈ p).
Proof.
  pose proof (build_joiner_inv (get_unique <$> parts))
    as (Hlen & _ & _ & _ & Hmoved & _).
  rewrite length_fmap in Hlen. split.
  - intros (o & [a Ha]%list_elem_of_lookup_1 & Hr).
    apply sort_values_binned_lookup in Ha as (i & p & u & Hp & _ & _ & ->).
    apply elem_of_join_all in Hr as [Hr|(k & I & other & _ & Hk & Hr & _)].
    + exists p. split; [by eapply list_elem_of_lookup_2|].
      by apply list_elem_of_filter in Hr as [_ ?].
    + exists other. split; [by eapply list_elem_of_lookup_2|done].
  - intros (p & [k Hk]%list_elem_of_lookup_1 & Hr).
    destruct (lookup_lt_is_Some_2 (build_joiner (get_unique <$> parts)).1 k)
      as [c Hc].
    { apply lookup_lt_Some in Hk. lia. }
    assert (r.1 ∈ get_unique p) as Hv by (apply elem_of_get_unique; eauto).
    destruct (decide (r.1 ∈ c)) as [Hin|Hout].
    + eexists. split.
      * apply (sort_values_binned_kept parts k p c Hk Hc).
        clear -Hin. set_solver.
      * apply elem_of_join_all. left. by apply list_elem_of_filter.
    + destruct (Hmoved k c (get_unique p) r.1)
        as (a & ca & tj & I & _ & Hak & Hca & Hva & Htj & HkI & HvI);
        [by rewrite list_lookup_fmap, Hk|done..|].
      destruct (lookup_lt_is_Some_2 parts a) as [pa Hpa].
      { apply lookup_lt_Some in Hk. lia. }
      eexists. split.
      * apply (sort_values_binned_kept parts a pa ca Hpa Hca).
        clear -Hva. set_solver.
      * apply elem_of_join_all. right. exists k, I, p.
        unfold dict in *. rewrite Htj. done.
Qed.

(** Binned sort, empty partitions.  No partition of the result is empty:
    a partition that lost all its keys to earlier ones is left out. *)
Theorem binned_sort_nonempty (parts : list partition) :
  Forall (λ o, o ≠ []) (sort_values_binned parts).
Proof.
  pose proof (build_joiner_inv (get_unique <$> parts))
    as (_ & _ & Hsub & _).
  apply Forall_forall. intros o [a Ha]%list_elem_of_lookup_1.
  apply sort_values_binned_lookup in Ha as (i & p & u & Hp & Hu & Hne & ->).
  assert (u ⊆ get_unique p) as Hup.
  { apply (Hsub i); [done|]. by rewrite list_lookup_fmap, Hp. }
  destruct (set_choose_L u Hne) as [v Hv].
  pose proof (Hup v Hv) as Hr.
  apply elem_of_get_unique in Hr as (r & Hr & Heq).
  assert (r ∈ join_all parts (drop p u)
            (default [] ((build_joiner (get_unique <$> parts)).2 !! i)))
    as Hin.
  { apply elem_of_join_all. left. apply list_elem_of_filter.
    split; [by rewrite Heq|done]. }
  intros Hnil. rewrite Hnil in Hin. by apply elem_of_nil in Hin.
Qed.


End BinnedSortExclusive.

(** ** What the repair loop does to the keys *)

Section AlignRepairKeys.
Import Py Graph Align.

Lemma elem_of_union_list_lookup (l : list (gset Z)) (v : Z) :
  v ∈ ⋃ l ↔ ∃ k s, l !! k = Some s ∧ v ∈ s.
Proof.
  rewrite elem_of_union_list. split.
  - intros (s & [k Hk]%list_elem_of_lookup_1 & Hv). eauto.
  - intros (k & s & Hk & Hv). exists s. split; [|done].
    by eapply list_elem_of_lookup_2.
Qed.

(** A step touches the two key-sets at [i] and [i + 1] only.  When they
    share keys, the shared keys leave the longer of the two and, when
    the two are equally long, the one at [i]; the other one is as it
    was. *)
Lemma repair_step_lookup us changed i a b :
  us !! i = Some a → us !! S i = Some b →
  let us' := (repair_step (us, changed) i).1 in
  length us' = length us ∧
  (∀ k, k ≠ i → k ≠ S i → us' !! k = us !! k) ∧
  ((a ∩ b = ∅ ∧ us' !! i = Some a ∧ us' !! S i = Some b)
   ∨ (a ∩ b ≠ ∅ ∧ (size b ≤ size a)%nat ∧
      us' !! i = Some (a ∖ (a ∩ b)) ∧ us' !! S i = Some b)
   ∨ (a ∩ b ≠ ∅ ∧ (size a < size b)%nat ∧
      us' !! i = Some a ∧ us' !! S i = Some (b ∖ (a ∩ b)))).
Proof.
  intros Ha Hb. unfold repair_step. rewrite Ha, Hb.
  assert (a ∪ a ∩ b = a) as Hua by (clear; set_solver).
  assert (b ∪ a ∩ b = b) as Hub by (clear; set_solver).
  assert ((a ∪ a ∩ b) ∖ (a ∩ b) = a ∖ (a ∩ b)) as Hda by (by rewrite Hua).
  case_decide as Hint; cbn [fst].
  { split; [done|]. split; [done|]. left. done. }
  destruct (decide (size a ≤ size b)%nat) as [Hab|Hab];
    destruct (decide (size b ≤ size a)%nat) as [Hba|Hba]; [| | |lia].
  - split; [by rewrite !length_alter|]. split.
    { intros k ??. by rewrite !list_lookup_alter_ne. }
    right. left. split; [done|]. split; [done|].
    rewrite !list_lookup_alter_eq, Ha. simpl. rewrite Hda.
    split; [done|]. by rewrite !list_lookup_alter_ne, Hb by lia.
  - split; [by rewrite !length_alter|]. split.
    { intros k ??. by rewrite !list_lookup_alter_ne. }
    right. right. split; [done|]. split; [lia|].
    rewrite list_lookup_alter_ne, list_lookup_alter_eq, Ha by lia.
    simpl. rewrite Hua. split; [done|].
    rewrite list_lookup_alter_eq, list_lookup_alter_ne, Hb by lia. done.
  - split; [by rewrite !length_alter|]. split.
    { intros k ??. by rewrite !list_lookup_alter_ne. }
    right. left. split; [done|]. split; [done|].
    rewrite list_lookup_alter_eq, list_lookup_alter_ne, Ha by lia.
    split; [done|].
    rewrite list_lookup_alter_ne, list_lookup_alter_eq, Hb by lia.
    simpl. by rewrite Hub.
Qed.

Lemma keeps_keys_refl us : keeps_keys us us.
Proof. split; [done|]. split; [|done]. intros k s s' ??. by simplify_eq. Qed.

Lemma keeps_keys_trans us1 us2 us3 :
  keeps_keys us1 us2 → keeps_keys us2 us3 → keeps_keys us1 us3.
Proof.
  intros (Hl1 & Hs1 & Hu1) (Hl2 & Hs2 & Hu2).
  split; [congruence|]. split; [|congruence].
  intros k s s3 Hk1 Hk3.
  destruct (lookup_lt_is_Some_2 us2 k) as [s2 Hk2].
  { apply lookup_lt_Some in Hk1. lia. }
  specialize (Hs1 k s s2 Hk1 Hk2). specialize (Hs2 k s2 s3 Hk2 Hk3).
  clear -Hs1 Hs2. set_solver.
Qed.

Lemma repair_step_keeps us changed i :
  keeps_keys us (repair_step (us, changed) i).1.
Proof.
  destruct (us !! i) as [a|] eqn:Ha;
    [|unfold repair_step; rewrite Ha; apply keeps_keys_refl].
  destruct (us !! S i) as [b|] eqn:Hb;
    [|unfold repair_step; rewrite Ha, Hb; apply keeps_keys_refl].
  destruct (repair_step_lookup us changed i a b Ha Hb)
    as (Hlen & Hother & Hcases).
  set (us' := (repair_step (us, changed) i).1) in *.
  assert (∃ a' b', us' !! i = Some a' ∧ us' !! S i = Some b' ∧
            a' ⊆ a ∧ b' ⊆ b ∧ a' ∪ b' = a ∪ b) as (a' & b' & Ha' & Hb' & Hsa & Hsb & Hun).
  { destruct Hcases as [(_ & ? & ?)|[(_ & _ & ? & ?)|(_ & _ & ? & ?)]].
    - exists a, b. done.
    - exists (a ∖ (a ∩ b)), b. split; [done|]. split; [done|].
      split; [clear; set_solver|]. split; [done|].
      apply leibniz_equiv. intros v. clear.
      destruct (decide (v ∈ b)); set_solver.
    - exists a, (b ∖ (a ∩ b)). split; [done|]. split; [done|].
      split; [done|]. split; [clear; set_solver|].
      apply leibniz_equiv. intros v. clear.
      destruct (decide (v ∈ a)); set_solver. }
  split; [done|]. split.
  - intros k s s' Hk Hk'.
    destruct (decide (k = i)) as [->|Hki]; [by simplify_eq|].
    destruct (decide (k = S i)) as [->|Hks]; [by simplify_eq|].
    rewrite Hother in Hk' by done. by simplify_eq.
  - apply leibniz_equiv. intros v. rewrite !elem_of_union_list_lookup.
    assert (v ∈ a' ∨ v ∈ b' ↔ v ∈ a ∨ v ∈ b) as Hv.
    { rewrite <-!elem_of_union. by rewrite Hun. }
    split; intros (k & s & Hk & Hvs).
    + destruct (decide (k = i)) as [->|Hki].
      { assert (v ∈ a ∨ v ∈ b) as [?|?] by (apply Hv; left; by simplify_eq);
          eauto. }
      destruct (decide (k = S i)) as [->|Hks].
      { assert (v ∈ a ∨ v ∈ b) as [?|?] by (apply Hv; right; by simplify_eq);
          eauto. }
      rewrite Hother in Hk by done. eauto.
    + destruct (decide (k = i)) as [->|Hki].
      { assert (v ∈ a' ∨ v ∈ b') as [?|?] by (apply Hv; left; by simplify_eq);
          eauto. }
      destruct (decide (k = S i)) as [->|Hks].
      { assert (v ∈ a' ∨ v ∈ b') as [?|?] by (apply Hv; right; by simplify_eq);
          eauto. }
      exists k, s. by rewrite Hother.
Qed.

Lemma scan_keeps us : keeps_keys us (scan us).1.
Proof.
  unfold scan. generalize (seq 0 (length us - 1)). intros is_.
  assert (∀ st, keeps_keys us st.1 →
            keeps_keys us (foldl repair_step st is_).1) as H.
  { induction is_ as [|i is_ IH]; intros [us1 ch] Hk; simpl; [done|].
    apply IH. eapply keeps_keys_trans; [done|].
    apply repair_step_keeps. }
  apply (H (us, false)). apply keeps_keys_refl.
Qed.

(** Alignment, keys.  The repair loop of [_align_divisions] loses no
    key: in its result every key-set is a subset of the one it started
    as, and the union of the key-sets is the union it started with. *)
Theorem align_repair_keeps_keys (fuel : nat) (uniques uniques' : list (gset Z)) :
  repair_loop fuel uniques = Some uniques' →
  length uniques' = length uniques ∧
  (∀ k s s', uniques !! k = Some s → uniques' !! k = Some s' → s' ⊆ s) ∧
  ⋃ uniques' = ⋃ uniques.
Proof.
  revert uniques. induction fuel as [|fuel IH]; intros uniques; [done|].
  simpl. pose proof (scan_keeps uniques) as Hscan.
  destruct (scan uniques) as [us [|]]; cbn [fst] in Hscan.
  - intros Hloop. eapply (keeps_keys_trans _ us); [done|]. by apply IH.
  - by intros [= <-].
Qed.

(** Alignment, one repair.  When the key-sets at [i] and [i + 1] share
    keys, the step removes the shared keys from the one at [i] if it is
    at least as long as the other, and from the one at [i + 1] if that
    one is strictly longer; the other key-set and all the key-sets at
    other positions stay as they are. *)
Theorem align_repair_step_longer_loses (us : list (gset Z)) (changed : bool)
    (i : nat) (a b : gset Z) :
  us !! i = Some a → us !! S i = Some b → a ∩ b ≠ ∅ →
  let us' := (repair_step (us, changed) i).1 in
  (∀ k, k ≠ i → k ≠ S i → us' !! k = us !! k) ∧
  ((size b ≤ size a)%nat →
   us' !! i = Some (a ∖ (a ∩ b)) ∧ us' !! S i = Some b) ∧
  ((size a < size b)%nat →
   us' !! i = Some a ∧ us' !! S i = Some (b ∖ (a ∩ b))).
Proof.
  intros Ha Hb Hint us'.
  destruct (repair_step_lookup us changed i a b Ha Hb)
    as (_ & Hother & Hcases).
  split; [done|].
  destruct Hcases as [(? & _)|[(_ & ? & ? & ?)|(_ & ? & ? & ?)]]; [done| |].
  - split; [done|]. intros; lia.
  - split; [intros; lia|done].
Qed.

Lemma align_repair_step_longer_loses_witness :
  (repair_step ([({[1; 2]} : gset Z); {[2; 3]}], false) 0).1 !! 0%nat
    = Some ({[1; 2]} ∖ ({[1; 2]} ∩ {[2; 3]})) ∧
  (repair_step ([({[1; 2]} : gset Z); {[2; 3]}], false) 0).1 !! 1%nat
    = Some {[2; 3]}.
Proof.
  refine (proj1 (proj2 (align_repair_step_longer_loses
                          [{[1; 2]}; {[2; 3]}] false 0 {[1; 2]} {[2; 3]}
                          eq_refl eq_refl _)) _).
  - vm_compute. discriminate.
  - vm_compute. lia.
Defined.

Lemma align_repair_keeps_keys_witness :
  ⋃ [({[1]} : gset Z); {[2]}; {[3; 4; 5]}]
  = ⋃ [({[1; 2; 3]} : gset Z); {[2; 3; 4]}; {[3; 4; 5]}].
Proof.
  apply (align_repair_keeps_keys 10 [{[1; 2; 3]}; {[2; 3; 4]}; {[3; 4; 5]}]
           [{[1]}; {[2]}; {[3; 4; 5]}]).
  vm_compute. reflexivity.
Defined.

End AlignRepairKeys.

(** ** The matches of the join walk *)

Section JoinMatches.
Import Py Join.

Lemma pairing_from_pivot lu ru nright pivot i plan a i' j :
  pairing lu ru nright pivot i plan →
  plan !! a = Some (i', Some j) →
  (pivot ≤ j < nright)%nat ∧ (i ≤ i')%nat.
Proof.
  revert pivot i a. induction plan as [|[i0 m] plan IH];
    intros pivot i a; simpl; [done|].
  intros (-> & Hp & Hrest). destruct a as [|a]; simpl.
  - intros [= -> ->]. simpl in Hp. destruct Hp as (? & _). lia.
  - intros Ha. destruct (IH _ _ _ Hrest Ha) as [Hj Hi].
    destruct m as [j0|]; simpl in Hp; [destruct Hp as (? & _)|]; lia.
Qed.

Lemma pairing_increasing lu ru nright pivot i plan a b i1 j1 i2 j2 :
  pairing lu ru nright pivot i plan → (a < b)%nat →
  plan !! a = Some (i1, Some j1) → plan !! b = Some (i2, Some j2) →
  (j1 < j2)%nat ∧ (i1 < i2)%nat.
Proof.
  revert pivot i a b. induction plan as [|[i0 m] plan IH];
    intros pivot i a b; simpl; [done|].
  intros (-> & Hp & Hrest) Hab. destruct b as [|b]; [lia|].
  destruct a as [|a]; simpl.
  - intros [= -> ->] Hb.
    destruct (pairing_from_pivot _ _ _ _ _ _ _ _ _ Hrest Hb). lia.
  - intros Ha Hb. eapply (IH _ _ a b); [done|lia|done..].
Qed.

(** Join, matches.  In the walk of a left join the matched right
    partitions go strictly left to right: a later left partition is
    matched with a later right partition, so no right partition is
    joined twice, and every match is a right partition that exists. *)
Theorem join_matches_increasing (leftuniques rightuniques : list (gset Z))
    (nleft nright : nat) :
  (nleft ≤ length leftuniques)%nat →
  (nright ≤ length rightuniques)%nat →
  ∃ plan,
    left_selector leftuniques rightuniques nleft nright = ret plan ∧
    (∀ a i j, plan !! a = Some (i, Some j) → (j < nright)%nat) ∧
    (∀ a b i1 j1 i2 j2,
       (a < b)%nat →
       plan !! a = Some (i1, Some j1) → plan !! b = Some (i2, Some j2) →
       (j1 < j2)%nat ∧ (i1 < i2)%nat).
Proof.
  intros Hl Hr.
  destruct (selectors_from leftuniques rightuniques nright nleft 0 0)
    as (plan & Hleft & _ & Hpair & _); [lia|done|].
  exists plan. split; [done|]. split.
  - intros a i j Ha.
    by destruct (pairing_from_pivot _ _ _ _ _ _ _ _ _ Hpair Ha) as [[_ ?] _].
  - intros a b i1 j1 i2 j2 Hab Ha Hb.
    by eapply pairing_increasing.
Qed.

Lemma join_matches_increasing_witness :
  ∃ plan,
    left_selector [{[1]}; {[2; 3]}; {[4]}; {[5; 6]}]
      [{[2; 3]}; {[4]}; {[5; 6; 7]}] 4 3 = ret plan ∧
    (∀ a i j, plan !! a = Some (i, Some j) → (j < 3)%nat) ∧
    (∀ a b i1 j1 i2 j2,
       (a < b)%nat →
       plan !! a = Some (i1, Some j1) → plan !! b = Some (i2, Some j2) →
       (j1 < j2)%nat ∧ (i1 < i2)%nat).
Proof.
  apply (join_matches_increasing [{[1]}; {[2; 3]}; {[4]}; {[5; 6]}]
           [{[2; 3]}; {[4]}; {[5; 6; 7]}] 4 3); simpl; lia.
Defined.

End JoinMatches.

(** ** More on [reduction] *)

Section ReductionMore.
Import Py Graph Reduction.

Lemma remove_dups_two {A} `{EqDecision A} (l : list A) x y :
  x ∈ l → y ∈ l → x ≠ y → ∃ a b rest, remove_dups l = a :: b :: rest.
Proof.
  intros Hx%elem_of_remove_dups Hy%elem_of_remove_dups Hne.
  destruct (remove_dups l) as [|a [|b rest]]; [|exfalso|eauto].
  - by apply elem_of_nil in Hx.
  - apply list_elem_of_singleton in Hx, Hy. congruence.
Qed.

(** Reduction, partition counts.  When two frames among the arguments
    have different numbers of partitions (and [combine] and
    [combine_kwargs] are consistent), [reduction] raises the
    [ValueError] of the partition check, whatever [split_every] is and
    before any node is built.  The counts are those of the source,
    [len(divisions) - 1]: a frame with no division counts [-1] partitions
    and differs from one with a single division, which counts 0. *)
Theorem reduction_mismatched_npartitions (fuel : nat) (c : call)
    (df1 df2 : Frame) :
  ArgFrame df1 ∈ args c → ArgFrame df2 ∈ args c →
  npartitions df1 ≠ npartitions df2 →
  (combine c = None → combine_kwargs c = None ∨ combine_kwargs c = Some ∅) →
  reduction fuel c
  = Some (raise (ValueError
      "All arguments must have same number of partitions")).
Proof.
  intros H1 H2 Hne Hkw. unfold reduction, checks.
  assert (∃ r, resolve_combine c (aggregate_kwargs' c) = inr r) as [[f kw] ->].
  { unfold resolve_combine. destruct (combine c); [eauto|].
    destruct (Hkw eq_refl) as [-> | ->]; simpl; eauto. }
  simpl. unfold common_npartitions.
  assert (∀ df, ArgFrame df ∈ args c →
            npartitions df ∈ npartitions <$> frames (args c)) as Hin.
  { intros df Hdf. apply list_elem_of_fmap. exists df. split; [done|].
    unfold frames. apply list_elem_of_omap. by exists (ArgFrame df). }
  destruct (remove_dups_two _ _ _ (Hin _ H1) (Hin _ H2) Hne)
    as (a & b & rest & ->).
  done.
Qed.

Lemma reduction_mismatched_npartitions_witness :
  reduction 0
    {| args := [ArgFrame no_division; ArgFrame one_division];
       chunk := "add"; aggregate := "sum"; combine := None;
       meta := None; token := None;
       chunk_kwargs := None; aggregate_kwargs := None;
       combine_kwargs := None;
       split_every := SE_None;
       extra_kwargs := ∅; token_key := "0f3a";
       emulated_meta := ret ["x"] |}
  = Some (raise (ValueError
      "All arguments must have same number of partitions")).
Proof.
  apply (reduction_mismatched_npartitions 0 _ no_division one_division).
  - simpl. set_solver.
  - simpl. set_solver.
  - vm_compute. discriminate.
  - intros _. by left.
Defined.

(** With a fan-in of two or more, a level has at most half as many
    nodes as the one below, rounded up. *)
Lemma partition_all_go_half {A} fuel n (l : list A) :
  (2 ≤ n)%nat → (2 * length (partition_all_go fuel n l) ≤ length l + 1)%nat.
Proof.
  intros Hn. revert l. induction fuel as [|fuel IH]; intros [|x l];
    simpl; try lia.
  specialize (IH (drop n (x :: l))). rewrite length_drop in IH.
  simpl in IH. lia.
Qed.

Lemma combine_loop_depth fuel b se cbkw dsk a k depth dsk' a' k' depth' :
  (2 ≤ se)%nat →
  combine_loop fuel b se cbkw dsk a k depth = Some (dsk', a', k', depth') →
  (depth ≤ depth')%nat ∧
  ((k ≤ 2)%nat → depth' = depth) ∧
  ((2 ≤ k)%nat → (2 ^ (depth' - depth) ≤ k - 1)%nat).
Proof.
  intros Hse. revert dsk a k depth.
  induction fuel as [|fuel IH]; intros dsk a k depth; simpl.
  { case_decide; [done|]. intros [= <- <- <- <-].
    rewrite Nat.sub_diag. simpl. lia. }
  case_decide as Hk.
  - intros Hloop. apply IH in Hloop as (Hd & Hsmall & Hbig).
    pose proof (partition_all_go_half (length (seq 0 k)) se (seq 0 k) Hse)
      as Hhalf.
    rewrite length_seq in Hhalf.
    assert (partition_all se (seq 0 k)
            = partition_all_go (length (seq 0 k)) se (seq 0 k)) as Heq.
    { unfold partition_all. destruct se; [lia|done]. }
    rewrite Heq, length_seq in *. set (k1 := length _) in *.
    split; [lia|]. split; [lia|]. intros _.
    replace (depth' - depth)%nat with (S (depth' - S depth)) by lia.
    rewrite Nat.pow_succ_r'.
    destruct (decide (k1 ≤ 2)%nat) as [Hk1|Hk1].
    + rewrite (Hsmall Hk1), Nat.sub_diag. simpl. lia.
    + specialize (Hbig ltac:(lia)). lia.
  - intros [= <- <- <- <-]. rewrite Nat.sub_diag. simpl. lia.
Qed.

(** Reduction, depth.  For [N >= 2] partitions and an integer
    [split_every >= 2], the number [d] of combine levels of the tree
    satisfies [2 ^ d <= N - 1]: the tree is at most logarithmically deep. *)
Theorem reduction_depth_logarithmic (fuel : nat) (b : string) (se : nat)
    (cbkw : kwargs) (dsk : graph) (a : string) (N : nat)
    (dsk' : graph) (a' : string) (k' depth' : nat) :
  (2 ≤ se)%nat → (2 ≤ N)%nat →
  combine_loop fuel b se cbkw dsk a N 0 = Some (dsk', a', k', depth') →
  (2 ^ depth' ≤ N - 1)%nat.
Proof.
  intros Hse HN Hloop.
  destruct (combine_loop_depth _ _ _ _ _ _ _ _ _ _ _ _ Hse Hloop)
    as (_ & _ & Hbig).
  specialize (Hbig HN). by rewrite Nat.sub_0_r in Hbig.
Qed.

Lemma reduction_depth_logarithmic_witness :
  ∃ dsk' a' k' depth',
    combine_loop 20 "b" 3 ∅ [] "a" 20 0 = Some (dsk', a', k', depth') ∧
    (2 ^ depth' ≤ 20 - 1)%nat.
Proof.
  eexists _, _, _, _. split; [vm_compute; reflexivity|].
  eapply (reduction_depth_logarithmic 20 "b" 3 ∅ [] "a" 20);
    [lia|lia|vm_compute; reflexivity].
Defined.

End ReductionMore.

(** ** [concat] by stacking *)

Section ConcatStack.
Import Py Graph Concat.

Lemma dict_get_set {K V} `{EqDecision K} (d : dict K V) k v k' :
  dict_get (dict_set d k v) k'
  = if decide (k = k') then Some v else dict_get d k'.
Proof.
  induction d as [|[k0 v0] d IH]; simpl.
  - repeat case_decide; done.
  - repeat (case_decide; simpl); try done; try congruence.
    all: rewrite IH; by repeat case_decide.
Qed.

Lemma dict_get_update_other {K V} `{EqDecision K} (d other : dict K V) k :
  k ∉ keys other → dict_get (dict_update d other) k = dict_get d k.
Proof.
  unfold dict_update, keys. revert d.
  induction other as [|[k0 v0] other IH]; intros d Hk; simpl; [done|].
  apply not_elem_of_cons in Hk as [Hne Hk].
  rewrite IH by done. rewrite dict_get_set. by case_decide.
Qed.

(** The aliases that one frame adds. *)
Lemma stack_keys_get name ks (dsk : dict key task) i :
  (stack_keys name (dsk, i) ks).2 = (i + length ks)%nat ∧
  ∀ k,
    dict_get (stack_keys name (dsk, i) ks).1 k
    = match k with
      | Key2 n j =>
          if decide (n = name ∧ i ≤ j < i + length ks)%nat
          then Alias <$> ks !! (j - i)%nat
          else dict_get dsk k
      | _ => dict_get dsk k
      end.
Proof.
  revert dsk i.
  induction ks as [|key ks IH]; intros dsk i.
  { simpl. split; [lia|]. intros [n j|n d j]; [|done].
    case_decide; [lia|done]. }
  change (stack_keys name (dsk, i) (key :: ks))
    with (stack_keys name (dict_set dsk (Key2 name i) (Alias key), S i) ks).
  destruct (IH (dict_set dsk (Key2 name i) (Alias key)) (S i)) as [Hi Hget].
  split; [etrans; [exact Hi|simpl; lia]|].
  intros k. etrans; [exact (Hget k)|]. simpl.
  destruct k as [n j|n d j]; [|rewrite dict_get_set; by case_decide].
  rewrite dict_get_set.
  repeat match goal with
         | |- context [decide ?P] => destruct (decide P)
         end; simplify_eq; try done; try (exfalso; naive_solver lia).
  - match goal with H : _ ∧ (S i ≤ j < _)%nat |- _ => destruct H as [_ ?] end.
    replace (j - i)%nat with (S (j - S i)) by lia. done.
  - by rewrite Nat.sub_diag.
  - exfalso.
    match goal with H : _ ∧ (i ≤ j < _)%nat |- _ => destruct H as [-> ?] end.
    assert (j ≠ i) by congruence.
    match goal with H : ¬ (_ ∧ _) |- _ => apply H; split; [done|lia] end.
Qed.

(** The graph after the frames [dfs] have been stacked on a state in
    which [i] partitions are laid out. *)
Lemma stack_frames_get name dfs (dsk : dict key task) i :
  (∀ df key, df ∈ dfs → key ∈ keys (dask df) →
     ∀ j, key ≠ Key2 name j) →
  ∀ f : graph * nat → Frame → graph * nat,
    (∀ st df, f st df
              = stack_keys name (dict_update st.1 (dask df), st.2)
                  (dask_keys df)) →
    (foldl f (dsk, i) dfs).2
      = (i + length (mjoin (dask_keys <$> dfs)))%nat ∧
    ∀ j, dict_get (foldl f (dsk, i) dfs).1 (Key2 name j)
         = if decide (i ≤ j < i + length (mjoin (dask_keys <$> dfs)))%nat
           then Alias <$> mjoin (dask_keys <$> dfs) !! (j - i)%nat
           else dict_get dsk (Key2 name j).
Proof.
  intros Hfresh f Hf. revert dsk i.
  induction dfs as [|df dfs IH]; intros dsk i.
  { simpl. split; [lia|]. intros j. case_decide; [lia|done]. }
  cbn [foldl].
  destruct (stack_keys_get name (dask_keys df)
              (dict_update dsk (dask df)) i) as [Hi Hget].
  assert ((f (dsk, i) df).2 = (i + length (dask_keys df))%nat) as Hi'.
  { rewrite Hf. exact Hi. }
  assert (∀ j, dict_get (f (dsk, i) df).1 (Key2 name j)
               = if decide (name = name ∧
                            (i ≤ j < i + length (dask_keys df))%nat)
                 then Alias <$> dask_keys df !! (j - i)%nat
                 else dict_get (dict_update dsk (dask df)) (Key2 name j))
    as Hget'.
  { intros j. rewrite Hf. exact (Hget (Key2 name j)). }
  clear Hi Hget.
  destruct (f (dsk, i) df) as [dsk1 i1]. cbn [fst snd] in *. subst i1.
  destruct (IH ltac:(intros df' key Hdf'; apply Hfresh; by right)
              dsk1 (i + length (dask_keys df))%nat) as [Hi2 Hget2].
  change (mjoin (dask_keys <$> df :: dfs))
    with (dask_keys df ++ mjoin (dask_keys <$> dfs)).
  rewrite length_app.
  split; [etrans; [exact Hi2|lia]|].
  intros j. etrans; [exact (Hget2 j)|]. clear Hget2 Hi2.
  set (n1 := length (dask_keys df)) in *.
  set (n2 := length (mjoin (dask_keys <$> dfs))) in *.
  destruct (decide (i + n1 ≤ j < i + n1 + n2)%nat) as [Hj|Hj].
  - rewrite decide_True by lia.
    rewrite lookup_app_r by (fold n1; lia).
    do 2 f_equal. fold n1. lia.
  - rewrite Hget'.
    destruct (decide (name = name ∧ (i ≤ j < i + n1)%nat)) as [[_ Hj1]|Hj1].
    + rewrite decide_True by lia.
      rewrite lookup_app_l by (fold n1; lia). done.
    + rewrite decide_False by (intros ?; apply Hj1; split; [done|lia]).
      apply dict_get_update_other. intros Hin.
      by eapply (Hfresh df); [by left|done|].
Qed.

Lemma sum_npartitions_nonneg dfs :
  Forall (λ df, divisions df ≠ []) dfs → 0 ≤ sum (npartitions <$> dfs).
Proof.
  induction 1 as [|df dfs Hdf _ IH]; [done|].
  change (sum (npartitions <$> df :: dfs))
    with (npartitions df + sum (npartitions <$> dfs)).
  unfold npartitions at 1. destruct (divisions df); [done|]. simpl length. lia.
Qed.

(** Concatenation, unknown divisions.  For a list of frames other than
    a single one that do not all have known divisions, [concat] without
    [interleave_partitions] returns a frame with unknown divisions.  Its
    divisions are [[None] * (sum + 1)] for the sum of the partition
    counts of the inputs, so its partition count is that sum, or [-1]
    when the sum is below [-1]; it is the sum whenever every input has at
    least one division.  If no input graph has a key under the new name,
    partition [j] of the result is the [j]-th partition of the inputs
    taken in order. *)
Theorem concat_unknown_stacks (tok : string) (dfs : list Frame) :
  length dfs ≠ 1%nat →
  forallb known_divisions dfs = false →
  (∀ df key, df ∈ dfs → key ∈ keys (dask df) →
     ∀ j, key ≠ Key2 ("concat-" +:+ tok) j) →
  ∃ out,
    concat tok dfs false = ret (Some out) ∧
    npartitions out = Z.max (-1) (sum (npartitions <$> dfs)) ∧
    (Forall (λ df, divisions df ≠ []) dfs →
     npartitions out = sum (npartitions <$> dfs)) ∧
    Forall (λ d, d = None) (divisions out) ∧
    ∀ j key,
      mjoin (dask_keys <$> dfs) !! j = Some key →
      dict_get (dask out) (Key2 (_name out) j) = Some (Alias key).
Proof.
  intros Hlen Hunknown Hfresh. unfold concat.
  rewrite decide_False by done. rewrite Hunknown.
  eexists. split; [done|]. split; [|split; [|split]].
  - unfold npartitions at 1. simpl. rewrite length_replicate. lia.
  - intros Hne%sum_npartitions_nonneg.
    unfold npartitions at 1. simpl. rewrite length_replicate. lia.
  - simpl. apply Forall_forall. by intros ? ->%elem_of_replicate_inv.
  - intros j key Hj. simpl.
    destruct (stack_frames_get ("concat-" +:+ tok) dfs [] 0 Hfresh
                (λ st df,
                   stack_keys ("concat-" +:+ tok)
                     (dict_update st.1 (dask df), st.2) (dask_keys df))
                ltac:(done))
      as [_ Hget].
    etrans; [exact (Hget j)|].
    apply lookup_lt_Some in Hj as Hlt.
    rewrite decide_True by lia. by rewrite Nat.sub_0_r, Hj.
Qed.

Lemma concat_unknown_stacks_witness :
  (∃ out,
     concat "t" [Reduction.twenty_partitions; frame_0_5] false
       = ret (Some out) ∧
     npartitions out = 21) ∧
  (∃ out,
     concat "t" [Reduction.no_division; Reduction.no_division] false
       = ret (Some out) ∧
     npartitions out = -1).
Proof.
  split.
  - destruct (concat_unknown_stacks "t"
                [Reduction.twenty_partitions; frame_0_5])
      as (out & Hout & Hn & _).
    + simpl. lia.
    + reflexivity.
    + intros df key Hdf Hkey j ->.
      repeat (apply elem_of_cons in Hdf as [->|Hdf]);
        [| |by apply elem_of_nil in Hdf];
        vm_compute in Hkey;
        repeat (apply elem_of_cons in Hkey as [Hkey|Hkey]; [discriminate|]);
        by apply elem_of_nil in Hkey.
    + exists out. split; [done|]. rewrite Hn. reflexivity.
  - destruct (concat_unknown_stacks "t"
                [Reduction.no_division; Reduction.no_division])
      as (out & Hout & Hn & _).
    + simpl. lia.
    + reflexivity.
    + intros df key Hdf Hkey j ->.
      repeat (apply elem_of_cons in Hdf as [->|Hdf]);
        [| |by apply elem_of_nil in Hdf];
        by apply elem_of_nil in Hkey.
    + exists out. split; [done|]. rewrite Hn. reflexivity.
Defined.

Lemma all_of_all_true tests :
  Forall (λ t, t = ret true) tests → all_of tests = ret true.
Proof. induction 1 as [|t tests -> _ IH]; simpl; done. Qed.

Lemma length_removelast {A} (l : list A) :
  length (removelast l) = (length l - 1)%nat.
Proof.
  induction l as [|x [|y l] IH]; simpl in *; try done. rewrite IH. lia.
Qed.

(** Concatenation, known divisions.  For two or more frames with known
    divisions of which each ends strictly below the start of the next,
    [concat] returns a frame whose divisions are those of the inputs in
    order, the last division of every frame but the final one dropped;
    it has as many partitions as the inputs together. *)
Theorem concat_ordered_divisions (tok : string) (dfs : list Frame)
    (interleave_partitions : bool) (df_last : Frame) :
  (2 ≤ length dfs)%nat →
  Forall fully_known dfs →
  strictly_ordered dfs →
  last dfs = Some df_last →
  ∃ out,
    concat tok dfs interleave_partitions = ret (Some out) ∧
    divisions out
      = mjoin ((λ df, removelast (divisions df)) <$> removelast dfs)
        ++ divisions df_last ∧
    npartitions out = sum (npartitions <$> dfs) ∧
    Forall is_Some (divisions out).
Proof.
  intros Hlen Hknown Hordered Hlast. unfold concat.
  rewrite decide_False by lia.
  assert (forallb known_divisions dfs = true) as ->.
  { apply forallb_forall. intros df Hdf%list_elem_of_In.
    eapply Forall_forall in Hknown; [|done].
    destruct (fully_known_bounds df Hknown) as (x & y & _ & Hy).
    unfold known_divisions. by destruct (divisions df) as [|[d|] ds];
      simplify_eq/=. }
  rewrite all_of_all_true.
  2:{ apply Forall_fmap, Forall_forall. intros i Hi%elem_of_seq. simpl.
      destruct (lookup_lt_is_Some_2 dfs i) as [a Ha]; [lia|].
      destruct (lookup_lt_is_Some_2 dfs (S i)) as [b Hb]; [lia|].
      destruct (fully_known_bounds a) as (x & _ & Hx & _).
      { eapply Forall_forall; [done|]. by eapply list_elem_of_lookup_2. }
      destruct (fully_known_bounds b) as (_ & y & _ & Hy).
      { eapply Forall_forall; [done|]. by eapply list_elem_of_lookup_2. }
      erewrite ordered_at_known by done.
      specialize (Hordered i a b x y Ha Hb Hx Hy).
      by rewrite bool_decide_eq_true_2. }
  simpl. unfold index_last. rewrite Hlast. simpl.
  eexists. split; [done|]. simpl. split; [done|]. split.
  - unfold npartitions at 1. simpl. rewrite length_app.
    clear Hordered Hlen. revert df_last Hlast Hknown.
    induction dfs as [|df dfs IH]; intros df_last Hlast Hknown; [done|].
    apply Forall_cons in Hknown as [[Hne _] Hknown].
    destruct dfs as [|df' dfs].
    + simpl in *. injection Hlast as <-. unfold npartitions. lia.
    + change (last (df' :: dfs) = Some df_last) in Hlast.
      specialize (IH df_last Hlast Hknown).
      change (removelast (df :: df' :: dfs))
        with (df :: removelast (df' :: dfs)).
      change (mjoin ((λ df, removelast (divisions df))
                       <$> df :: removelast (df' :: dfs)))
        with (removelast (divisions df)
                ++ mjoin ((λ df, removelast (divisions df))
                            <$> removelast (df' :: dfs))).
      change (sum (npartitions <$> df :: df' :: dfs))
        with (npartitions df + sum (npartitions <$> df' :: dfs)).
      rewrite length_app, length_removelast. unfold npartitions at 1.
      assert (0 < length (divisions df))%nat
        by (destruct (divisions df); [done|simpl; lia]).
      assert (0 < length (divisions df_last))%nat.
      { assert (df_last ∈ df' :: dfs) as Hin.
        { rewrite last_lookup in Hlast. by eapply list_elem_of_lookup_2. }
        eapply Forall_forall in Hknown as [Hne' _]; [|done].
        destruct (divisions df_last); [done|]. simpl. lia. }
      lia.
  - apply Forall_app. split.
    + apply Forall_forall. intros d (l & Hd & Hl)%list_elem_of_join.
      apply list_elem_of_fmap in Hl as (df & -> & Hdf).
      assert (df ∈ dfs) as Hin.
      { clear -Hdf. induction dfs as [|x [|y dfs] IH]; simpl in *.
        - done.
        - by apply elem_of_nil in Hdf.
        - apply elem_of_cons in Hdf as [->|Hdf]; [by left|right; by apply IH]. }
      eapply Forall_forall in Hknown as [_ Hall]; [|done].
      eapply Forall_forall; [done|].
      clear -Hd. induction (divisions df) as [|x [|y l] IH]; simpl in *.
      * done.
      * by apply elem_of_nil in Hd.
      * apply elem_of_cons in Hd as [->|Hd]; [by left|right; by apply IH].
    + assert (df_last ∈ dfs) as Hin.
      { rewrite last_lookup in Hlast. by eapply list_elem_of_lookup_2. }
      by eapply Forall_forall in Hknown as [_ ?].
Qed.

Lemma concat_ordered_divisions_witness :
  ∃ out,
    concat "t" [frame_0_5; frame_6_12] false = ret (Some out) ∧
    divisions out = [Some 0; Some 6; Some 9; Some 12] ∧
    npartitions out = 3.
Proof.
  destruct (concat_ordered_divisions "t" [frame_0_5; frame_6_12] false
              frame_6_12) as (out & Hout & Hdiv & Hn & _).
  - simpl. lia.
  - repeat constructor; simpl; eauto.
  - intros i a b x y Ha Hb Hx Hy.
    destruct i as [|[|i]]; simplify_eq/=. lia.
  - reflexivity.
  - exists out. split; [done|]. rewrite Hdiv, Hn. split; reflexivity.
Defined.

End ConcatStack.

(** ** Partitioning a frame: [from_cudf] *)

Section FromCudfSplits.
Import Py FromCudf.

Lemma StronglySorted_filter {A} (R : relation A) (P : A → Prop)
    `{∀ x, Decision (P x)} (l : list A) :
  StronglySorted R l → StronglySorted R (filter P l).
Proof.
  induction 1 as [|x l Hl IH Hx]; [constructor|].
  rewrite filter_cons. case_decide; [|done].
  constructor; [done|].
  apply Forall_forall. intros y [_ Hy]%list_elem_of_filter.
  by eapply Forall_forall in Hx.
Qed.

Lemma StronglySorted_seq (a n : nat) : StronglySorted Nat.lt (seq a n).
Proof.
  revert a. induction n as [|n IH]; intros a; simpl; constructor; [done|].
  apply Forall_forall. intros y Hy%elem_of_seq. unfold Nat.lt. lia.
Qed.

Lemma StronglySorted_lookup {A} (R : relation A) (l : list A) i j x y :
  StronglySorted R l → (i < j)%nat →
  l !! i = Some x → l !! j = Some y → R x y.
Proof.
  intros Hl. revert i j. induction Hl as [|z l Hl IH Hz]; intros i j Hij.
  { by rewrite lookup_nil. }
  destruct j as [|j]; [lia|]. destruct i as [|i]; simpl.
  - intros [= ->] Hy. eapply Forall_forall in Hz; [done|].
    by eapply list_elem_of_lookup_2.
  - apply IH. lia.
Qed.

Lemma find_segments_sorted idx : StronglySorted Z.lt (find_segments idx).
Proof.
  unfold find_segments.
  apply (StronglySorted_fmap _ Nat.lt); [unfold Nat.lt; lia|].
  apply StronglySorted_filter, StronglySorted_seq.
Qed.

Lemma elem_of_find_segments idx z :
  z ∈ find_segments idx ↔
  ∃ i : nat, z = Z.of_nat i ∧ (i < length idx)%nat ∧
             (i = 0%nat ∨ idx !! pred i ≠ idx !! i).
Proof.
  unfold find_segments. rewrite list_elem_of_fmap. split.
  - intros (i & -> & [Hi Hin%elem_of_seq]%list_elem_of_filter).
    exists i. split; [done|]. split; [lia|done].
  - intros (i & -> & Hlt & Hi). exists i. split; [done|].
    apply list_elem_of_filter. split; [done|]. apply elem_of_seq. lia.
Qed.


(** The loop over the segments.  The splits start at 0, are a chunk
    size or more apart, are segments, and the last of them lies
    [current_size] before [last]. *)
Lemma split_loop (c : Z) (P : Z → Prop) (segs sp : list Z) (last0 cs : Z) :
  0 ≤ c →
  StronglySorted Z.le (last0 :: segs) → Forall P segs →
  0 ≤ cs → head sp = Some 0 → last sp = Some (last0 - cs) →
  StronglySorted (λ a b, a + c ≤ b) sp →
  Forall (λ a, a ≤ last0 - cs) sp →
  Forall (λ a, a = 0 ∨ P a) sp →
  ∃ sp' last' cs',
    foldl (split_step c) (sp, last0, cs) segs = (sp', last', cs') ∧
    last (last0 :: segs) = Some last' ∧
    0 ≤ cs' ∧ head sp' = Some 0 ∧ last sp' = Some (last' - cs') ∧
    StronglySorted (λ a b, a + c ≤ b) sp' ∧
    Forall (λ a, a = 0 ∨ P a) sp'.
Proof.
  intros Hc. revert sp last0 cs.
  induction segs as [|s segs IH]; intros sp last0 cs Hsorted HP Hcs Hhd Hlast
    Hgaps Hle H0.
  { exists sp, last0, cs. done. }
  apply StronglySorted_cons in Hsorted as [Hs Hsorted].
  apply Forall_cons in Hs as [Hs _]. apply Forall_cons in HP as [HPs HP].
  cbn [foldl]. unfold split_step at 2.
  destruct (decide (cs + (s - last0) >= c)) as [Hbig|Hsmall].
  - destruct (IH (sp ++ [s]) s 0) as (sp' & last' & cs' & Hfold & Hl & Hrest).
    + done.
    + done.
    + lia.
    + by destruct sp.
    + rewrite last_snoc. f_equal. lia.
    + apply StronglySorted_app_2; [|done|repeat constructor].
      intros a b Ha ->%list_elem_of_singleton.
      eapply Forall_forall in Hle; [|done]. cbv beta in Hle. lia.
    + apply Forall_app. split.
      * eapply Forall_impl; [exact Hle|]. intros a Ha. cbv beta in *. lia.
      * repeat constructor. lia.
    + apply Forall_app. split; [done|]. constructor; [by right|constructor].
    + exists sp', last', cs'. split; [done|]. split; [|done].
      by rewrite last_cons_cons.
  - destruct (IH sp s (cs + (s - last0)))
      as (sp' & last' & cs' & Hfold & Hl & Hrest).
    + done.
    + done.
    + lia.
    + done.
    + rewrite Hlast. f_equal. lia.
    + done.
    + eapply Forall_impl; [exact Hle|]. intros a Ha. cbv beta in *. lia.
    + done.
    + exists sp', last', cs'. split; [done|]. split; [|done].
      by rewrite last_cons_cons.
Qed.


Lemma traverse_index_take idx (l : list Z) :
  Forall (λ z, 0 ≤ z < len idx) l →
  ∃ ds, traverse (index_take idx) l = ret ds ∧
        Forall2 (λ b d, idx !! Z.to_nat b = Some d) l ds.
Proof.
  induction 1 as [|z l [Hz0 Hz] _ (ds & Hds & Hall)]; simpl.
  { by exists []. }
  unfold index_take at 1. rewrite decide_True by done.
  destruct (lookup_lt_is_Some_2 idx (Z.to_nat z)) as [d Hd].
  { unfold len in Hz. lia. }
  unfold index. rewrite Hd, Hds. simpl. exists (d :: ds).
  split; [done|]. by constructor.
Qed.

Lemma find_segments_bounds idx z :
  z ∈ find_segments idx → 0 ≤ z ≤ len idx - 1.
Proof.
  intros (i & -> & Hi & _)%elem_of_find_segments. unfold len. lia.
Qed.

(** The splits of a non-empty sorted frame: the cut positions [B], then
    the number of rows. *)
Lemma sorted_cuts (idx : list Z) (c : Z) :
  1 ≤ c → idx ≠ [] →
  ∃ B divisions,
    splits_divisions_sorted_cudf idx c = ret (B ++ [len idx], divisions) ∧
    StronglySorted (λ a b, a + c ≤ b) B ∧
    Forall (λ b, b < len idx - 1 ∧ b ∈ find_segments idx) B ∧
    (2 ≤ len idx → head B = Some 0) ∧
    (len idx = 1 → B = []) ∧
    Forall2 (λ b d, idx !! Z.to_nat b = Some d) (B ++ [len idx - 1]) divisions.
Proof.
  intros Hc Hne.
  assert (1 ≤ len idx) as Hn.
  { unfold len. destruct idx; [done|]. simpl. lia. }
  assert (0 ∈ find_segments idx) as H0seg.
  { apply elem_of_find_segments. exists 0%nat.
    split; [done|]. split; [|by left]. unfold len in Hn. lia. }
  set (n := len idx) in *.
  set (segments := find_segments idx ++ [n - 1]).
  assert (StronglySorted Z.le (0 :: segments)) as Hsorted.
  { constructor.
    - apply StronglySorted_app_2.
      + intros a b Ha%find_segments_bounds ->%list_elem_of_singleton. lia.
      + pose proof (find_segments_sorted idx) as Hfs.
        apply (StronglySorted_fmap id Z.lt Z.le) in Hfs;
          [by rewrite list_fmap_id in Hfs|]. intros ??; unfold id; lia.
      + repeat constructor.
    - apply Forall_app. split.
      + apply Forall_forall. intros a Ha%find_segments_bounds. lia.
      + repeat constructor. lia. }
  destruct (split_loop c (λ z, z ∈ segments) segments [0] 0 0)
    as (sp & last' & cs & Hfold & Hlast' & Hcs & Hhd & Hlast & Hgaps & Hin).
  { lia. }
  { done. }
  { by apply Forall_forall. }
  { done. }
  { done. }
  { done. }
  { repeat constructor. }
  { constructor; [lia|constructor]. }
  { constructor; [by left|constructor]. }
  assert (last' = n - 1) as ->.
  { unfold segments in Hlast'.
    rewrite app_comm_cons, last_snoc in Hlast'. congruence. }
  (* the cut positions *)
  assert (∃ B, (if decide (n - 1 - cs ≠ n - 1)
                then sp ++ [n - 1] else sp) = B ++ [n - 1] ∧
               StronglySorted (λ a b, a + c ≤ b) B ∧
               Forall (λ b, b < n - 1 ∧ (b = 0 ∨ b ∈ segments)) B ∧
               (2 ≤ n → head B = Some 0)) as (B & HB & HBgaps & HBin & HBhd).
  { apply last_Some in Hlast as [B0 ->].
    apply StronglySorted_app in Hgaps as (Hlt & HB0 & _).
    apply Forall_app in Hin as [HB0in Hlin].
    destruct (decide (n - 1 - cs ≠ n - 1)) as [Hne'|Heq].
    - exists (B0 ++ [n - 1 - cs]). split; [done|]. split; [|split].
      + apply StronglySorted_app_2; [done..|repeat constructor].
      + apply Forall_app. split.
        * apply Forall_forall. intros b Hb. split.
          -- specialize (Hlt b (n - 1 - cs) Hb ltac:(by left)). lia.
          -- by eapply Forall_forall in HB0in.
        * constructor; [|constructor]. split; [lia|].
          by apply Forall_cons in Hlin as [? _].
      + done.
    - exists B0. replace (n - 1 - cs) with (n - 1) in * by lia.
      split; [done|]. split; [done|]. split.
      + apply Forall_forall. intros b Hb. split.
        * specialize (Hlt b (n - 1) Hb ltac:(by left)). lia.
        * by eapply Forall_forall in HB0in.
      + intros Hn2. destruct B0 as [|b B0]; [|done].
        simpl in Hhd. injection Hhd as Hhd. lia. }
  assert (Forall (λ b, b < n - 1 ∧ b ∈ find_segments idx) B) as HBseg.
  { eapply Forall_impl; [exact HBin|]. intros b [Hb [->|Hseg]]; [done|].
    split; [done|].
    apply elem_of_app in Hseg as [?| ->%list_elem_of_singleton]; [done|lia]. }
  destruct (traverse_index_take idx (B ++ [n - 1])) as (ds & Hds & Hall).
  { apply Forall_app. split.
    - eapply Forall_impl; [exact HBseg|].
      intros b [Hb Hseg%find_segments_bounds]. fold n. lia.
    - repeat constructor; fold n; lia. }
  exists B, ds. split; [|split; [done|split; [done|split; [done|split; [|done]]]]].
  - unfold splits_divisions_sorted_cudf. fold n. fold segments.
    rewrite Hfold. cbn [fst]. unfold index_last. rewrite Hlast.
    unfold segments at 1. rewrite last_snoc. cbn [bind ret].
    rewrite HB, Hds. cbn [bind ret]. rewrite last_snoc, removelast_last.
    cbn [bind ret]. by replace (n - 1 + 1) with n by lia.
  - intros Hn1. destruct B as [|b B]; [done|].
    apply Forall_cons in HBseg as [[Hb Hseg%find_segments_bounds] _]. lia.
Qed.


(** Slices within the bounds of the data. *)
Lemma slice_eq {A} (data : list A) (a b : Z) :
  0 ≤ a → a ≤ b → b ≤ len data →
  slice data a b = take (Z.to_nat b - Z.to_nat a) (drop (Z.to_nat a) data).
Proof.
  intros Ha Hab Hb. unfold slice, bound.
  rewrite !decide_True by lia. by rewrite !Z.min_l by lia.
Qed.

Lemma slice_app {A} (data : list A) (a b c : Z) :
  0 ≤ a → a ≤ b → b ≤ c → c ≤ len data →
  slice data a b ++ slice data b c = slice data a c.
Proof.
  intros Ha Hab Hbc Hc. rewrite !slice_eq by lia.
  replace (drop (Z.to_nat b) data)
    with (drop (Z.to_nat b - Z.to_nat a) (drop (Z.to_nat a) data)).
  2:{ rewrite drop_drop. f_equal. lia. }
  rewrite take_take_drop. f_equal. lia.
Qed.

Lemma slice_all {A} (data : list A) : slice data 0 (len data) = data.
Proof.
  rewrite slice_eq by (unfold len; lia). simpl.
  apply take_ge. unfold len. lia.
Qed.

Lemma lookup_slice {A} (data : list A) (a b : Z) (k : nat) :
  0 ≤ a → a ≤ b → b ≤ len data → Z.of_nat k < b - a →
  slice data a b !! k = data !! (Z.to_nat a + k)%nat.
Proof.
  intros Ha Hab Hb Hk. rewrite slice_eq by lia.
  rewrite lookup_take_lt by lia. by rewrite lookup_drop.
Qed.

Lemma length_slice {A} (data : list A) (a b : Z) :
  0 ≤ a → a ≤ b → b ≤ len data → len (slice data a b) = b - a.
Proof.
  intros Ha Hab Hb. rewrite slice_eq by lia. unfold len in *.
  rewrite length_take, length_drop. lia.
Qed.

Lemma elem_of_slice {A} (data : list A) (a b : Z) (v : A) :
  0 ≤ a → a ≤ b → b ≤ len data →
  v ∈ slice data a b ↔
  ∃ k : nat, a ≤ Z.of_nat k < b ∧ data !! k = Some v.
Proof.
  intros Ha Hab Hb. rewrite slice_eq by lia. rewrite elem_of_take. split.
  - intros (i & Hi & Hlt). rewrite lookup_drop in Hi.
    exists (Z.to_nat a + i)%nat. split; [lia|done].
  - intros (k & Hk & Hv). exists (k - Z.to_nat a)%nat. split; [|lia].
    rewrite lookup_drop. by replace (Z.to_nat a + (k - Z.to_nat a))%nat
      with k by lia.
Qed.

(** The partitions cut out of [data] at the positions [bs]. *)
Lemma cuts_lookup {A} (data : list A) (bs : list Z) (i : nat) (p : list A) :
  zip_with (slice data) (removelast bs) (tail bs) !! i = Some p ↔
  ∃ a b, bs !! i = Some a ∧ bs !! S i = Some b ∧ p = slice data a b.
Proof.
  rewrite lookup_zip_with_Some. setoid_rewrite lookup_tail.
  rewrite removelast_firstn_len. setoid_rewrite lookup_take_Some. split.
  - intros (a & b & -> & [Ha _] & Hb). eauto.
  - intros (a & b & Ha & Hb & ->). exists a, b.
    split; [done|]. split; [|done]. split; [done|].
    apply lookup_lt_Some in Hb. lia.
Qed.

Lemma cuts_length {A} (data : list A) (bs : list Z) :
  length (zip_with (slice data) (removelast bs) (tail bs))
  = (length bs - 1)%nat.
Proof.
  rewrite length_zip_with, length_removelast. destruct bs; simpl; lia.
Qed.

Lemma sorted_bounds (bs : list Z) (lo hi : Z) (i : nat) (a : Z) :
  StronglySorted Z.lt bs → head bs = Some lo → last bs = Some hi →
  bs !! i = Some a → lo ≤ a ≤ hi.
Proof.
  intros Hs Hlo Hhi Ha. rewrite head_lookup in Hlo.
  rewrite last_lookup in Hhi. apply lookup_lt_Some in Ha as Hi. split.
  - destruct (decide (i = 0%nat)) as [->|]; [naive_solver lia|].
    pose proof (StronglySorted_lookup _ _ 0%nat i _ _ Hs ltac:(lia) Hlo Ha).
    lia.
  - destruct (decide (i = pred (length bs))) as [->|]; [naive_solver lia|].
    pose proof (StronglySorted_lookup _ _ i (pred (length bs)) _ _ Hs
                  ltac:(lia) Ha Hhi).
    lia.
Qed.

Lemma cuts_join {A} (data : list A) (bs : list Z) (lo hi : Z) :
  StronglySorted Z.lt bs → head bs = Some lo → last bs = Some hi →
  0 ≤ lo → hi ≤ len data →
  mjoin (zip_with (slice data) (removelast bs) (tail bs)) = slice data lo hi.
Proof.
  intros Hs. revert lo.
  induction Hs as [|b bs Hs IH Hb]; intros lo Hlo Hhi H0 Hn; [done|].
  injection Hlo as ->. destruct bs as [|b' bs].
  { injection Hhi as ->. simpl. rewrite slice_eq by lia.
    by rewrite Nat.sub_diag. }
  rewrite last_cons_cons in Hhi.
  apply Forall_cons in Hb as [Hb' Hb].
  assert (b' ≤ hi).
  { eapply (sorted_bounds (b' :: bs) b' hi 0); done. }
  change (mjoin (zip_with (slice data) (removelast (lo :: b' :: bs))
                   (tail (lo :: b' :: bs))))
    with (slice data lo b'
            ++ mjoin (zip_with (slice data) (removelast (b' :: bs))
                        (tail (b' :: bs)))).
  rewrite (IH b') by (done || lia). apply slice_app; lia.
Qed.


Lemma sorted_le_lookup (l : list Z) (i j : nat) (x y : Z) :
  StronglySorted Z.le l → (i ≤ j)%nat →
  l !! i = Some x → l !! j = Some y → x ≤ y.
Proof.
  intros Hl Hij Hx Hy. destruct (decide (i = j)) as [->|].
  - rewrite Hx in Hy. injection Hy as ->. lia.
  - by eapply (StronglySorted_lookup _ l i j); [|lia|..].
Qed.

Lemma merge_sort_length (data : list Z) :
  length (merge_sort Z.le data) = length data.
Proof. apply Permutation_length, merge_sort_Permutation. Qed.

(** [from_cudf] with [sort=True] on a frame that has rows. *)
Lemma from_cudf_sorted_cuts (data : list Z) (c : Z) :
  1 ≤ c → data ≠ [] →
  let idx := merge_sort Z.le data in
  ∃ B ds,
    from_cudf data c true
    = ret (zip_with (slice idx) (removelast (B ++ [len idx]))
             (tail (B ++ [len idx])),
           Some <$> ds) ∧
    StronglySorted (λ a b, a + c ≤ b) B ∧
    Forall (λ b, b < len idx - 1 ∧ b ∈ find_segments idx) B ∧
    (2 ≤ len idx → head B = Some 0) ∧
    (len idx = 1 → B = []) ∧
    Forall2 (λ b d, idx !! Z.to_nat b = Some d) (B ++ [len idx - 1]) ds.
Proof.
  intros Hc Hne idx.
  destruct (sorted_cuts idx c Hc) as (B & ds & Hsp & Hrest).
  { intros Hnil. pose proof (merge_sort_length data) as Hlen.
    fold idx in Hlen. rewrite Hnil in Hlen. by destruct data. }
  exists B, ds. split; [|done]. unfold from_cudf. fold idx. by rewrite Hsp.
Qed.

(** The cut positions of a sorted frame of two or more rows. *)
Lemma from_cudf_sorted_bounds (idx B : list Z) (c : Z) :
  1 ≤ c → 2 ≤ len idx →
  StronglySorted (λ a b, a + c ≤ b) B →
  Forall (λ b, b < len idx - 1 ∧ b ∈ find_segments idx) B →
  head B = Some 0 →
  StronglySorted Z.lt (B ++ [len idx]) ∧
  head (B ++ [len idx]) = Some 0 ∧
  last (B ++ [len idx]) = Some (len idx) ∧
  length (B ++ [len idx]) = S (length B).
Proof.
  intros Hc Hn HB Hseg Hhd. split; [|split; [|split]].
  - apply StronglySorted_app_2; [| |repeat constructor].
    + intros a b Ha ->%list_elem_of_singleton.
      eapply Forall_forall in Hseg as [? _]; [|done]. lia.
    + clear -HB Hc. induction HB as [|b B _ IH Hb]; constructor; [done|].
      eapply Forall_impl; [exact Hb|]. intros a Ha. cbv beta in Ha. lia.
  - by destruct B.
  - apply last_snoc.
  - rewrite length_app. simpl. lia.
Qed.

(** [from_cudf], sorted, partitions.  For a frame of two or more rows
    and a chunk size of at least 1, [from_cudf] with [sort=True] returns
    partitions that are, in order, the sorted rows; none is empty and
    every one but the last has at least [chunksize] rows; and every index
    value of a partition is strictly below every index value of a later
    partition, so that no index value is split over two partitions. *)
Theorem from_cudf_sorted_partitions (data : list Z) (chunksize : Z) :
  1 ≤ chunksize → (2 ≤ length data)%nat →
  ∃ parts divisions,
    from_cudf data chunksize true = ret (parts, divisions) ∧
    mjoin parts = merge_sort Z.le data ∧
    (∀ i p, parts !! i = Some p →
       p ≠ [] ∧ ((S i < length parts)%nat → chunksize ≤ len p)) ∧
    (∀ i j p q v w,
       (i < j)%nat → parts !! i = Some p → parts !! j = Some q →
       v ∈ p → w ∈ q → v < w).
Proof.
  intros Hc Hlen.
  destruct (from_cudf_sorted_cuts data chunksize Hc)
    as (B & ds & Hfc & HBgaps & HBseg & HBhd & _ & _).
  { destruct data; [simpl in Hlen; lia|done]. }
  pose proof (StronglySorted_merge_sort Z.le data) as Hsorted.
  pose proof (merge_sort_length data) as Hlen'.
  set (idx := merge_sort Z.le data) in *.
  assert (2 ≤ len idx) as Hn by (unfold len; lia).
  specialize (HBhd Hn).
  destruct (from_cudf_sorted_bounds idx B chunksize Hc Hn HBgaps HBseg HBhd)
    as (Hbs & Hbs0 & Hbsn & Hbslen).
  set (n := len idx) in *. set (bs := B ++ [n]) in *.
  assert (∀ i a b, bs !! i = Some a → bs !! S i = Some b →
            0 ≤ a ∧ a < b ∧ b ≤ n) as Hcut.
  { intros i a b Ha Hb.
    pose proof (sorted_bounds bs 0 n i a Hbs Hbs0 Hbsn Ha).
    pose proof (sorted_bounds bs 0 n (S i) b Hbs Hbs0 Hbsn Hb).
    pose proof (StronglySorted_lookup _ bs i (S i) a b Hbs ltac:(lia) Ha Hb).
    lia. }
  exists (zip_with (slice idx) (removelast bs) (tail bs)), (Some <$> ds).
  split; [done|]. split; [|split].
  - rewrite (cuts_join idx bs 0 n) by (done || lia). apply slice_all.
  - intros i p (a & b & Ha & Hb & ->)%cuts_lookup.
    destruct (Hcut i a b Ha Hb) as (Ha0 & Hab & Hbn).
    pose proof (length_slice idx a b Ha0 ltac:(lia) Hbn) as Hp. split.
    + intros Hnil. rewrite Hnil in Hp. unfold len in Hp. simpl in Hp. lia.
    + rewrite cuts_length, Hbslen. intros Hi. rewrite Hp.
      unfold bs in Ha, Hb. rewrite lookup_app_l in Ha, Hb by lia.
      pose proof (StronglySorted_lookup _ B i (S i) a b HBgaps
                    ltac:(lia) Ha Hb) as Hgap.
      cbv beta in Hgap. lia.
  - intros i j p q v w Hij (a & b & Ha & Hb & ->)%cuts_lookup
      (a' & b' & Ha' & Hb' & ->)%cuts_lookup Hv Hw.
    destruct (Hcut i a b Ha Hb) as (Ha0 & Hab & Hbn).
    destruct (Hcut j a' b' Ha' Hb') as (Ha0' & Hab' & Hbn').
    assert (b ≤ a') as Hba.
    { destruct (decide (S i = j)) as [<-|]; [naive_solver lia|].
      pose proof (StronglySorted_lookup _ bs (S i) j b a' Hbs
                    ltac:(lia) Hb Ha').
      lia. }
    apply elem_of_slice in Hv as (kv & Hkv & Hv); [|lia..].
    apply elem_of_slice in Hw as (kw & Hkw & Hw); [|lia..].
    assert (a' ∈ find_segments idx) as Hseg.
    { apply lookup_lt_Some in Hb'. rewrite Hbslen in Hb'.
      unfold bs in Ha'. rewrite lookup_app_l in Ha' by lia.
      eapply Forall_forall in HBseg as [_ ?]; [done|].
      by eapply list_elem_of_lookup_2. }
    apply elem_of_find_segments in Hseg as (k & -> & Hk & Hrun).
    destruct Hrun as [->|Hrun]; [lia|].
    destruct (lookup_lt_is_Some_2 idx (pred k)) as [x Hx]; [lia|].
    destruct (lookup_lt_is_Some_2 idx k) as [y Hy]; [lia|].
    pose proof (sorted_le_lookup idx kv (pred k) v x Hsorted ltac:(lia) Hv Hx).
    pose proof (sorted_le_lookup idx (pred k) k x y Hsorted ltac:(lia) Hx Hy).
    pose proof (sorted_le_lookup idx k kw y w Hsorted ltac:(lia) Hy Hw).
    assert (x ≠ y) by congruence. lia.
Qed.


Lemma from_cudf_sorted_partitions_witness :
  ∃ parts divisions,
    from_cudf [3; 1; 2; 2; 2; 5; 5; 7] 3 true = ret (parts, divisions) ∧
    mjoin parts = [1; 2; 2; 2; 3; 5; 5; 7].
Proof.
  destruct (from_cudf_sorted_partitions [3; 1; 2; 2; 2; 5; 5; 7] 3)
    as (parts & divisions & Hfc & Hrows & _); [lia|simpl; lia|].
  exists parts, divisions. split; [done|]. rewrite Hrows. reflexivity.
Defined.

(** [from_cudf], sorted, divisions.  Under the same conditions there is
    one division more than there are partitions, every division is a
    value, division [i] is the first (smallest) index value of partition
    [i], and the final division is the largest index value of the
    frame. *)
Theorem from_cudf_sorted_divisions (data : list Z) (chunksize : Z) :
  1 ≤ chunksize → (2 ≤ length data)%nat →
  ∃ parts divisions,
    from_cudf data chunksize true = ret (parts, divisions) ∧
    length divisions = S (length parts) ∧
    Forall is_Some divisions ∧
    (∀ i p, parts !! i = Some p → divisions !! i = Some (head p)) ∧
    last divisions = Some (last (merge_sort Z.le data)).
Proof.
  intros Hc Hlen.
  destruct (from_cudf_sorted_cuts data chunksize Hc)
    as (B & ds & Hfc & HBgaps & HBseg & HBhd & _ & Hds).
  { destruct data; [simpl in Hlen; lia|done]. }
  pose proof (merge_sort_length data) as Hlen'.
  set (idx := merge_sort Z.le data) in *.
  assert (2 ≤ len idx) as Hn by (unfold len; lia).
  specialize (HBhd Hn).
  destruct (from_cudf_sorted_bounds idx B chunksize Hc Hn HBgaps HBseg HBhd)
    as (Hbs & Hbs0 & Hbsn & Hbslen).
  set (n := len idx) in *. set (bs := B ++ [n]) in *.
  exists (zip_with (slice idx) (removelast bs) (tail bs)), (Some <$> ds).
  split; [done|]. split; [|split; [|split]].
  - rewrite cuts_length, Hbslen, length_fmap.
    apply Forall2_length in Hds. rewrite length_app in Hds.
    simpl in Hds. lia.
  - apply Forall_fmap, Forall_forall. intros d _. by exists d.
  - intros i p (a & b & Ha & Hb & ->)%cuts_lookup.
    pose proof (sorted_bounds bs 0 n i a Hbs Hbs0 Hbsn Ha).
    pose proof (sorted_bounds bs 0 n (S i) b Hbs Hbs0 Hbsn Hb).
    pose proof (StronglySorted_lookup _ bs i (S i) a b Hbs ltac:(lia) Ha Hb).
    apply lookup_lt_Some in Hb as Hi. rewrite Hbslen in Hi.
    unfold bs in Ha. rewrite lookup_app_l in Ha by lia.
    destruct (Forall2_lookup_l _ _ _ i a Hds) as (d & Hd & Hidx).
    { by rewrite lookup_app_l by lia. }
    rewrite list_lookup_fmap, Hd. simpl. f_equal.
    rewrite head_lookup, lookup_slice by lia.
    by rewrite Nat.add_0_r.
  - rewrite fmap_last.
    apply Forall2_app_inv_l in Hds as (ds1 & ds2 & _ & Hlast & ->).
    destruct ds2 as [|d ds2]; [by apply Forall2_nil_inv_r in Hlast|].
    apply Forall2_cons in Hlast as [Hd Hnil].
    apply Forall2_nil_inv_l in Hnil as ->.
    rewrite last_snoc. simpl. f_equal.
    rewrite last_lookup, <-Hd. f_equal. unfold n, len. lia.
Qed.

Lemma from_cudf_sorted_divisions_witness :
  ∃ parts divisions,
    from_cudf [3; 1; 2; 2; 2; 5; 5; 7] 3 true = ret (parts, divisions) ∧
    length divisions = S (length parts) ∧
    last divisions = Some (Some 7).
Proof.
  destruct (from_cudf_sorted_divisions [3; 1; 2; 2; 2; 5; 5; 7] 3)
    as (parts & divisions & Hfc & Hlen & _ & _ & Hlast); [lia|simpl; lia|].
  exists parts, divisions. split; [done|]. split; [done|].
  rewrite Hlast. reflexivity.
Defined.

(** [from_cudf], one row.  A frame of a single row, with [sort=True] and
    a chunk size of at least 1, gives a collection with one division and
    no partition: the splits are [[0]] before the end offset is added and
    [[1]] after it, and [zip(splits[:-1], splits[1:])] is empty. *)
Theorem from_cudf_sorted_single_row (x chunksize : Z) :
  1 ≤ chunksize → from_cudf [x] chunksize true = ret ([], [Some x]).
Proof.
  intros Hc.
  destruct (from_cudf_sorted_cuts [x] chunksize Hc)
    as (B & ds & Hfc & _ & _ & _ & HB & Hds); [done|].
  pose proof (merge_sort_Permutation Z.le [x]) as Hx.
  apply Permutation_singleton_r in Hx. rewrite Hx in *.
  rewrite (HB eq_refl) in *.
  apply Forall2_cons_inv_l in Hds as (d & ds' & Hd & Hnil & ->).
  apply Forall2_nil_inv_l in Hnil as ->.
  injection Hd as <-. exact Hfc.
Qed.

Lemma from_cudf_sorted_single_row_witness :
  from_cudf [7] 1 true = ret ([], [Some 7]).
Proof. apply from_cudf_sorted_single_row. lia. Defined.


(** [from_cudf], unsorted.  With [sort=False] and a chunk size of at
    least 1, the partitions are the rows in their given order, there are
    [ceil(nrows / chunksize)] of them, each has between 1 and [chunksize]
    rows and every one but the last exactly [chunksize]; all divisions
    are [None]. *)
Theorem from_cudf_unsorted_partitions (data : list Z) (chunksize : Z) :
  1 ≤ chunksize →
  ∃ parts,
    from_cudf data chunksize false
    = ret (parts, replicate (S (length parts)) None) ∧
    mjoin parts = data ∧
    len parts = (len data + chunksize - 1) `div` chunksize ∧
    ∀ i p, parts !! i = Some p →
      1 ≤ len p ≤ chunksize ∧
      ((S i < length parts)%nat → len p = chunksize).
Proof.
  intros Hc. set (n := len data). set (c := chunksize) in *.
  set (q := (n + c - 1) `div` c).
  assert (0 ≤ n) as Hn0 by (unfold n, len; lia).
  assert (0 ≤ q ∧ n ≤ q * c ∧ (1 ≤ q → (q - 1) * c < n)) as (Hq0 & Hqn & Hq1).
  { pose proof (Z.div_mod (n + c - 1) c ltac:(lia)) as Hdm.
    pose proof (Z.mod_pos_bound (n + c - 1) c ltac:(lia)) as Hmod.
    fold q in Hdm. split; [apply Z.div_pos; lia|]. split; nia. }
  set (m := Z.to_nat q).
  set (starts := (λ k : nat, Z.of_nat k * c) <$> seq 0 m).
  set (bs := starts ++ [n]).
  assert (∀ k, (k < m)%nat → starts !! k = Some (Z.of_nat k * c)) as Hstart.
  { intros k Hk. unfold starts.
    by rewrite list_lookup_fmap, lookup_seq_lt by done. }
  assert (length starts = m) as Hlen.
  { unfold starts. by rewrite length_fmap, length_seq. }
  assert (StronglySorted Z.lt bs) as Hbs.
  { apply StronglySorted_app_2; [| |repeat constructor].
    - intros a b (k & -> & Hk%elem_of_seq)%list_elem_of_fmap
        ->%list_elem_of_singleton.
      nia.
    - apply (StronglySorted_fmap _ Nat.lt); [|apply StronglySorted_seq].
      unfold Nat.lt. intros; nia. }
  assert (head bs = Some 0) as Hbs0.
  { unfold bs, starts. destruct m as [|m'] eqn:Hm; simpl; [|done].
    f_equal. nia. }
  assert (last bs = Some n) as Hbsn by apply last_snoc.
  assert (length bs = S m) as Hbslen.
  { unfold bs. rewrite length_app, Hlen. simpl. lia. }
  exists (zip_with (slice data) (removelast bs) (tail bs)).
  rewrite cuts_length, Hbslen. replace (S m - 1)%nat with m by lia.
  split; [|split; [|split]].
  - unfold from_cudf, range0. fold n c.
    rewrite decide_False, decide_True by lia. fold q m starts. simpl.
    fold bs. by rewrite Hbslen.
  - rewrite (cuts_join data bs 0 n) by (done || lia). apply slice_all.
  - unfold len. rewrite cuts_length, Hbslen. lia.
  - intros i p (a & b & Ha & Hb & ->)%cuts_lookup.
    apply lookup_lt_Some in Hb as Hi. rewrite Hbslen in Hi.
    unfold bs in Ha. rewrite lookup_app_l, Hstart in Ha by lia.
    injection Ha as <-.
    destruct (decide (S i < m)%nat) as [Hlt|Hge].
    + unfold bs in Hb. rewrite lookup_app_l, Hstart in Hb by lia.
      injection Hb as <-. rewrite length_slice by nia.
      split; [nia|]. intros _. nia.
    + unfold bs in Hb. rewrite lookup_app_r in Hb by lia.
      replace (S i - length starts)%nat with 0%nat in Hb by lia.
      injection Hb as <-. rewrite length_slice by nia.
      split; [nia|]. intros ?. lia.
Qed.

Lemma from_cudf_unsorted_partitions_witness :
  ∃ parts,
    from_cudf [3; 1; 2; 2; 2; 5; 5; 7] 3 false
    = ret (parts, replicate (S (length parts)) None) ∧
    mjoin parts = [3; 1; 2; 2; 2; 5; 5; 7] ∧
    len parts = 3.
Proof.
  destruct (from_cudf_unsorted_partitions [3; 1; 2; 2; 2; 5; 5; 7] 3)
    as (parts & Hfc & Hrows & Hlen & _); [lia|].
  exists parts. split; [done|]. split; [done|]. rewrite Hlen. reflexivity.
Defined.

End FromCudfSplits.

(** ** The byte ranges of [read_csv] *)

Section ReadCsvRanges.
Import Py Graph Csv.
Variable read_csv_columns : file → kwargs → list string.

Lemma elem_of_range_from (n start step x : nat) :
  x ∈ range_from n start step ↔ ∃ k, (k < n)%nat ∧ x = (start + k * step)%nat.
Proof.
  revert start. induction n as [|n IH]; intros start; simpl.
  { split; [by intros ?%elem_of_nil|intros (k & ? & _); lia]. }
  rewrite elem_of_cons, IH. split.
  - intros [->|(k & Hk & ->)]; [exists 0%nat; lia|exists (S k); lia].
  - intros ([|k] & Hk & ->); [left; lia|right; exists k; lia].
Qed.

Lemma length_range_from (n start step : nat) :
  length (range_from n start step) = n.
Proof. revert start. induction n as [|n IH]; intros start; simpl; auto. Qed.

Lemma elem_of_all_chunks (filenames : list file) (chunksize : nat)
    (c : file * nat) :
  c ∈ all_chunks filenames chunksize ↔
  c.1 ∈ filenames ∧ c.2 ∈ chunk_starts (size c.1) chunksize.
Proof.
  unfold all_chunks. rewrite list_elem_of_join. split.
  - intros (l & Hc & (fn & -> & Hfn)%list_elem_of_fmap).
    apply list_elem_of_fmap in Hc as (start & -> & Hstart). done.
  - intros [Hfn Hstart]. eexists. split; [|apply list_elem_of_fmap; eauto].
    apply list_elem_of_fmap. exists c.2. split; [by destruct c|done].
Qed.

Lemma length_all_chunks (filenames : list file) (chunksize : nat) :
  length (all_chunks filenames chunksize)
  = sum_list ((λ fn, (size fn + chunksize - 1) / chunksize)%nat <$> filenames).
Proof.
  unfold all_chunks. rewrite length_join, <-!list_fmap_compose.
  f_equal. apply list_fmap_ext. intros _ fn _. simpl.
  rewrite length_fmap. apply length_range_from.
Qed.

(** [read_csv], byte ranges.  For a non-empty list of files and a
    positive chunk size, [read_csv] returns a frame of
    [ceil(size / chunksize)] partitions per file, with unknown
    divisions.  Every byte of every file lies in the byte range of a task
    that reads this file, and every task reads, from a file of the list,
    a range that starts inside the file at a multiple of the chunk
    size, so that the ranges of one file do not overlap. *)
Theorem read_csv_byte_ranges (tok : string) (filenames : list file)
    (chunksize : nat) (kw : kwargs) (first : file) :
  filenames !! 0%nat = Some first →
  chunksize ≠ 0%nat →
  let meta := read_csv_columns first kw in
  let name := "read-csv-" +:+ tok in
  ∃ df,
    read_csv read_csv_columns tok filenames chunksize kw = ret df ∧
    npartitions df
    = Z.of_nat (sum_list ((λ fn, (size fn + chunksize - 1) / chunksize)%nat
                            <$> filenames)) ∧
    Forall (λ d, d = None) (divisions df) ∧
    (∀ fn byte, fn ∈ filenames → (byte < size fn)%nat →
       ∃ i start,
         dask df !! i
         = Some (Key2 name i,
                 ReadCsv (path fn) (chunk_kwargs meta chunksize kw start)) ∧
         (start ≤ byte < start + chunksize)%nat) ∧
    (∀ i k t, dask df !! i = Some (k, t) →
       ∃ fn start q,
         fn ∈ filenames ∧ k = Key2 name i ∧
         t = ReadCsv (path fn) (chunk_kwargs meta chunksize kw start) ∧
         (start < size fn)%nat ∧ start = (q * chunksize)%nat).
Proof.
  intros Hfirst Hc meta name.
  assert (∀ sz start, start ∈ chunk_starts sz chunksize ↔
            ∃ q, start = (q * chunksize)%nat ∧ (start < sz)%nat) as Hstarts.
  { intros sz start. unfold chunk_starts. rewrite elem_of_range_from.
    pose proof (Nat.div_mod (sz + chunksize - 1) chunksize Hc) as Hdm.
    pose proof (Nat.mod_upper_bound (sz + chunksize - 1) chunksize Hc) as Hm.
    split.
    - intros (q & Hq & ->). exists q. split; [lia|]. nia.
    - intros (q & -> & Hlt). exists q. split; [|lia]. nia. }
  unfold read_csv, index. rewrite Hfirst. cbn [bind ret].
  rewrite decide_False by done.
  eexists. split; [done|].
  rewrite file_chunks_steps, chunk_steps_fresh
    by (intros j _; by intros ?%elem_of_nil).
  cbn [fst app]. fold meta name.
  split; [|split; [|split]].
  - unfold npartitions. simpl. rewrite length_replicate, length_imap.
    rewrite length_all_chunks. lia.
  - simpl. apply Forall_forall. by intros ? ->%elem_of_replicate_inv.
  - intros fn byte Hfn Hbyte. simpl.
    assert ((fn, (byte / chunksize * chunksize)%nat)
              ∈ all_chunks filenames chunksize) as Hin.
    { apply elem_of_all_chunks. split; [done|]. apply Hstarts. simpl.
      exists (byte / chunksize)%nat. split; [done|].
      pose proof (Nat.div_mod byte chunksize Hc). nia. }
    apply list_elem_of_lookup_1 in Hin as [i Hi].
    exists i, (byte / chunksize * chunksize)%nat. split.
    + etrans; [apply list_lookup_imap|]. by rewrite Hi.
    + pose proof (Nat.div_mod byte chunksize Hc).
      pose proof (Nat.mod_upper_bound byte chunksize Hc). nia.
  - intros i k t Hi. simpl in Hi.
    assert (∀ f : nat → file * nat → key * task,
              imap f (all_chunks filenames chunksize) !! i = Some (k, t) →
              f i <$> all_chunks filenames chunksize !! i = Some (k, t))
      as Himap by (intros f <-; symmetry; apply list_lookup_imap).
    apply Himap in Hi. clear Himap.
    destruct (all_chunks filenames chunksize !! i) as [[fn start]|] eqn:Hch;
      [|done].
    injection Hi as <- <-.
    apply list_elem_of_lookup_2, elem_of_all_chunks in Hch as [Hfn Hstart].
    apply Hstarts in Hstart as (q & Hq & Hlt).
    exists fn, start, q. done.
Qed.

End ReadCsvRanges.

Lemma read_csv_byte_ranges_witness :
  ∃ df,
    Csv.read_csv Csv.columns_of "t" [Csv.file_ab; Csv.file_cd] 4 ∅
    = Py.ret df ∧
    Graph.npartitions df = 6.
Proof.
  destruct (read_csv_byte_ranges Csv.columns_of "t"
              [Csv.file_ab; Csv.file_cd] 4 ∅ Csv.file_ab)
    as (df & Hdf & Hn & _); [done|done|].
  exists df. split; [done|]. rewrite Hn. reflexivity.
Defined.

(** ** The index after [reset_index] *)

Section ResetIndexRange.
Import Py FromCudf ResetIndex.

Lemma int64_small (z : Z) : - 2 ^ 63 ≤ z < 2 ^ 63 → int64 z = z.
Proof. intros Hz. unfold int64. rewrite Z.mod_small; lia. Qed.

Lemma reset_index_from (acc : Z) (df : list Z) (dfs : list (list Z)) :
  0 ≤ acc → acc + len (mjoin (df :: dfs)) < 2 ^ 63 →
  let out := zip_with fix_index (df :: dfs)
               (acc :: cumsum_from acc
                         (removelast (int64 <$> (len <$> df :: dfs)))) in
  mjoin out = seqZ acc (len (mjoin (df :: dfs))) ∧
  Forall2 (λ p q, length p = length q) (df :: dfs) out.
Proof.
  revert acc df. induction dfs as [|df' dfs IH]; intros acc df Hacc Hlen.
  - simpl in *. rewrite !app_nil_r in *.
    assert (0 ≤ len df) by (unfold len; lia).
    unfold fix_index. rewrite int64_small by lia.
    replace (acc + len df - acc) with (len df) by lia.
    split; [done|]. constructor; [|constructor].
    rewrite length_seqZ. unfold len. lia.
  - assert (0 ≤ len df ∧ 0 ≤ len (mjoin (df' :: dfs))) as [Hdf Hrest]
      by (unfold len; lia).
    assert (len (mjoin (df :: df' :: dfs))
            = len df + len (mjoin (df' :: dfs))) as Hsum.
    { change (mjoin (df :: df' :: dfs)) with (df ++ mjoin (df' :: dfs)).
      unfold len. rewrite length_app. lia. }
    rewrite Hsum in *.
    change (removelast (int64 <$> (len <$> df :: df' :: dfs)))
      with (int64 (len df)
              :: removelast (int64 <$> (len <$> df' :: dfs))).
    cbn [cumsum_from zip_with].
    rewrite (int64_small (len df)) by lia.
    rewrite (int64_small (acc + len df)) by lia.
    destruct (IH (acc + len df) df' ltac:(lia) ltac:(lia)) as [Hjoin Hall].
    cbv zeta in Hjoin, Hall. split.
    + change (mjoin (fix_index df acc :: ?l)) with (fix_index df acc ++ mjoin l).
      etrans; [apply (f_equal (app _)); exact Hjoin|].
      unfold fix_index. rewrite int64_small by lia.
      replace (acc + len df - acc) with (len df) by lia.
      rewrite seqZ_app by lia. done.
    + constructor; [|done]. unfold fix_index.
      rewrite int64_small by lia. rewrite length_seqZ. unfold len. lia.
Qed.

(** [reset_index(force=True)].  When the frame has fewer than [2^63]
    rows, the new index values of the partitions, taken in order, are
    [0, 1, ..., nrows - 1], and every partition keeps its number of
    rows. *)
Theorem reset_index_force_range (dfs : list (list Z)) :
  len (mjoin dfs) < 2 ^ 63 →
  mjoin (reset_index dfs true) = seqZ 0 (len (mjoin dfs)) ∧
  Forall2 (λ p q, length p = length q) dfs (reset_index dfs true).
Proof.
  intros Hlen. destruct dfs as [|df dfs].
  { split; [done|constructor]. }
  apply (reset_index_from 0 df dfs); [done|lia].
Qed.

Lemma reset_index_force_range_witness :
  mjoin (reset_index [[5; 7]; []; [1; 1; 9]] true) = [0; 1; 2; 3; 4].
Proof.
  etrans; [apply (reset_index_force_range [[5; 7]; []; [1; 1; 9]]);
           vm_compute; reflexivity|].
  reflexivity.
Defined.

End ResetIndexRange.
